(** * Qrack QEngine: measurement, probability and gate layer

    A shallow embedding of [src/qengine/qengine.cpp] together with the
    numeric configuration of [include/common/qrack_types.hpp].

    - Machine integers are values of [Z] with every wrap-around written
      out ([toCap], [toU32], [toInt]).
    - [real1] (float or double, chosen by the build) is an abstract
      carrier with the operations the engine uses.
    - The virtual methods of the engine that the file calls but does not
      define ([Prob], [Rand], [ApplyM], [Apply2x2], ...) are events of a
      finite interaction tree [Eng]; a [World] answers them. *)

From Stdlib Require Import ZArith List Lia Bool QArith Qcanon.
From Stdlib Require Import Ring.
From Stdlib Require Import Sorting.Sorted Sorting.Permutation.
From coqutil Require Import Z.bitblast.
Import ListNotations.

Local Open Scope Z_scope.

(* ================================================================= *)
(** ** Numeric configuration (qrack_types.hpp) *)

(** [bitCapInt] is an unsigned integer whose width is fixed by the build
    ([uint32_t], [uint64_t], [__uint128_t] or a boost integer of
    [1 << QBCAPPOW] bits).  [config.h], which selects it, is not part of
    the sources, so the width is a parameter; every choice the header
    offers has at least the 32 bits of [unsigned int]. *)
Class Config := {
  capBits : Z;
  capBits_lo : 32 <= capBits;
  (** the default value of the parameter [doForce] of the one-qubit
      [ForceM], declared in qengine.hpp (not part of the sources) *)
  doForceDefault : bool
}.

(** [real1] and the operations of it that qengine.cpp uses.  [rlt] and
    [rle] are the C++ comparisons [<] and [<=]; [real_of_int] is the
    implicit conversion of an integer literal. *)
Class Real1 := {
  real1 : Type;
  ZERO_R1 : real1;
  ONE_R1 : real1;
  radd : real1 -> real1 -> real1;
  rsub : real1 -> real1 -> real1;
  rmul : real1 -> real1 -> real1;
  rdiv : real1 -> real1 -> real1;
  rneg : real1 -> real1;
  rsqrt : real1 -> real1;
  rlt : real1 -> real1 -> bool;
  rle : real1 -> real1 -> bool;
  real_of_int : Z -> real1
}.

(** The identities of real arithmetic that the proofs below rely on.
    None of them is needed to define the engine. *)
Class Real1Laws (R : Real1) := {
  rlt_irrefl : forall x, rlt x x = false;
  rlt_zero_one : rlt ZERO_R1 ONE_R1 = true;
  rle_refl : forall x, rle x x = true;
  rle_trans : forall x y z, rle x y = true -> rle y z = true -> rle x z = true;
  rle_total : forall x y, rle x y = false -> rle y x = true;
  rsub_zero_r : forall x, rsub x ZERO_R1 = x;
  rsub_one_eq_zero : forall x, rsub ONE_R1 x = ZERO_R1 -> x = ONE_R1;
  radd_zero_l : forall x, radd ZERO_R1 x = x;
  radd_zero_r : forall x, radd x ZERO_R1 = x;
  rmul_zero_l : forall x, rmul ZERO_R1 x = ZERO_R1;
  rmul_one_l : forall x, rmul ONE_R1 x = x;
  rsqrt_one : rsqrt ONE_R1 = ONE_R1
}.

(** The ring identities of real arithmetic, with what [real1(2)],
    [ONE_R1 / 2] and [-ONE_R1 / 2] are in the ring.  They are used for
    the products of the gate matrices only. *)
Class Real1Ring (R : Real1) := {
  r1_ring : ring_theory ZERO_R1 ONE_R1 radd rmul rsub rneg (@eq real1);
  r1_two : real_of_int 2 = radd ONE_R1 ONE_R1;
  r1_half : rmul (real_of_int 2) (rdiv ONE_R1 (real_of_int 2)) = ONE_R1;
  r1_neg_half :
    rdiv (rneg ONE_R1) (real_of_int 2) = rneg (rdiv ONE_R1 (real_of_int 2))
}.

Module CInt.
Section WithConfig.
Context {cfg : Config}.

(** Conversion to [bitCapInt], to [unsigned int] and to [int] (32 bits,
    two's complement). *)
Definition toCap (z : Z) : Z := z mod 2 ^ capBits.
Definition toU32 (z : Z) : Z := z mod 2 ^ 32.
Definition toInt (z : Z) : Z := (z + 2 ^ 31) mod 2 ^ 32 - 2 ^ 31.

(** [a << k] at type [int], [unsigned int] and [bitCapInt].  C++ leaves a
    shift by the width or more undefined; the model then keeps the low
    bits of the mathematical shift, which are all zero. *)
Definition shl_int (a k : Z) : Z := toInt (Z.shiftl a k).
Definition shl_uint (a k : Z) : Z := toU32 (Z.shiftl a k).
Definition shl_cap (a k : Z) : Z := toCap (Z.shiftl a k).

(** [~a] at type [bitCapInt]. *)
Definition not_cap (a : Z) : Z := toCap (Z.lnot a).

(** Number of loop iterations that always suffices for a loop that
    clears one bit of a [bitCapInt] per iteration. *)
Definition bitFuel : nat := Z.to_nat capBits.

End WithConfig.
End CInt.
Import CInt.

(* ================================================================= *)
(** ** QEngine::ProbMaskAll, the integer part *)

Section MaskEnumeration.
Context {cfg : Config}.

(** [for (length = 0; v; length++) { oldV = v; v &= v - 1; }] *)
Fixpoint count_bits (fuel : nat) (v length : Z) : Z :=
  match fuel with
  | O => length
  | S fuel' =>
      if v =? 0 then length
      else count_bits fuel' (Z.land v (toCap (v - 1))) (length + 1)
  end.

(** The second loop of ProbMaskAll: the powers of the bits of [~mask]
    that lie below [mask], in ascending order. *)
Fixpoint skip_loop (fuel : nat) (mask v : Z) (skipPowersVec : list Z) : list Z :=
  match fuel with
  | O => skipPowersVec
  | S fuel' =>
      if v =? 0 then skipPowersVec
      else
        let oldV := v in
        let v := Z.land v (toCap (v - 1)) in
        let power := Z.land (Z.lxor v oldV) oldV in
        if power <? mask
        then skip_loop fuel' mask v (skipPowersVec ++ [power])
        else skip_loop fuel' mask 0 skipPowersVec
  end.

(** The inner loop over [p]: it returns the final [(i, iHigh)]. *)
Fixpoint expand_loop (skipPowersVec : list Z) (i iHigh : Z) : Z * Z :=
  match skipPowersVec with
  | [] => (i, iHigh)
  | skipPower :: rest =>
      let iLow := Z.land iHigh (toCap (skipPower - 1)) in
      let i := Z.lor i iLow in
      let iHigh := shl_cap (Z.lxor iHigh iLow) 1 in
      if iHigh =? 0 then (i, iHigh) else expand_loop rest i iHigh
  end.

(** The pattern that ProbMaskAll passes to ProbMask for [lcv]. *)
Definition expand (skipPowersVec : list Z) (lcv : Z) : Z :=
  let '(i, iHigh) := expand_loop skipPowersVec 0 lcv in
  Z.lor i iHigh.

Definition mask_length (mask : Z) : Z := count_bits bitFuel mask 0.
Definition mask_skipPowers (mask : Z) : list Z :=
  skip_loop bitFuel mask (not_cap mask) [].
Definition mask_lengthPower (mask : Z) : Z :=
  toCap (shl_int 1 (mask_length mask)).
Definition mask_pattern (mask lcv : Z) : Z :=
  expand (mask_skipPowers mask) lcv.

End MaskEnumeration.

(* ================================================================= *)
(** ** The engine: events, programs and their runs *)

Section Engine.
Context {cfg : Config} {R : Real1}.

(** [std::complex<real1>] and the division of a complex by a real. *)
Record complex : Type := mkComplex { re : real1; im : real1 }.

Definition cdiv_real (c : complex) (r : real1) : complex :=
  mkComplex (rdiv (re c) r) (rdiv (im c) r).

(** What qengine.cpp asks of the rest of the engine: the read of the
    member [doNormalize] and the methods it calls without defining.
    [ApplyM] is called with a [bool] result by the one-qubit ForceM and
    with a [bitCapInt] result elsewhere; the two call shapes are kept
    apart. *)
Inductive EngE : Type -> Type :=
| doNormalizeE : EngE bool
| NormalizeStateE : EngE unit
| UpdateRunningNormE : EngE unit
| ProbE (qubit : Z) : EngE real1
| RandE : EngE real1
| GetNonunitaryPhaseE : EngE complex
| ME (qubit : Z) : EngE bool
| ProbMaskE (mask permutation : Z) : EngE real1
| ProbRegE (start length permutation : Z) : EngE real1
| ApplyMBitE (qPower : Z) (result : bool) (nrm : complex) : EngE unit
| ApplyME (regMask result : Z) (nrm : complex) : EngE unit
| Apply2x2E (offset1 offset2 : Z) (mtrx : list complex) (bitCount : Z)
    (qPowersSorted : list Z) (doCalcNorm : bool) : EngE unit.

Inductive Eng (A : Type) : Type :=
| Ret (a : A)
| Vis {X : Type} (e : EngE X) (k : X -> Eng A).
Arguments Ret {A} a.
Arguments Vis {A X} e k.

Fixpoint bind {A B : Type} (m : Eng A) (f : A -> Eng B) : Eng B :=
  match m with
  | Ret a => f a
  | Vis e k => Vis e (fun x => bind (k x) f)
  end.

Definition trigger {X : Type} (e : EngE X) : Eng X := Vis e Ret.

(** A method call together with the value it returned. *)
Inductive Call : Type :=
| Call_NormalizeState
| Call_UpdateRunningNorm
| Call_Prob (qubit : Z) (ret : real1)
| Call_Rand (ret : real1)
| Call_GetNonunitaryPhase (ret : complex)
| Call_M (qubit : Z) (ret : bool)
| Call_ProbMask (mask permutation : Z) (ret : real1)
| Call_ProbReg (start length permutation : Z) (ret : real1)
| Call_ApplyMBit (qPower : Z) (result : bool) (nrm : complex)
| Call_ApplyM (regMask result : Z) (nrm : complex)
| Call_Apply2x2 (offset1 offset2 : Z) (mtrx : list complex) (bitCount : Z)
    (qPowersSorted : list Z) (doCalcNorm : bool).

Definition calls_of {X : Type} (e : EngE X) : X -> list Call :=
  match e in EngE X return X -> list Call with
  | doNormalizeE => fun _ => []
  | NormalizeStateE => fun _ => [Call_NormalizeState]
  | UpdateRunningNormE => fun _ => [Call_UpdateRunningNorm]
  | ProbE q => fun r => [Call_Prob q r]
  | RandE => fun r => [Call_Rand r]
  | GetNonunitaryPhaseE => fun c => [Call_GetNonunitaryPhase c]
  | ME q => fun b => [Call_M q b]
  | ProbMaskE m p => fun r => [Call_ProbMask m p r]
  | ProbRegE s l p => fun r => [Call_ProbReg s l p r]
  | ApplyMBitE m r n => fun _ => [Call_ApplyMBit m r n]
  | ApplyME m r n => fun _ => [Call_ApplyM m r n]
  | Apply2x2E o1 o2 mt bc qs dc => fun _ => [Call_Apply2x2 o1 o2 mt bc qs dc]
  end.

(** The rest of the engine: a state and an answer to every event. *)
Record World : Type := {
  St : Type;
  answer : forall X : Type, EngE X -> St -> X * St
}.

(** A run returns the result, the final state and the calls made. *)
Fixpoint run {A : Type} (w : World) (m : Eng A) (s : St w)
  : A * St w * list Call :=
  match m with
  | Ret a => (a, s, [])
  | Vis e k =>
      let '(x, s1) := answer w _ e s in
      let '(a, s2, tr) := run w (k x) s1 in
      (a, s2, calls_of e x ++ tr)
  end.

Definition result_of {A S : Type} (r : A * S * list Call) : A := fst (fst r).
Definition state_of {A S : Type} (r : A * S * list Call) : S := snd (fst r).
Definition calls {A S : Type} (r : A * S * list Call) : list Call := snd r.

End Engine.

Arguments Ret {R A} a.
Arguments Vis {R A X} e k.

Declare Scope eng_scope.
Delimit Scope eng_scope with eng.
Notation "x <- m ;; k" := (bind m (fun x => k))
  (at level 61, m at next level, right associativity) : eng_scope.
Notation "m ;; k" := (bind m (fun _ => k))
  (at level 61, right associativity) : eng_scope.

(* ================================================================= *)
(** ** Arrays and loops *)

Section Arrays.
Context {A : Type}.

(** [a[i]]; reading outside the array is undefined in C++, the model
    then returns [d]. *)
Fixpoint zth (a : list A) (i : Z) (d : A) : A :=
  match a with
  | [] => d
  | x :: rest => if i =? 0 then x else zth rest (i - 1) d
  end.

(** [a[i] = x]; writing outside the array is undefined in C++, the model
    then leaves the array as it is. *)
Fixpoint zstore (a : list A) (i : Z) (x : A) : list A :=
  match a with
  | [] => []
  | y :: rest => if i =? 0 then x :: rest else y :: zstore rest (i - 1) x
  end.

End Arrays.

(** [std::sort] on an array of [bitCapInt]. *)
Fixpoint sort_insert (x : Z) (l : list Z) : list Z :=
  match l with
  | [] => [x]
  | y :: rest => if x <=? y then x :: l else y :: sort_insert x rest
  end.

Fixpoint sort (l : list Z) : list Z :=
  match l with
  | [] => []
  | x :: rest => sort_insert x (sort rest)
  end.

(* ================================================================= *)
(** ** qengine.cpp *)

Section QEngine.
Context {cfg : Config} {R : Real1}.
Local Open Scope eng_scope.

(** [for (lcv = lcv0; lcv < lcv0 + n; lcv++) acc = body lcv acc] *)
Fixpoint for_lcv {S : Type} (n : nat) (lcv : Z) (body : Z -> S -> Eng S)
  (acc : S) : Eng S :=
  match n with
  | O => Ret acc
  | S n' => acc' <- body lcv acc ;; for_lcv n' (lcv + 1) body acc'
  end.

(** [if (doNormalize) { NormalizeState(); }] *)
Definition normalize_if_needed : Eng unit :=
  doNormalize <- trigger doNormalizeE ;;
  if (doNormalize : bool) then trigger NormalizeStateE else Ret tt.

(** [bool QEngine::ForceM(bitLenInt qubit, bool result, bool doForce)] *)
Definition ForceM (qubit : Z) (result doForce : bool) : Eng bool :=
  normalize_if_needed ;;
  oneChance <- trigger (ProbE qubit) ;;
  result <- (if negb doForce
             then prob <- trigger RandE ;;
                  Ret (rlt prob oneChance && rlt ZERO_R1 oneChance)
             else Ret result) ;;
  let nrmlzr := if (result : bool) then oneChance
                else rsub ONE_R1 oneChance in
  let qPower := toCap (shl_int 1 qubit) in
  phase <- trigger GetNonunitaryPhaseE ;;
  trigger (ApplyMBitE qPower result (cdiv_real phase (rsqrt nrmlzr))) ;;
  Ret result.

(** [void QEngine::ProbMaskAll(const bitCapInt& mask, real1* probsArray)] *)
Definition ProbMaskAll (mask : Z) (probsArray : list real1)
  : Eng (list real1) :=
  let skipPowersVec := mask_skipPowers mask in
  let lengthPower := mask_lengthPower mask in
  for_lcv (Z.to_nat lengthPower) 0
    (fun lcv probsArray =>
       let i := expand skipPowersVec lcv in
       prob <- trigger (ProbMaskE mask i) ;;
       Ret (zstore probsArray lcv prob))
    probsArray.

(** [void QEngine::ProbRegAll(start, length, real1* probsArray)] *)
Definition ProbRegAll (start length : Z) (probsArray : list real1)
  : Eng (list real1) :=
  let lengthPower := toCap (shl_uint 1 length) in
  for_lcv (Z.to_nat lengthPower) 0
    (fun lcv probsArray =>
       prob <- trigger (ProbRegE start length lcv) ;;
       Ret (zstore probsArray lcv prob))
    probsArray.

(** The local variables of the sampling walk of ForceM and ForceMReg. *)
Record Walk : Type := mkWalk {
  w_lcv : Z;
  w_lowerProb : real1;
  w_largestProb : real1;
  w_nrmlzr : real1;
  w_result : Z
}.

(** The body of the walk, [p] being [probArray[lcv]]:
    [lowerProb += p; if (largestProb <= p) { largestProb = p;
    nrmlzr = largestProb; result = lcv; } lcv++;] *)
Definition walk_step (p : real1) (w : Walk) : Walk :=
  if rle (w_largestProb w) p
  then mkWalk (toCap (w_lcv w + 1)) (radd (w_lowerProb w) p) p p (w_lcv w)
  else mkWalk (toCap (w_lcv w + 1)) (radd (w_lowerProb w) p)
         (w_largestProb w) (w_nrmlzr w) (w_result w).

(** [while ((lowerProb < prob) && (lcv < lengthPower)) { ... }].  Every
    iteration increments [lcv], so [lengthPower] iterations always
    suffice. *)
Fixpoint walk_loop (fuel : nat) (prob : real1) (probArray : list real1)
  (lengthPower : Z) (w : Walk) : Walk :=
  match fuel with
  | O => w
  | S fuel' =>
      if rlt (w_lowerProb w) prob && (w_lcv w <? lengthPower)
      then walk_loop fuel' prob probArray lengthPower
             (walk_step (zth probArray (w_lcv w) ZERO_R1) w)
      else w
  end.

(** The walk with what precedes and follows it; it returns
    [(result, nrmlzr)]. *)
Definition sample (prob : real1) (probArray : list real1) (lengthPower : Z)
  (nrmlzr : real1) : Z * real1 :=
  let w0 := mkWalk 0 ZERO_R1 ZERO_R1 nrmlzr (toCap (lengthPower - 1)) in
  let w := walk_loop (Z.to_nat lengthPower) prob probArray lengthPower w0 in
  if w_lcv w <? lengthPower
  then
    let lcv := toCap (w_lcv w - 1) in
    (lcv, zth probArray lcv ZERO_R1)
  else (w_result w, w_nrmlzr w).

(** [for (p = 0; p < length; p++) if ((1U << p) & result) i |= qPowers[p];] *)
Fixpoint reassemble (n : nat) (p : Z) (qPowers : list Z) (result i : Z) : Z :=
  match n with
  | O => i
  | S n' =>
      let i := if Z.land (toCap (shl_uint 1 p)) result =? 0 then i
               else Z.lor i (zth qPowers p 0) in
      reassemble n' (p + 1) qPowers result i
  end.

(** [for (j = 0; j < length; j++) result |= values[j] ? (1U << bits[j]) : 0U;] *)
Fixpoint forced_result (n : nat) (j : Z) (bits : list Z) (values : list bool)
  (result : Z) : Z :=
  match n with
  | O => result
  | S n' =>
      let bit := if zth values j false
                 then toCap (shl_uint 1 (zth bits j 0)) else 0 in
      forced_result n' (j + 1) bits values (Z.lor result bit)
  end.

(** [qPowers[i] = 1U << bits[i]] and [regMask |= qPowers[i]]. *)
Definition bit_powers (bits : list Z) : list Z :=
  map (fun bit => toCap (shl_uint 1 bit)) bits.

Definition or_all (qPowers : list Z) : Z :=
  fold_left Z.lor qPowers 0.

(** [bitCapInt QEngine::ForceM(const bitLenInt* bits, const bitLenInt&
    length, const bool* values)]: [bits] is the array of [length] qubits,
    [values] is [None] for a null pointer. *)
Definition ForceM_bits (bits : list Z) (values : option (list bool))
  : Eng Z :=
  let length := Z.of_nat (List.length bits) in
  if length =? 1 then
    match values with
    | None =>
        b <- trigger (ME (zth bits 0 0)) ;;
        Ret (if (b : bool) then toCap (shl_uint 1 (zth bits 0 0)) else 0)
    | Some values =>
        b <- ForceM (zth bits 0 0) (zth values 0 false) doForceDefault ;;
        Ret (if (b : bool) then toCap (shl_uint 1 (zth bits 0 0)) else 0)
    end
  else
    normalize_if_needed ;;
    phase <- trigger GetNonunitaryPhaseE ;;
    let qPowers := bit_powers bits in
    let regMask := or_all qPowers in
    let qPowers := sort qPowers in
    let lengthPower := toCap (shl_int 1 length) in
    let nrmlzr := ONE_R1 in
    match values with
    | Some values =>
        let result := forced_result (List.length bits) 0 bits values 0 in
        nrmlzr <- trigger (ProbMaskE regMask result) ;;
        let nrm := cdiv_real phase (rsqrt nrmlzr) in
        trigger (ApplyME regMask result nrm) ;;
        Ret result
    | None =>
        prob <- trigger RandE ;;
        let probArray := repeat ZERO_R1 (Z.to_nat lengthPower) in
        probArray <- ProbMaskAll regMask probArray ;;
        let '(result, nrmlzr) := sample prob probArray lengthPower nrmlzr in
        let result := reassemble (List.length bits) 0 qPowers result 0 in
        let nrm := cdiv_real phase (rsqrt nrmlzr) in
        trigger (ApplyME regMask result nrm) ;;
        Ret result
    end.

(** [bitCapInt QEngine::ForceMReg(start, length, result, doForce)] *)
Definition ForceMReg (start length result : Z) (doForce : bool) : Eng Z :=
  if length =? 1 then
    b <- ForceM start (negb (Z.land result 1 =? 0)) doForce ;;
    Ret (if (b : bool) then 1 else 0)
  else
    normalize_if_needed ;;
    prob <- trigger RandE ;;
    phase <- trigger GetNonunitaryPhaseE ;;
    let lengthPower := toCap (shl_int 1 length) in
    let regMask := shl_cap (toCap (lengthPower - 1)) start in
    let probArray := repeat ZERO_R1 (Z.to_nat lengthPower) in
    let nrmlzr := ONE_R1 in
    probArray <- ProbRegAll start length probArray ;;
    let '(result, nrmlzr) :=
      if negb doForce then sample prob probArray lengthPower nrmlzr
      else (result, nrmlzr) in
    let resultPtr := shl_cap result start in
    let nrm := cdiv_real phase (rsqrt nrmlzr) in
    trigger (ApplyME regMask resultPtr nrm) ;;
    Ret result.

(** *** The gate layer *)

Definition pauliX : list complex :=
  [ mkComplex ZERO_R1 ZERO_R1; mkComplex ONE_R1 ZERO_R1;
    mkComplex ONE_R1 ZERO_R1; mkComplex ZERO_R1 ZERO_R1 ].

(** [ONE_R1 / 2] and [-ONE_R1 / 2] *)
Definition half : real1 := rdiv ONE_R1 (real_of_int 2).
Definition neg_half : real1 := rdiv (rneg ONE_R1) (real_of_int 2).

Definition sqrtX : list complex :=
  [ mkComplex half half; mkComplex half neg_half;
    mkComplex half neg_half; mkComplex half half ].

Definition iSqrtX : list complex :=
  [ mkComplex half neg_half; mkComplex half half;
    mkComplex half half; mkComplex half neg_half ].

(** [void QEngine::ApplySingleBit(mtrx, doCalcNorm, qubit)] *)
Definition ApplySingleBit (mtrx : list complex) (doCalcNorm : bool)
  (qubit : Z) : Eng unit :=
  let qPowers := [toCap (shl_int 1 qubit)] in
  trigger (Apply2x2E 0 (zth qPowers 0 0) mtrx 1 qPowers doCalcNorm).

(** [void QEngine::ApplyControlled2x2(controls, controlLen, target, mtrx,
    doCalcNorm)]: [controls] is the array of [controlLen] qubits. *)
Definition ApplyControlled2x2 (controls : list Z) (target : Z)
  (mtrx : list complex) (doCalcNorm : bool) : Eng unit :=
  let controlLen := Z.of_nat (List.length controls) in
  let qPowers := map (fun c => toCap (shl_int 1 c)) controls in
  let fullMask := or_all qPowers in
  let controlMask := fullMask in
  let qPowers := qPowers ++ [toCap (shl_int 1 target)] in
  let fullMask := Z.lor fullMask (zth qPowers controlLen 0) in
  let qPowersSorted := sort qPowers in
  trigger (Apply2x2E controlMask fullMask mtrx (controlLen + 1)
             qPowersSorted doCalcNorm).

(** [void QEngine::ApplyAntiControlled2x2(...)] *)
Definition ApplyAntiControlled2x2 (controls : list Z) (target : Z)
  (mtrx : list complex) (doCalcNorm : bool) : Eng unit :=
  let controlLen := Z.of_nat (List.length controls) in
  let qPowers := map (fun c => toCap (shl_int 1 c)) controls in
  let qPowers := qPowers ++ [toCap (shl_int 1 target)] in
  let qPowersSorted := sort qPowers in
  trigger (Apply2x2E 0 (zth qPowers controlLen 0) mtrx (controlLen + 1)
             qPowersSorted doCalcNorm).

(** [if (doNormalize) { UpdateRunningNorm(); }] *)
Definition update_norm_if_needed : Eng unit :=
  doNormalize <- trigger doNormalizeE ;;
  if (doNormalize : bool) then trigger UpdateRunningNormE else Ret tt.

(** [void QEngine::ApplyControlledSingleBit(controls, controlLen, target,
    mtrx)] *)
Definition ApplyControlledSingleBit (controls : list Z) (target : Z)
  (mtrx : list complex) : Eng unit :=
  let controlLen := Z.of_nat (List.length controls) in
  if controlLen =? 0 then ApplySingleBit mtrx true target
  else
    ApplyControlled2x2 controls target mtrx false ;;
    update_norm_if_needed.

(** [void QEngine::ApplyAntiControlledSingleBit(...)] *)
Definition ApplyAntiControlledSingleBit (controls : list Z) (target : Z)
  (mtrx : list complex) : Eng unit :=
  let controlLen := Z.of_nat (List.length controls) in
  if controlLen =? 0 then ApplySingleBit mtrx true target
  else
    ApplyAntiControlled2x2 controls target mtrx false ;;
    update_norm_if_needed.

(** The body shared by CSwap, CSqrtSwap and CISqrtSwap after the test of
    [qubit1 == qubit2]; they differ in the matrix only. *)
Definition controlled_pair (mtrx : list complex) (controls : list Z)
  (qubit1 qubit2 : Z) : Eng unit :=
  let controlLen := Z.of_nat (List.length controls) in
  let qPowersSorted := map (fun c => toCap (shl_uint 1 c)) controls in
  let skipMask := or_all qPowersSorted in
  let qPowersSorted :=
    qPowersSorted ++ [toCap (shl_uint 1 qubit1); toCap (shl_uint 1 qubit2)] in
  let qPowersSorted := sort qPowersSorted in
  trigger (Apply2x2E (Z.lor skipMask (toCap (shl_uint 1 qubit1)))
             (Z.lor skipMask (toCap (shl_uint 1 qubit2))) mtrx
             (2 + controlLen) qPowersSorted false).

(** The body shared by AntiCSwap, AntiCSqrtSwap and AntiCISqrtSwap. *)
Definition anticontrolled_pair (mtrx : list complex) (controls : list Z)
  (qubit1 qubit2 : Z) : Eng unit :=
  let controlLen := Z.of_nat (List.length controls) in
  let qPowersSorted := map (fun c => toCap (shl_uint 1 c)) controls in
  let qPowersSorted :=
    qPowersSorted ++ [toCap (shl_uint 1 qubit1); toCap (shl_uint 1 qubit2)] in
  let qPowersSorted := sort qPowersSorted in
  trigger (Apply2x2E (toCap (shl_uint 1 qubit1)) (toCap (shl_uint 1 qubit2))
             mtrx (2 + controlLen) qPowersSorted false).

Definition CSwap (controls : list Z) (qubit1 qubit2 : Z) : Eng unit :=
  if qubit1 =? qubit2 then Ret tt
  else controlled_pair pauliX controls qubit1 qubit2.

Definition AntiCSwap (controls : list Z) (qubit1 qubit2 : Z) : Eng unit :=
  if qubit1 =? qubit2 then Ret tt
  else anticontrolled_pair pauliX controls qubit1 qubit2.

Definition CSqrtSwap (controls : list Z) (qubit1 qubit2 : Z) : Eng unit :=
  if qubit1 =? qubit2 then Ret tt
  else controlled_pair sqrtX controls qubit1 qubit2.

Definition AntiCSqrtSwap (controls : list Z) (qubit1 qubit2 : Z)
  : Eng unit :=
  if qubit1 =? qubit2 then Ret tt
  else anticontrolled_pair sqrtX controls qubit1 qubit2.

Definition CISqrtSwap (controls : list Z) (qubit1 qubit2 : Z) : Eng unit :=
  if qubit1 =? qubit2 then Ret tt
  else controlled_pair iSqrtX controls qubit1 qubit2.

Definition AntiCISqrtSwap (controls : list Z) (qubit1 qubit2 : Z)
  : Eng unit :=
  if qubit1 =? qubit2 then Ret tt
  else anticontrolled_pair iSqrtX controls qubit1 qubit2.

(** The body shared by Swap, SqrtSwap and ISqrtSwap after the test of
    [qubit1 == qubit2]. *)
Definition pair_gate (mtrx : list complex) (qubit1 qubit2 : Z) : Eng unit :=
  let qPowers := [toCap (shl_int 1 qubit1); toCap (shl_int 1 qubit2)] in
  let qPowersSorted := sort qPowers in
  trigger (Apply2x2E (zth qPowersSorted 0 0) (zth qPowersSorted 1 0) mtrx 2
             qPowersSorted false).

Definition Swap (qubit1 qubit2 : Z) : Eng unit :=
  if qubit1 =? qubit2 then Ret tt else pair_gate pauliX qubit1 qubit2.

Definition SqrtSwap (qubit1 qubit2 : Z) : Eng unit :=
  if qubit1 =? qubit2 then Ret tt else pair_gate sqrtX qubit1 qubit2.

Definition ISqrtSwap (qubit1 qubit2 : Z) : Eng unit :=
  if qubit1 =? qubit2 then Ret tt else pair_gate iSqrtX qubit1 qubit2.

End QEngine.

(* ================================================================= *)
(** ** Reference definitions for the mask enumeration *)

(** Number of binary digits and number of set bits of a positive. *)
Fixpoint pos_bits (m : positive) : Z :=
  match m with
  | xH => 1
  | xO m' | xI m' => 1 + pos_bits m'
  end.

Fixpoint pos_ones (m : positive) : Z :=
  match m with
  | xH => 1
  | xO m' => pos_ones m'
  | xI m' => 1 + pos_ones m'
  end.

Definition popcount (mask : Z) : Z :=
  match mask with
  | Zpos m => pos_ones m
  | _ => 0
  end.

(** The powers of the clear bits of [m] below its leading bit, ascending;
    [pw] is the power of the lowest bit of [m]. *)
Fixpoint pos_skips (m : positive) (pw : Z) : list Z :=
  match m with
  | xH => []
  | xO m' => pw :: pos_skips m' (2 * pw)
  | xI m' => pos_skips m' (2 * pw)
  end.

Definition skips (mask : Z) : list Z :=
  match mask with
  | Zpos m => pos_skips m 1
  | _ => []
  end.

(** Bit deposit: the bits of [x], lowest first, are placed on the set
    bits of [m], lowest first.  What is left of [x] after the leading bit
    of [m] stays above it (nothing is left when [x < 2 ^ pos_ones m]). *)
Fixpoint pos_deposit (m : positive) (x : Z) : Z :=
  match m with
  | xH => x
  | xO m' => 2 * pos_deposit m' x
  | xI m' => x mod 2 + 2 * pos_deposit m' (x / 2)
  end.

Definition deposit (mask x : Z) : Z :=
  match mask with
  | Zpos m => pos_deposit m x
  | _ => x
  end.

(** Bit extract, the inverse of [pos_deposit] on the submasks of [m]. *)
Fixpoint pos_extract (m : positive) (p : Z) : Z :=
  match m with
  | xH => p
  | xO m' => pos_extract m' (p / 2)
  | xI m' => p mod 2 + 2 * pos_extract m' (p / 2)
  end.

Definition extract (mask p : Z) : Z :=
  match mask with
  | Zpos m => pos_extract m p
  | _ => p
  end.

(** The positions and powers of set bits; conversions of an index. *)

(** The positions of the set bits of [m], ascending, [b] being the
    position of its lowest bit. *)
Fixpoint pos_positions (m : positive) (b : Z) : list Z :=
  match m with
  | xH => [b]
  | xO m' => pos_positions m' (b + 1)
  | xI m' => b :: pos_positions m' (b + 1)
  end.

(** Bit [p] of [x] selects the power of position number [p]. *)
Fixpoint scatter (ks : list Z) (x : Z) : Z :=
  match ks with
  | [] => 0
  | k :: rest => (if Z.odd x then 2 ^ k else 0) + scatter rest (x / 2)
  end.

(** The sum of the entries [qPowers[p]] over the set bits [p] of [index]. *)
Definition sum_selected (qPowers : list Z) (index : Z) : Z :=
  fold_right Z.add 0
    (map (fun p => if Z.testbit index (Z.of_nat p) then nth p qPowers 0 else 0)
       (seq 0 (List.length qPowers))).

(** The value obtained by OR-ing [1 << bits[j]] for every [j] with
    [values[j]] true. *)
Definition or_selected (bits : list Z) (values : list bool) : Z :=
  fold_left
    (fun acc j => Z.lor acc (if nth j values false then 2 ^ nth j bits 0 else 0))
    (seq 0 (List.length bits)) 0.

(** [a[lcv] = x0; a[lcv + 1] = x1; ...] *)
Fixpoint zstore_seq {A : Type} (a : list A) (lcv : Z) (xs : list A) : list A :=
  match xs with
  | [] => a
  | x :: rest => zstore_seq (zstore a lcv x) (lcv + 1) rest
  end.

(* ================================================================= *)
(** ** Vocabulary for the statements about runs *)

Section RunVocabulary.
Context {cfg : Config} {R : Real1}.
Local Open Scope eng_scope.

(** The calls of [if (doNormalize) NormalizeState();]. *)
Definition normalize_calls (doNormalize : bool) : list Call :=
  if doNormalize then [Call_NormalizeState] else [].

(** The loop body of ProbMaskAll and ProbRegAll: one call, one store. *)
Definition fill_body (ev : Z -> EngE real1) (lcv : Z) (a : list real1)
  : Eng (list real1) :=
  prob <- trigger (ev lcv) ;; Ret (zstore a lcv prob).

Fixpoint calls_seq (ev : Z -> EngE real1) (lcv : Z) (xs : list real1)
  : list Call :=
  match xs with
  | [] => []
  | x :: rest => calls_of (ev lcv) x ++ calls_seq ev (lcv + 1) rest
  end.

Definition is_ProbReg_call (start length : Z) (c : Call) : Prop :=
  exists lcv x, c = Call_ProbReg start length lcv x.

(** The cumulative probability before entry [j]. *)
Definition cumul (probArray : list real1) (j : nat) : real1 :=
  fold_left radd (firstn j probArray) ZERO_R1.

Fixpoint walk_steps (ps : list real1) (w : Walk) : Walk :=
  match ps with
  | [] => w
  | p :: rest => walk_steps rest (walk_step p w)
  end.

(** What the walk remembers after the entries [pre]: the index of the
    largest of them, the last one among equals. *)
Definition remembers (all pre : list real1) (w : Walk) (r : nat) : Prop :=
  (r < List.length pre)%nat
  /\ w_result w = Z.of_nat r
  /\ w_nrmlzr w = nth r all ZERO_R1
  /\ w_largestProb w = nth r all ZERO_R1
  /\ (forall j, (j < List.length pre)%nat ->
        rle (nth j all ZERO_R1) (nth r all ZERO_R1) = true)
  /\ (forall j, (r < j < List.length pre)%nat ->
        rle (nth r all ZERO_R1) (nth j all ZERO_R1) = false).

(** Exchange the amplitudes at [i0 l] and [i1 l]. *)
Definition exchange (i0 i1 : Z -> Z) (l : Z) (a : Z -> complex)
  : Z -> complex :=
  fun j => if j =? i1 l then a (i0 l)
           else if j =? i0 l then a (i1 l) else a j.

Fixpoint exchange_pass (i0 i1 : Z -> Z) (n : nat) (lcv : Z)
  (a : Z -> complex) : Z -> complex :=
  match n with
  | O => a
  | S n' => exchange_pass i0 i1 n' (lcv + 1) (exchange i0 i1 lcv a)
  end.

End RunVocabulary.

(* ================================================================= *)
(** ** Vocabulary for the invariant of the sampling walk *)

Section WalkVocabulary.
Context {cfg : Config} {R : Real1}.

(** What holds of the variables of the walk between two iterations:
    either [result] is an entry already visited and [nrmlzr] is its
    probability, or no entry visited so far passed the test
    [largestProb <= probArray[lcv]] and [result], [nrmlzr] and
    [largestProb] still have their initial values. *)
Definition walk_inv (probArray : list real1) (lengthPower : Z)
  (nrmlzr0 : real1) (w : Walk) : Prop :=
  w_lcv w <= lengthPower
  /\ ((0 <= w_result w < w_lcv w
       /\ w_nrmlzr w = zth probArray (w_result w) ZERO_R1)
      \/ (w_result w = lengthPower - 1
          /\ w_nrmlzr w = nrmlzr0
          /\ w_largestProb w = ZERO_R1
          /\ forall j, 0 <= j < w_lcv w ->
               rle ZERO_R1 (zth probArray j ZERO_R1) = false)).

(** The qubits [start, start + 1, ..., start + length - 1] of a
    register. *)
Definition register_qubits (start length : Z) : list Z :=
  map (fun i => start + Z.of_nat i) (seq 0 (Z.to_nat length)).

End WalkVocabulary.

(* ================================================================= *)
(** ** Apply2x2 and the amplitudes *)

Section Amplitudes.
Context {cfg : Config} {R : Real1}.

Definition cadd (x y : complex) : complex :=
  mkComplex (radd (re x) (re y)) (radd (im x) (im y)).

Definition cmul (x y : complex) : complex :=
  mkComplex (rsub (rmul (re x) (re y)) (rmul (im x) (im y)))
            (radd (rmul (re x) (im y)) (rmul (im x) (re y))).

(** Modelled from the spec: the amplitude container of section 4.1,
    whose implementations are not part of the sources.  [read] is the
    application of the function; a write that the container may skip
    writes a value that is already there. *)
Definition Amplitudes : Type := Z -> complex.

Definition write (a : Amplitudes) (i : Z) (c : complex) : Amplitudes :=
  fun j => if j =? i then c else a j.

Definition write2 (a : Amplitudes) (i1 : Z) (c1 : complex) (i2 : Z)
  (c2 : complex) : Amplitudes :=
  write (write a i1 c1) i2 c2.

(** Modelled from the spec: the de-interleaving of section 4.2.  For
    each power of the sorted list the running index is split into a low
    and a high part at that bit and the high part is shifted left by one
    to open a gap. *)
Fixpoint open_gaps (qPowersSorted : list Z) (i : Z) : Z :=
  match qPowersSorted with
  | [] => i
  | power :: rest =>
      let low := Z.land i (power - 1) in
      let high := Z.shiftl (Z.lxor i low) 1 in
      open_gaps rest (Z.lor low high)
  end.

(** Modelled from the spec: [out0 = m00*a0 + m01*a1; out1 = m10*a0 +
    m11*a1], the matrix given in row-major order (sections 4.3 and 6). *)
Definition mtrx_apply (mtrx : list complex) (a0 a1 : complex)
  : complex * complex :=
  let m := fun k => nth k mtrx (mkComplex ZERO_R1 ZERO_R1) in
  (cadd (cmul (m 0%nat) a0) (cmul (m 1%nat) a1),
   cadd (cmul (m 2%nat) a0) (cmul (m 3%nat) a1)).

(** Modelled from the spec: step 2 of section 4.3 for one reduced index,
    whose full index without the excluded bits is [base]; the two
    offsets are ORed in. *)
Definition apply2x2_at (mtrx : list complex) (offset1 offset2 base : Z)
  (a : Amplitudes) : Amplitudes :=
  let i0 := Z.lor base offset1 in
  let i1 := Z.lor base offset2 in
  let out := mtrx_apply mtrx (a i0) (a i1) in
  write2 a i0 (fst out) i1 (snd out).

Fixpoint apply2x2_pass (n : nat) (lcv : Z) (step : Z -> Amplitudes -> Amplitudes)
  (a : Amplitudes) : Amplitudes :=
  match n with
  | O => a
  | S n' => apply2x2_pass n' (lcv + 1) step (step lcv a)
  end.

(** Modelled from the spec: Apply2x2 of section 4.3, which the sources
    call but do not define.  The reduced index space has
    [2^qubitCount >> bitCount] values.  The running norm of step 4 is not
    part of this state: tracking it changes no amplitude. *)
Definition Apply2x2_model (qubitCount offset1 offset2 : Z)
  (mtrx : list complex) (bitCount : Z) (qPowersSorted : list Z)
  (doCalcNorm : bool) (a : Amplitudes) : Amplitudes :=
  apply2x2_pass (Z.to_nat (Z.shiftr (2 ^ qubitCount) bitCount)) 0
    (fun lcv a =>
       apply2x2_at mtrx offset1 offset2 (open_gaps qPowersSorted lcv) a)
    a.

(** A world on amplitudes in which Apply2x2 is the model above and every
    other event is answered by [other]. *)
Definition gate_answer (qubitCount : Z)
  (other : forall X : Type, EngE X -> Amplitudes -> X * Amplitudes)
  (X : Type) (e : EngE X) : Amplitudes -> X * Amplitudes :=
  match e in EngE X return Amplitudes -> X * Amplitudes with
  | Apply2x2E o1 o2 mtrx bc qs dc =>
      fun a => (tt, Apply2x2_model qubitCount o1 o2 mtrx bc qs dc a)
  | e' => other _ e'
  end.

Definition gate_world (qubitCount : Z)
  (other : forall X : Type, EngE X -> Amplitudes -> X * Amplitudes) : World :=
  {| St := Amplitudes; answer := gate_answer qubitCount other |}.

(** One step of [open_gaps]. *)
Definition gap (power i : Z) : Z :=
  Z.lor (Z.land i (power - 1)) (Z.shiftl (Z.lxor i (Z.land i (power - 1))) 1).

(** The full index without the two excluded bits [lo < hi]. *)
Definition base2 (lo hi l : Z) : Z := open_gaps [2 ^ lo; 2 ^ hi] l.

End Amplitudes.

(* ================================================================= *)
(** ** Products of gate matrices *)

Section Matrices.
Context {R : Real1}.

(** The product of two 2x2 matrices stored by rows, as the constant
    matrices [pauliX], [sqrtX] and [iSqrtX] of qengine.cpp are. *)
Definition mtrx_mul (a b : list complex) : list complex :=
  match a, b with
  | [a0; a1; a2; a3], [b0; b1; b2; b3] =>
      [ cadd (cmul a0 b0) (cmul a1 b2); cadd (cmul a0 b1) (cmul a1 b3);
        cadd (cmul a2 b0) (cmul a3 b2); cadd (cmul a2 b1) (cmul a3 b3) ]
  | _, _ => []
  end.

Definition mtrx_identity : list complex :=
  [ mkComplex ONE_R1 ZERO_R1; mkComplex ZERO_R1 ZERO_R1;
    mkComplex ZERO_R1 ZERO_R1; mkComplex ONE_R1 ZERO_R1 ].

End Matrices.

(* ================================================================= *)
(** ** A concrete configuration *)

(** The default build: [bitCapInt] is [uint64_t]. *)
Definition cfg64 : Config.
Proof. refine {| capBits := 64; doForceDefault := true |}. lia. Defined.

(** Exact rationals as [real1]; the square root is exact on squares of
    rationals. *)
Definition Qc_lt (x y : Qc) : bool :=
  match (x ?= y)%Qc with Lt => true | _ => false end.

Definition Qc_le (x y : Qc) : bool :=
  match (x ?= y)%Qc with Gt => false | _ => true end.

Definition Qc_sqrt (x : Qc) : Qc :=
  Q2Qc (Z.sqrt (Qnum x) # Pos.sqrt (Qden x)).

Definition real1_Qc : Real1 := {|
  real1 := Qc;
  ZERO_R1 := 0%Qc;
  ONE_R1 := 1%Qc;
  radd := Qcplus;
  rsub := Qcminus;
  rmul := Qcmult;
  rdiv := Qcdiv;
  rneg := Qcopp;
  rsqrt := Qc_sqrt;
  rlt := Qc_lt;
  rle := Qc_le;
  real_of_int := fun z => Q2Qc (inject_Z z)
|}.


(** A world without state whose answers are fixed in advance. *)
Record Script {R : Real1} : Type := {
  s_doNormalize : bool;
  s_Prob : Z -> real1;
  s_Rand : real1;
  s_Phase : complex;
  s_M : Z -> bool;
  s_ProbMask : Z -> Z -> real1;
  s_ProbReg : Z -> Z -> Z -> real1
}.

Definition scripted_answer {R : Real1} (sc : Script) (X : Type) (e : EngE X)
  (s : unit) : X * unit :=
  match e in EngE X return X * unit with
  | doNormalizeE => (s_doNormalize sc, tt)
  | NormalizeStateE => (tt, tt)
  | UpdateRunningNormE => (tt, tt)
  | ProbE q => (s_Prob sc q, tt)
  | RandE => (s_Rand sc, tt)
  | GetNonunitaryPhaseE => (s_Phase sc, tt)
  | ME q => (s_M sc q, tt)
  | ProbMaskE m p => (s_ProbMask sc m p, tt)
  | ProbRegE st l p => (s_ProbReg sc st l p, tt)
  | ApplyMBitE _ _ _ => (tt, tt)
  | ApplyME _ _ _ => (tt, tt)
  | Apply2x2E _ _ _ _ _ _ => (tt, tt)
  end.

Definition scripted_world {R : Real1} (sc : Script) : World :=
  {| St := unit; answer := scripted_answer sc |}.

Definition qc (n : Z) (d : positive) : Qc := Q2Qc (n # d).

(** Normalization on, a one-probability of zero, a random draw of 1/2,
    the phase 1, and every joint probability zero. *)
Definition zero_script : @Script real1_Qc :=
  @Build_Script real1_Qc true (fun _ => 0%Qc) (qc 1 2)
    (@mkComplex real1_Qc 1%Qc 0%Qc) (fun _ => false) (fun _ _ => 0%Qc)
    (fun _ _ _ => 0%Qc).

Definition zero_world : @World real1_Qc := scripted_world zero_script.

(** The other events of a world on amplitudes: the scripted answers, the
    amplitudes untouched. *)
Definition zero_other (X : Type) (e : @EngE real1_Qc X)
  (a : @Amplitudes real1_Qc) : X * @Amplitudes real1_Qc :=
  (fst (scripted_answer zero_script X e tt), a).

Definition basis_state (k : Z) : @Amplitudes real1_Qc :=
  fun j => if j =? k then @mkComplex real1_Qc 1%Qc 0%Qc
           else @mkComplex real1_Qc 0%Qc 0%Qc.


(* ================================================================= *)
(** ** Bit-level facts *)

Section BitFacts.

Ltac negbit :=
  repeat match goal with
  | |- context [Z.testbit ?q ?l] => rewrite (Z.testbit_neg_r q l) by lia
  end;
  rewrite ?andb_false_r, ?andb_true_r, ?orb_false_r, ?xorb_false_r,
    ?xorb_nilpotent;
  try reflexivity.

Lemma pow2_pos k : 0 <= k -> 0 < 2 ^ k.
Proof. intros. apply Z.pow_pos_nonneg; lia. Qed.

Lemma pow2_succ k : 0 <= k -> 2 ^ (k + 1) = 2 * 2 ^ k.
Proof. intros. rewrite Z.pow_add_r by lia. change (2 ^ 1) with 2. lia. Qed.

Lemma land_pred_pow2 a k : 0 <= k -> Z.land a (2 ^ k - 1) = a mod 2 ^ k.
Proof.
  intros Hk. rewrite <- Z.land_ones by assumption.
  f_equal. rewrite Z.ones_equiv. lia.
Qed.

Lemma land_low_high a q k :
  0 <= k -> 0 <= a < 2 ^ k -> Z.land a (2 ^ k * q) = 0.
Proof.
  intros Hk Ha. rewrite <- (Z.mod_small a (2 ^ k)) by assumption.
  rewrite (Z.mul_comm (2 ^ k) q), <- Z.shiftl_mul_pow2, <- Z.land_ones
    by assumption.
  Z.bitblast; negbit.
Qed.

Lemma lor_low_high a q k :
  0 <= k -> 0 <= a < 2 ^ k -> Z.lor a (2 ^ k * q) = a + 2 ^ k * q.
Proof. intros. apply Z.or_to_plus. apply land_low_high; assumption. Qed.

Lemma lxor_mod_pow2 a k :
  0 <= k -> Z.lxor a (a mod 2 ^ k) = 2 ^ k * (a / 2 ^ k).
Proof.
  intros Hk.
  rewrite <- Z.land_ones, (Z.mul_comm (2 ^ k)), <- Z.shiftl_mul_pow2,
    <- Z.shiftr_div_pow2 by assumption.
  Z.bitblast; negbit.
Qed.

(** [v & (v - 1)] clears the lowest set bit of [v = 2^k * (2w + 1)]. *)
Lemma clear_lowest_bit w k :
  0 <= k -> 0 <= w ->
  Z.land (2 ^ k * (2 * w + 1)) (2 ^ k * (2 * w + 1) - 1) = 2 ^ (k + 1) * w.
Proof.
  intros Hk Hw.
  pose proof (pow2_pos k Hk) as Hp. pose proof (pow2_succ k Hk) as Hp2.
  replace (2 ^ k * (2 * w + 1)) with (2 ^ k + 2 ^ (k + 1) * w) by lia.
  replace (2 ^ k + 2 ^ (k + 1) * w - 1) with ((2 ^ k - 1) + 2 ^ (k + 1) * w)
    by lia.
  rewrite <- (lor_low_high (2 ^ k)), <- (lor_low_high (2 ^ k - 1)) by lia.
  replace (2 ^ k - 1) with (Z.ones k) by (rewrite Z.ones_equiv; lia).
  replace (2 ^ k) with (Z.shiftl 1 k) at 1
    by (rewrite Z.shiftl_mul_pow2 by lia; lia).
  rewrite (Z.mul_comm (2 ^ (k + 1))), <- Z.shiftl_mul_pow2 by lia.
  Z.bitblast; negbit.
Qed.

(** [(v' ^ v) & v] is that lowest set bit, [v'] being [v] without it. *)
Lemma lowest_bit w k :
  0 <= k -> 0 <= w ->
  Z.land (Z.lxor (2 ^ (k + 1) * w) (2 ^ k * (2 * w + 1)))
         (2 ^ k * (2 * w + 1)) = 2 ^ k.
Proof.
  intros Hk Hw.
  pose proof (pow2_pos k Hk) as Hp. pose proof (pow2_succ k Hk) as Hp2.
  replace (2 ^ k * (2 * w + 1)) with (2 ^ k + 2 ^ (k + 1) * w) by lia.
  rewrite <- (lor_low_high (2 ^ k)) by lia.
  replace (2 ^ k) with (Z.shiftl 1 k) at 1 3 4
    by (rewrite Z.shiftl_mul_pow2 by lia; lia).
  rewrite (Z.mul_comm (2 ^ (k + 1))), <- Z.shiftl_mul_pow2 by lia.
  Z.bitblast; negbit.
  destruct (Z.eqb_spec k i); [negbit | destruct (Z.testbit w l); reflexivity].
Qed.

Lemma pos_bits_pos m : 0 < pos_bits m.
Proof. induction m; cbn [pos_bits]; lia. Qed.

Lemma pos_ones_pos m : 0 < pos_ones m.
Proof. induction m; cbn [pos_ones]; lia. Qed.

Lemma pos_ones_le_bits m : pos_ones m <= pos_bits m.
Proof. induction m; cbn [pos_ones pos_bits]; lia. Qed.

Lemma pos_lt_pow2_bits m : Zpos m < 2 ^ pos_bits m.
Proof.
  induction m; cbn [pos_bits].
  - pose proof (pos_bits_pos m).
    rewrite (Z.add_comm 1), pow2_succ by lia.
    change (Z.pos m~1) with (2 * Z.pos m + 1). lia.
  - pose proof (pos_bits_pos m).
    rewrite (Z.add_comm 1), pow2_succ by lia.
    change (Z.pos m~0) with (2 * Z.pos m). lia.
  - reflexivity.
Qed.

Lemma pos_bits_le m k : 0 <= k -> Zpos m < 2 ^ k -> pos_bits m <= k.
Proof.
  revert k. induction m; intros k Hk Hlt; cbn [pos_bits].
  - assert (k <> 0) by (intros ->; change (2 ^ 0) with 1 in Hlt; lia).
    replace k with ((k - 1) + 1) in Hlt by lia.
    rewrite pow2_succ in Hlt by lia.
    change (Z.pos m~1) with (2 * Z.pos m + 1) in Hlt.
    specialize (IHm (k - 1)). lia.
  - assert (k <> 0) by (intros ->; change (2 ^ 0) with 1 in Hlt; lia).
    replace k with ((k - 1) + 1) in Hlt by lia.
    rewrite pow2_succ in Hlt by lia.
    change (Z.pos m~0) with (2 * Z.pos m) in Hlt.
    specialize (IHm (k - 1)). lia.
  - assert (k <> 0) by (intros ->; change (2 ^ 0) with 1 in Hlt; lia).
    lia.
Qed.

Lemma land_double_bit a b x y :
  Z.land (2 * a + Z.b2z x) (2 * b + Z.b2z y)
  = 2 * Z.land a b + Z.b2z (x && y).
Proof.
  apply Z.bits_inj'. intros n Hn.
  rewrite Z.land_spec.
  destruct (Z.eq_dec n 0) as [->|Hne].
  - rewrite !Z.testbit_0_r. reflexivity.
  - replace n with (Z.succ (n - 1)) by lia.
    rewrite !Z.testbit_succ_r by lia. symmetry. apply Z.land_spec.
Qed.

Lemma bit_split p : p = 2 * (p / 2) + Z.b2z (Z.odd p).
Proof. rewrite <- Z.div2_div. apply Z.div2_odd. Qed.

Lemma b2z_odd_mod p : Z.b2z (Z.odd p) = p mod 2.
Proof. rewrite <- Z.bit0_odd. apply Z.bit0_mod. Qed.

(** [pos_extract] undoes [pos_deposit]. *)
Lemma pos_extract_deposit m : forall x, pos_extract m (pos_deposit m x) = x.
Proof.
  induction m as [m IH | m IH |]; intros x; cbn [pos_extract pos_deposit].
  - replace ((x mod 2 + 2 * pos_deposit m (x / 2)) / 2)
      with (pos_deposit m (x / 2)).
    2:{ pose proof (Z.mod_pos_bound x 2 ltac:(lia)).
        rewrite (Z.mul_comm 2), Z.div_add, (Z.div_small (x mod 2)) by lia.
        lia. }
    rewrite IH.
    rewrite (Z.mul_comm 2 (pos_deposit m (x / 2))), Z.mod_add, Z.mod_mod
      by lia.
    pose proof (Z.div_mod x 2). lia.
  - rewrite (Z.mul_comm 2), Z.div_mul by lia. apply IH.
  - reflexivity.
Qed.

(** A deposit only has bits of the mask. *)
Lemma pos_deposit_submask m : forall x,
  0 <= x < 2 ^ pos_ones m ->
  Z.land (pos_deposit m x) (Zpos m) = pos_deposit m x.
Proof.
  induction m as [m IH | m IH |]; intros x Hx;
    cbn [pos_ones pos_deposit] in *.
  - pose proof (pos_ones_pos m).
    rewrite (Z.add_comm 1), pow2_succ in Hx by lia.
    change (Z.pos m~1) with (2 * Z.pos m + Z.b2z true).
    rewrite <- b2z_odd_mod, (Z.add_comm (Z.b2z _)), land_double_bit.
    rewrite IH, andb_true_r; [reflexivity|].
    split; [apply Z.div_pos; lia | apply Z.div_lt_upper_bound; lia].
  - change (Z.pos m~0) with (2 * Z.pos m + Z.b2z false).
    replace (2 * pos_deposit m x) with (2 * pos_deposit m x + Z.b2z false)
      by (simpl; lia).
    rewrite land_double_bit, IH by assumption. reflexivity.
  - change (2 ^ 1) with 2 in Hx.
    assert (x = 0 \/ x = 1) as [-> | ->] by lia; reflexivity.
Qed.

(** Every submask of the mask is the deposit of its extract. *)
Lemma pos_deposit_extract m : forall p,
  0 <= p -> Z.land p (Zpos m) = p ->
  pos_deposit m (pos_extract m p) = p
  /\ 0 <= pos_extract m p < 2 ^ pos_ones m.
Proof.
  induction m as [m IH | m IH |]; intros p Hp Hsub;
    cbn [pos_ones pos_deposit pos_extract] in *.
  - pose proof (pos_ones_pos m).
    change (Z.pos m~1) with (2 * Z.pos m + Z.b2z true) in Hsub.
    rewrite (bit_split p) in Hsub at 1. rewrite land_double_bit in Hsub.
    rewrite andb_true_r in Hsub.
    assert (Hsub' : Z.land (p / 2) (Z.pos m) = p / 2).
    { pose proof (bit_split p). destruct (Z.odd p); cbn [Z.b2z] in *; lia. }
    destruct (IH (p / 2) ltac:(apply Z.div_pos; lia) Hsub') as [Hd Hr].
    pose proof (Z.mod_pos_bound p 2 ltac:(lia)).
    replace ((p mod 2 + 2 * pos_extract m (p / 2)) / 2)
      with (pos_extract m (p / 2))
      by (rewrite (Z.mul_comm 2), Z.div_add, (Z.div_small (p mod 2)) by lia;
          lia).
    rewrite (Z.mul_comm 2 (pos_extract m (p / 2))), Z.mod_add, Z.mod_mod
      by lia.
    rewrite Hd, (Z.add_comm 1), pow2_succ by lia.
    pose proof (Z.div_mod p 2). lia.
  - change (Z.pos m~0) with (2 * Z.pos m + Z.b2z false) in Hsub.
    rewrite (bit_split p) in Hsub at 1. rewrite land_double_bit in Hsub.
    rewrite andb_false_r in Hsub. pose proof (bit_split p) as Hs.
    cbn [Z.b2z] in Hsub.
    assert (Hsub' : Z.land (p / 2) (Z.pos m) = p / 2)
      by (destruct (Z.odd p); cbn [Z.b2z] in Hs; lia).
    destruct (IH (p / 2) ltac:(apply Z.div_pos; lia) Hsub') as [Hd Hr].
    rewrite Hd. lia.
  - change (2 ^ 1) with 2.
    assert (p = 0 \/ p = 1) as [-> | ->]; [|lia|lia].
    change (Z.pos 1) with (2 * 0 + Z.b2z true) in Hsub.
    rewrite (bit_split p) in Hsub at 1. rewrite land_double_bit in Hsub.
    rewrite Z.land_0_r, andb_true_r in Hsub.
    pose proof (bit_split p). destruct (Z.odd p); cbn [Z.b2z] in *; lia.
Qed.

End BitFacts.

(* ================================================================= *)
(** ** The loops of ProbMaskAll compute the reference definitions *)

Section MaskEnumerationFacts.
Context {cfg : Config}.

Lemma toCap_small z : 0 <= z < 2 ^ capBits -> toCap z = z.
Proof. intros. unfold toCap. apply Z.mod_small. assumption. Qed.

Lemma count_bits_zero fuel len : count_bits fuel 0 len = len.
Proof. destruct fuel; reflexivity. Qed.

Lemma skip_loop_zero fuel mask acc : skip_loop fuel mask 0 acc = acc.
Proof. destruct fuel; reflexivity. Qed.

Lemma shifted_pos_bound m b :
  0 <= b -> b + pos_bits m <= capBits ->
  0 < 2 ^ b * Zpos m < 2 ^ capBits.
Proof.
  intros Hb Hle.
  pose proof (pow2_pos b Hb). pose proof (pos_lt_pow2_bits m).
  pose proof (pos_bits_pos m).
  split; [lia|].
  apply Z.lt_le_trans with (2 ^ b * 2 ^ pos_bits m); [nia|].
  rewrite <- Z.pow_add_r by lia.
  apply Z.pow_le_mono_r; lia.
Qed.

Lemma count_bits_pos m : forall b fuel len,
  0 <= b -> b + pos_bits m <= capBits ->
  pos_ones m <= Z.of_nat fuel ->
  count_bits fuel (2 ^ b * Zpos m) len = len + pos_ones m.
Proof.
  induction m as [m IH | m IH |]; intros b fuel len Hb Hle Hfuel;
    cbn [pos_bits pos_ones] in *.
  - pose proof (pos_ones_pos m).
    destruct fuel as [|fuel]; [lia|].
    pose proof (shifted_pos_bound (m~1) b Hb) as Hv.
    cbn [pos_bits] in Hv. specialize (Hv Hle).
    cbn [count_bits].
    destruct (Z.eqb_spec (2 ^ b * Z.pos m~1) 0) as [E|_]; [lia|].
    rewrite toCap_small by lia.
    change (Z.pos m~1) with (2 * Z.pos m + 1).
    rewrite clear_lowest_bit by lia.
    rewrite IH by lia. lia.
  - change (Z.pos m~0) with (2 * Z.pos m).
    replace (2 ^ b * (2 * Z.pos m)) with (2 ^ (b + 1) * Z.pos m)
      by (rewrite pow2_succ by lia; lia).
    apply IH; lia.
  - destruct fuel as [|fuel]; [lia|].
    pose proof (shifted_pos_bound 1 b Hb) as Hv.
    cbn [pos_bits] in Hv. specialize (Hv Hle).
    cbn [count_bits].
    destruct (Z.eqb_spec (2 ^ b * 1) 0) as [E|_]; [lia|].
    rewrite toCap_small by lia.
    change 1 with (2 * 0 + 1) at 1 2.
    rewrite clear_lowest_bit by lia.
    rewrite Z.mul_0_r, count_bits_zero. reflexivity.
Qed.

Lemma mask_range_bits m : Zpos m < 2 ^ capBits -> pos_bits m <= capBits.
Proof.
  intros H. apply pos_bits_le; [|assumption].
  destruct (Z.le_gt_cases 0 capBits) as [|Hneg]; [assumption|].
  rewrite Z.pow_neg_r in H by lia. lia.
Qed.

(** The first loop counts the set bits of the mask; it has ended within
    [bitFuel] iterations. *)
Lemma count_bits_popcount mask fuel :
  0 <= mask < 2 ^ capBits -> (bitFuel <= fuel)%nat ->
  count_bits fuel mask 0 = popcount mask.
Proof.
  intros [Hlo Hhi] Hfuel. unfold popcount.
  destruct mask as [|m|m]; [apply count_bits_zero| |lia].
  pose proof (mask_range_bits m Hhi). pose proof (pos_ones_le_bits m).
  replace (Z.pos m) with (2 ^ 0 * Z.pos m) at 1 by (simpl; lia).
  rewrite count_bits_pos; unfold bitFuel in Hfuel; lia.
Qed.

Lemma mask_length_popcount mask :
  0 <= mask < 2 ^ capBits -> mask_length mask = popcount mask.
Proof. intros Hm. apply count_bits_popcount; [assumption|lia]. Qed.

Lemma skip_loop_pos m : forall b fuel low acc,
  0 <= b -> b + pos_bits m <= capBits ->
  0 <= low < 2 ^ b ->
  pos_bits m - pos_ones m + 1 <= Z.of_nat fuel ->
  skip_loop fuel (low + 2 ^ b * Zpos m)
            (2 ^ b * (2 ^ (capBits - b) - 1 - Zpos m)) acc
  = acc ++ pos_skips m (2 ^ b).
Proof.
  induction m as [m IH | m IH |]; intros b fuel low acc Hb Hle Hlow Hfuel;
    cbn [pos_bits pos_ones pos_skips] in *;
    pose proof (pow2_pos b Hb) as Hp; pose proof (pow2_succ b Hb) as Hp2.
  - (* bit b of the mask is set: ~mask has no bit here *)
    change (Z.pos m~1) with (2 * Z.pos m + 1).
    replace (2 ^ b * (2 ^ (capBits - b) - 1 - (2 * Z.pos m + 1)))
      with (2 ^ (b + 1) * (2 ^ (capBits - (b + 1)) - 1 - Z.pos m)).
    2:{ replace (capBits - b) with (capBits - (b + 1) + 1) by lia.
        pose proof (pos_bits_pos m).
        rewrite (pow2_succ (capBits - (b + 1))) by lia. lia. }
    replace (low + 2 ^ b * (2 * Z.pos m + 1))
      with ((low + 2 ^ b) + 2 ^ (b + 1) * Z.pos m) by lia.
    rewrite <- Hp2. apply IH; lia.
  - (* bit b of the mask is clear: it is the lowest bit of v *)
    pose proof (pos_bits_pos m) as Hbits. pose proof (pos_ones_le_bits m).
    destruct fuel as [|fuel]; [lia|].
    change (Z.pos m~0) with (2 * Z.pos m).
    set (w := 2 ^ (capBits - (b + 1)) - 1 - Z.pos m).
    assert (Hw : 0 <= w).
    { pose proof (pos_lt_pow2_bits m).
      assert (2 ^ pos_bits m <= 2 ^ (capBits - (b + 1)))
        by (apply Z.pow_le_mono_r; lia).
      unfold w. lia. }
    assert (Hv : 2 ^ b * (2 ^ (capBits - b) - 1 - 2 * Z.pos m)
                 = 2 ^ b * (2 * w + 1)).
    { unfold w. replace (capBits - b) with (capBits - (b + 1) + 1) by lia.
      rewrite (pow2_succ (capBits - (b + 1))) by lia. lia. }
    rewrite Hv.
    assert (Hvhi : 2 ^ b * (2 * w + 1) < 2 ^ capBits).
    { rewrite <- Hv. replace capBits with (b + (capBits - b)) at 2 by lia.
      rewrite Z.pow_add_r by lia.
      pose proof (pow2_pos (capBits - b)). nia. }
    cbn [skip_loop].
    destruct (Z.eqb_spec (2 ^ b * (2 * w + 1)) 0) as [E|_]; [nia|].
    rewrite toCap_small by nia.
    rewrite clear_lowest_bit, lowest_bit by lia.
    destruct (Z.ltb_spec (2 ^ b) (low + 2 ^ b * (2 * Z.pos m))) as [_|E];
      [|nia].
    replace (low + 2 ^ b * (2 * Z.pos m)) with (low + 2 ^ (b + 1) * Z.pos m)
      by lia.
    unfold w. rewrite IH by lia.
    rewrite <- app_assoc, Hp2. reflexivity.
  - (* leading bit of the mask: every further power is not below it *)
    rewrite app_nil_r.
    destruct fuel as [|fuel]; [reflexivity|].
    cbn [skip_loop].
    destruct (Z.eqb_spec (2 ^ b * (2 ^ (capBits - b) - 1 - 1)) 0) as [E|Hne];
      [reflexivity|].
    assert (Hgt : 1 < capBits - b).
    { destruct (Z.eq_dec (capBits - b) 1) as [E|]; [|lia].
      rewrite E in Hne. simpl in Hne. lia. }
    set (w := 2 ^ (capBits - (b + 2)) - 1).
    assert (Hw : 0 <= w).
    { pose proof (pow2_pos (capBits - (b + 2))). unfold w. lia. }
    assert (Hv : 2 ^ b * (2 ^ (capBits - b) - 1 - 1)
                 = 2 ^ (b + 1) * (2 * w + 1)).
    { unfold w. replace (capBits - b) with (capBits - (b + 2) + 1 + 1) by lia.
      rewrite !pow2_succ by lia. lia. }
    rewrite Hv.
    assert (Hvhi : 2 ^ (b + 1) * (2 * w + 1) < 2 ^ capBits).
    { rewrite <- Hv. replace capBits with (b + (capBits - b)) at 2 by lia.
      rewrite Z.pow_add_r by lia.
      pose proof (pow2_pos (capBits - b)). nia. }
    rewrite toCap_small by nia.
    rewrite clear_lowest_bit, lowest_bit by lia.
    destruct (Z.ltb_spec (2 ^ (b + 1)) (low + 2 ^ b * 1)) as [E|_]; [lia|].
    apply skip_loop_zero.
Qed.

Lemma not_cap_small mask :
  0 <= mask < 2 ^ capBits -> not_cap mask = 2 ^ capBits - 1 - mask.
Proof.
  intros H. unfold not_cap, toCap, Z.lnot.
  rewrite <- Z.sub_1_r.
  replace (- mask - 1) with ((2 ^ capBits - 1 - mask) + (-1) * 2 ^ capBits)
    by lia.
  rewrite Z.mod_add by lia. apply Z.mod_small. lia.
Qed.

(** The second loop collects the clear bits below the mask's leading
    bit; it has ended within [bitFuel] iterations. *)
Lemma skip_loop_skips mask fuel :
  0 <= mask < 2 ^ capBits -> (bitFuel <= fuel)%nat ->
  skip_loop fuel mask (not_cap mask) [] = skips mask.
Proof.
  intros Hm Hfuel. unfold skips.
  rewrite not_cap_small by assumption.
  destruct mask as [|m|m]; [| |lia].
  - destruct fuel as [|fuel]; [reflexivity|].
    cbn [skip_loop].
    destruct (Z.eqb_spec (2 ^ capBits - 1 - 0) 0); [reflexivity|].
    match goal with |- context [?p <? 0] =>
      destruct (Z.ltb_spec p 0) as [E|_] end.
    + exfalso. revert E. apply Z.le_ngt. apply Z.land_nonneg. lia.
    + apply skip_loop_zero.
  - pose proof (mask_range_bits m (proj2 Hm)).
    pose proof (pos_ones_pos m). pose proof (pos_bits_pos m).
    pose proof (skip_loop_pos m 0 fuel 0 []) as L.
    rewrite Z.sub_0_r in L. change (2 ^ 0) with 1 in L.
    rewrite !Z.mul_1_l in L. cbn [Z.add app] in L.
    apply L; unfold bitFuel in Hfuel; lia.
Qed.

Lemma mask_skipPowers_skips mask :
  0 <= mask < 2 ^ capBits -> mask_skipPowers mask = skips mask.
Proof. intros Hm. apply skip_loop_skips; [assumption|lia]. Qed.

Lemma pos_deposit_zero m : pos_deposit m 0 = 0.
Proof.
  induction m; cbn [pos_deposit];
    rewrite ?Z.mod_0_l, ?Z.div_0_l, ?IHm by lia; reflexivity.
Qed.

Lemma mod_pow2_split T c b :
  0 <= c <= b ->
  T mod 2 ^ b = T mod 2 ^ c + 2 ^ c * ((T / 2 ^ c) mod 2 ^ (b - c)).
Proof.
  intros H. pose proof (pow2_pos c). pose proof (pow2_pos (b - c)).
  replace b with (c + (b - c)) at 1 by lia.
  rewrite Z.pow_add_r by lia. apply Z.rem_mul_r; lia.
Qed.

Lemma div_pow2_split T c b :
  0 <= c <= b -> T / 2 ^ b = (T / 2 ^ c) / 2 ^ (b - c).
Proof.
  intros H. pose proof (pow2_pos c). pose proof (pow2_pos (b - c)).
  replace b with (c + (b - c)) at 1 by lia.
  rewrite Z.pow_add_r by lia. symmetry. apply Z.div_div; lia.
Qed.

Lemma expand_loop_pos m : forall b c T,
  0 <= c <= b -> 0 <= T ->
  b + pos_bits m <= capBits ->
  T / 2 ^ b < 2 ^ pos_ones m ->
  let r := expand_loop (pos_skips m (2 ^ b)) (T mod 2 ^ c)
                       (2 ^ c * (T / 2 ^ c)) in
  Z.lor (fst r) (snd r) = T mod 2 ^ b + 2 ^ b * pos_deposit m (T / 2 ^ b).
Proof.
  induction m as [m IH | m IH |]; intros b c T Hc HT Hle Hq;
    cbn [pos_bits pos_ones pos_skips pos_deposit] in *;
    pose proof (pow2_pos b) as Hp; pose proof (pow2_succ b) as Hp2;
    pose proof (pow2_pos c) as Hpc.
  - (* a set bit of the mask: nothing to skip here *)
    pose proof (pos_ones_pos m).
    rewrite <- Hp2 by lia.
    rewrite (Z.add_comm 1), pow2_succ in Hq by lia.
    assert (Hq2 : T / 2 ^ (b + 1) = T / 2 ^ b / 2).
    { rewrite (div_pow2_split T b (b + 1)) by lia.
      replace (b + 1 - b) with 1 by lia. reflexivity. }
    cbv zeta. rewrite (IH (b + 1) c T); [|lia|lia|lia|].
    2:{ rewrite Hq2. apply Z.div_lt_upper_bound; lia. }
    rewrite (mod_pow2_split T b (b + 1)) by lia.
    replace (b + 1 - b) with 1 by lia. change (2 ^ 1) with 2.
    rewrite Hq2, Hp2 by lia. lia.
  - (* a clear bit of the mask: open a gap at bit b *)
    pose proof (pos_ones_pos m). pose proof (pos_bits_pos m).
    pose proof (pos_ones_le_bits m).
    cbv zeta. cbn [expand_loop].
    assert (Hcapb : 2 ^ b <= 2 ^ capBits) by (apply Z.pow_le_mono_r; lia).
    rewrite (toCap_small (2 ^ b - 1)) by lia.
    rewrite land_pred_pow2 by lia.
    set (Q := T / 2 ^ b) in *.
    assert (HQ0 : 0 <= Q) by (apply Z.div_pos; lia).
    assert (HiLow : (2 ^ c * (T / 2 ^ c)) mod 2 ^ b
                    = 2 ^ c * ((T / 2 ^ c) mod 2 ^ (b - c))).
    { replace b with (c + (b - c)) at 1 by lia.
      pose proof (pow2_pos (b - c)).
      rewrite Z.pow_add_r by lia. apply Z.mul_mod_distr_l; lia. }
    assert (Hi : Z.lor (T mod 2 ^ c) ((2 ^ c * (T / 2 ^ c)) mod 2 ^ b)
                 = T mod 2 ^ b).
    { rewrite HiLow, lor_low_high by (try apply Z.mod_pos_bound; lia).
      symmetry. apply mod_pow2_split. lia. }
    assert (HiHigh : Z.lxor (2 ^ c * (T / 2 ^ c))
                            ((2 ^ c * (T / 2 ^ c)) mod 2 ^ b)
                     = 2 ^ b * Q).
    { rewrite lxor_mod_pow2 by lia. f_equal. unfold Q.
      rewrite (div_pow2_split T c b) by lia.
      replace b with (c + (b - c)) at 1 by lia.
      pose proof (pow2_pos (b - c)).
      rewrite Z.pow_add_r by lia. apply Z.div_mul_cancel_l; lia. }
    rewrite Hi, HiHigh.
    assert (Hshl : shl_cap (2 ^ b * Q) 1 = 2 ^ (b + 1) * Q).
    { unfold shl_cap. rewrite Z.shiftl_mul_pow2 by lia. change (2 ^ 1) with 2.
      rewrite toCap_small; [lia|]. split; [nia|].
      apply Z.lt_le_trans with (2 ^ (b + 1) * 2 ^ pos_ones m); [nia|].
      rewrite <- Z.pow_add_r by lia. apply Z.pow_le_mono_r; lia. }
    rewrite Hshl.
    destruct (Z.eqb_spec (2 ^ (b + 1) * Q) 0) as [E|Hne].
    + assert (Q = 0) by nia. subst Q.
      cbn [fst snd]. rewrite E, Z.lor_0_r.
      replace (T / 2 ^ b) with 0 by lia.
      rewrite pos_deposit_zero. lia.
    + set (T' := T mod 2 ^ b + 2 ^ (b + 1) * Q).
      pose proof (Z.mod_pos_bound T (2 ^ b) ltac:(lia)) as HA.
      assert (HT'mod : T' mod 2 ^ (b + 1) = T mod 2 ^ b).
      { unfold T'. rewrite (Z.mul_comm (2 ^ (b + 1))), Z.mod_add by lia.
        apply Z.mod_small. lia. }
      assert (HT'div : T' / 2 ^ (b + 1) = Q).
      { unfold T'. rewrite (Z.mul_comm (2 ^ (b + 1))), Z.div_add by lia.
        rewrite Z.div_small by lia. lia. }
      pose proof (IH (b + 1) (b + 1) T') as L. cbv zeta in L.
      rewrite HT'mod, HT'div, Hp2 in L by lia.
      rewrite Hp2 by lia.
      rewrite L; [lia|lia|unfold T'; nia|lia|lia].
  - (* the leading bit of the mask *)
    cbv zeta. cbn [expand_loop fst snd].
    rewrite lor_low_high by (try apply Z.mod_pos_bound; lia).
    pose proof (Z.div_mod T (2 ^ c)). pose proof (Z.div_mod T (2 ^ b)). lia.
Qed.

(** The pattern ProbMaskAll builds for [lcv] is the bit deposit of [lcv]
    on the mask. *)
Lemma mask_pattern_deposit mask lcv :
  0 <= mask < 2 ^ capBits ->
  0 <= lcv < 2 ^ popcount mask ->
  mask_pattern mask lcv = deposit mask lcv.
Proof.
  intros Hm Hl. unfold mask_pattern.
  rewrite mask_skipPowers_skips by assumption.
  unfold skips, deposit, popcount, expand in *.
  destruct mask as [|m|m]; [reflexivity| |lia].
  pose proof (mask_range_bits m (proj2 Hm)).
  pose proof (expand_loop_pos m 0 0 lcv) as L. cbv zeta in L.
  change (2 ^ 0) with 1 in L.
  rewrite Z.mod_1_r, Z.div_1_r, !Z.mul_1_l, Z.add_0_l in L.
  destruct (expand_loop (pos_skips m 1) 0 lcv) as [i iHigh].
  apply L; lia.
Qed.

End MaskEnumerationFacts.

(* ================================================================= *)
(** ** The rationals satisfy the identities of real arithmetic *)

Lemma real1_Qc_laws : Real1Laws real1_Qc.
Proof.
  constructor;
    cbn [real1 ZERO_R1 ONE_R1 radd rsub rmul rsqrt rlt rle real1_Qc];
    unfold Qc_lt, Qc_le.
  - intros x. rewrite (proj1 (Qceq_alt x x) eq_refl). reflexivity.
  - reflexivity.
  - intros x. rewrite (proj1 (Qceq_alt x x) eq_refl). reflexivity.
  - intros x y z Hxy Hyz.
    assert (x <= y)%Qc by (apply Qcle_alt; destruct (x ?= y)%Qc; congruence).
    assert (y <= z)%Qc by (apply Qcle_alt; destruct (y ?= z)%Qc; congruence).
    assert (Hxz : (x <= z)%Qc) by (eapply Qcle_trans; eassumption).
    apply Qcle_alt in Hxz.
    destruct (x ?= z)%Qc eqn:E; try reflexivity. elim Hxz. exact E.
  - intros x y Hxy.
    assert (Hgt : (x ?= y)%Qc = Gt) by (destruct (x ?= y)%Qc; congruence).
    apply Qcgt_alt in Hgt.
    assert (Hle : (y <= x)%Qc) by (apply Qclt_le_weak; exact Hgt).
    apply Qcle_alt in Hle.
    destruct (y ?= x)%Qc eqn:E; try reflexivity. elim Hle. exact E.
  - intros x. unfold Qcminus. change (- 0)%Qc with 0%Qc. apply Qcplus_0_r.
  - intros x H. unfold Qcminus in H.
    assert (1 + - x + x = 0 + x)%Qc as E by (rewrite H; reflexivity).
    rewrite <- Qcplus_assoc, (Qcplus_comm (- x)), Qcplus_opp_r,
      Qcplus_0_r, Qcplus_0_l in E.
    symmetry. exact E.
  - apply Qcplus_0_l.
  - apply Qcplus_0_r.
  - apply Qcmult_0_l.
  - apply Qcmult_1_l.
  - reflexivity.
Qed.

(* ================================================================= *)
(** ** Runs of the one-qubit ForceM *)

Section RunFacts.
Context {cfg : Config} {R : Real1}.

Lemma run_bind {A B : Type} (w : World) (m : Eng A) (f : A -> Eng B) :
  forall s,
  run w (bind m f) s
  = let '(a, s1, t1) := run w m s in
    let '(b, s2, t2) := run w (f a) s1 in
    (b, s2, t1 ++ t2).
Proof.
  induction m as [a | X e k IH]; intros s; cbn [bind run].
  - destruct (run w (f a) s) as [[b s2] t2]. reflexivity.
  - destruct (answer w X e s) as [x s1].
    rewrite IH.
    destruct (run w (k x) s1) as [[a s2] t1].
    destruct (run w (f a) s2) as [[b s3] t2].
    rewrite app_assoc. reflexivity.
Qed.

Lemma run_normalize_if_needed (w : World) (s : St w) :
  exists doNormalize s',
    run w normalize_if_needed s = (tt, s', normalize_calls doNormalize).
Proof.
  unfold normalize_if_needed, trigger. cbn [bind run].
  destruct (answer w bool doNormalizeE s) as [dn s1].
  exists dn. destruct dn; cbn [run calls_of].
  - destruct (answer w unit NormalizeStateE s1) as [[] s2].
    exists s2. reflexivity.
  - exists s1. reflexivity.
Qed.

End RunFacts.

Section ForceMFacts.
Context {cfg : Config} {R : Real1}.

(** Every run of the one-qubit ForceM, call by call. *)
Lemma ForceM_run (w : World) (s : St w) (qubit : Z) (result doForce : bool) :
  exists (doNormalize : bool) (oneChance prob : real1) (phase : complex),
    let outcome :=
      if doForce then result
      else rlt prob oneChance && rlt ZERO_R1 oneChance in
    let nrmlzr :=
      if outcome then oneChance else rsub ONE_R1 oneChance in
    calls (run w (ForceM qubit result doForce) s)
    = normalize_calls doNormalize
      ++ [Call_Prob qubit oneChance]
      ++ (if doForce then [] else [Call_Rand prob])
      ++ [Call_GetNonunitaryPhase phase;
          Call_ApplyMBit (toCap (shl_int 1 qubit)) outcome
            (cdiv_real phase (rsqrt nrmlzr))]
    /\ result_of (run w (ForceM qubit result doForce) s) = outcome.
Proof.
  unfold ForceM. rewrite run_bind.
  destruct (run_normalize_if_needed w s) as (dn & s1 & ->).
  exists dn. cbn [bind trigger run].
  destruct (answer w real1 (ProbE qubit) s1) as [oneChance s2].
  exists oneChance.
  destruct doForce; cbn [negb bind run].
  - destruct (answer w complex GetNonunitaryPhaseE s2) as [phase s3].
    destruct (answer w unit _ s3) as [[] s4].
    exists ZERO_R1, phase. split; reflexivity.
  - destruct (answer w real1 RandE s2) as [prob s3]. cbn [bind run].
    destruct (answer w complex GetNonunitaryPhaseE s3) as [phase s4].
    destruct (answer w unit _ s4) as [[] s5].
    exists prob, phase. split; reflexivity.
Qed.

(** C3.  The one-qubit ForceM asks for the one-probability of the qubit;
    when [doForce] is false it draws a random value and the outcome is
    [(prob < oneChance) && (oneChance > ZERO_R1)], when [doForce] is true
    the outcome is the supplied [result] and nothing is drawn; the
    normalizer is [oneChance] for the outcome true and
    [ONE_R1 - oneChance] otherwise; ApplyM receives the qubit power, the
    outcome and [phase / sqrt(nrmlzr)], and the outcome is returned.
    These are all the calls made, in order. *)
Theorem ForceM_outcome_and_normalizer
  (w : World) (s : St w) (qubit : Z) (result doForce : bool) :
  exists (doNormalize : bool) (oneChance prob : real1) (phase : complex),
    let outcome :=
      if doForce then result
      else rlt prob oneChance && rlt ZERO_R1 oneChance in
    let nrmlzr :=
      if outcome then oneChance else rsub ONE_R1 oneChance in
    calls (run w (ForceM qubit result doForce) s)
    = normalize_calls doNormalize
      ++ [Call_Prob qubit oneChance]
      ++ (if doForce then [] else [Call_Rand prob])
      ++ [Call_GetNonunitaryPhase phase;
          Call_ApplyMBit (toCap (shl_int 1 qubit)) outcome
            (cdiv_real phase (rsqrt nrmlzr))]
    /\ result_of (run w (ForceM qubit result doForce) s) = outcome.
Proof. apply ForceM_run. Qed.

Lemma one_neq_zero {L : Real1Laws R} : ONE_R1 <> ZERO_R1.
Proof.
  intros E. pose proof rlt_zero_one as H. rewrite E, rlt_irrefl in H.
  discriminate.
Qed.

(** C10.  In every run of the one-qubit ForceM with [doForce] false the
    outcome is [(prob < oneChance) && (oneChance > ZERO_R1)].  When Prob
    answers exactly [ZERO_R1] the outcome is false whatever Rand answers,
    the normalizer is [ONE_R1 - ZERO_R1], which is [ONE_R1], and its
    square root, the divisor of the rescale factor, is [ONE_R1] and not
    zero.  More generally the normalizer is not zero whenever the random
    draw is below [ONE_R1]. *)
Theorem ForceM_unforced_zero_chance {L : Real1Laws R}
  (w : World) (s : St w) (qubit : Z) (result : bool) :
  exists (doNormalize : bool) (oneChance prob : real1) (phase : complex),
    let outcome := rlt prob oneChance && rlt ZERO_R1 oneChance in
    let nrmlzr := if outcome then oneChance else rsub ONE_R1 oneChance in
    calls (run w (ForceM qubit result false) s)
    = normalize_calls doNormalize
      ++ [Call_Prob qubit oneChance; Call_Rand prob;
          Call_GetNonunitaryPhase phase;
          Call_ApplyMBit (toCap (shl_int 1 qubit)) outcome
            (cdiv_real phase (rsqrt nrmlzr))]
    /\ result_of (run w (ForceM qubit result false) s) = outcome
    /\ (oneChance = ZERO_R1 ->
          outcome = false /\ nrmlzr = ONE_R1
          /\ rsqrt nrmlzr = ONE_R1 /\ rsqrt nrmlzr <> ZERO_R1)
    /\ (rlt prob ONE_R1 = true -> nrmlzr <> ZERO_R1).
Proof.
  destruct (ForceM_run w s qubit result false)
    as (dn & oneChance & prob & phase & Hcalls & Hres).
  exists dn, oneChance, prob, phase. cbv zeta in *.
  split; [exact Hcalls|]. split; [exact Hres|]. split.
  - intros ->. rewrite rlt_irrefl, andb_false_r.
    rewrite rsub_zero_r, rsqrt_one.
    repeat split; try reflexivity. apply one_neq_zero.
  - intros Hprob.
    destruct (rlt prob oneChance && rlt ZERO_R1 oneChance) eqn:Hout.
    + apply andb_true_iff in Hout. destruct Hout as [_ Hpos].
      intros ->. rewrite rlt_irrefl in Hpos. discriminate.
    + intros Hzero. apply rsub_one_eq_zero in Hzero. subst oneChance.
      rewrite Hprob, rlt_zero_one in Hout. discriminate.
Qed.

Lemma zth_nth {A : Type} (l : list A) : forall (i : nat) (d : A),
  zth l (Z.of_nat i) d = nth i l d.
Proof.
  induction l as [|x l IH]; intros i d; destruct i as [|i]; try reflexivity.
  cbn [zth nth].
  destruct (Z.eqb_spec (Z.of_nat (S i)) 0) as [E|_]; [lia|].
  replace (Z.of_nat (S i) - 1) with (Z.of_nat i) by lia. apply IH.
Qed.

Lemma shl_uint_pow2 b : 0 <= b < 32 -> toCap (shl_uint 1 b) = 2 ^ b.
Proof.
  intros Hb. unfold shl_uint, toU32.
  rewrite Z.shiftl_mul_pow2, Z.mul_1_l by lia.
  assert (2 ^ b < 2 ^ 32) by (apply Z.pow_lt_mono_r; lia).
  assert (2 ^ 32 <= 2 ^ capBits)
    by (apply Z.pow_le_mono_r; pose proof capBits_lo; lia).
  pose proof (pow2_pos b).
  rewrite (Z.mod_small (2 ^ b)) by lia. apply toCap_small. lia.
Qed.

Lemma shl_int_pow2 b : 0 <= b <= 30 -> toCap (shl_int 1 b) = 2 ^ b.
Proof.
  intros Hb. unfold shl_int, toInt.
  rewrite Z.shiftl_mul_pow2, Z.mul_1_l by lia.
  assert (2 ^ b < 2 ^ 31) by (apply Z.pow_lt_mono_r; lia).
  assert (2 ^ 32 <= 2 ^ capBits)
    by (apply Z.pow_le_mono_r; pose proof capBits_lo; lia).
  pose proof (pow2_pos b).
  change (2 ^ 32) with 4294967296 in *. change (2 ^ 31) with 2147483648 in *.
  rewrite (Z.mod_small (2 ^ b + 2147483648)) by lia.
  replace (2 ^ b + 2147483648 - 2147483648) with (2 ^ b) by lia.
  apply toCap_small. lia.
Qed.

Lemma bit_powers_pow2 bits :
  Forall (fun b => 0 <= b < 32) bits -> bit_powers bits = map (Z.pow 2) bits.
Proof.
  intros H. unfold bit_powers. apply map_ext_in. intros b Hb.
  apply shl_uint_pow2. rewrite Forall_forall in H. auto.
Qed.

Lemma forced_result_fold bits values : forall n j acc,
  forced_result n (Z.of_nat j) bits values acc
  = fold_left
      (fun acc i =>
         Z.lor acc (if nth i values false
                    then toCap (shl_uint 1 (nth i bits 0)) else 0))
      (seq j n) acc.
Proof.
  induction n as [|n IH]; intros j acc; [reflexivity|].
  cbn [forced_result seq fold_left].
  rewrite !zth_nth.
  replace (Z.of_nat j + 1) with (Z.of_nat (S j)) by lia.
  apply IH.
Qed.

Lemma fold_left_ext_in {A B : Type} (f g : A -> B -> A) (l : list B) :
  (forall a b, In b l -> f a b = g a b) ->
  forall a, fold_left f l a = fold_left g l a.
Proof.
  induction l as [|b l IH]; intros H a; [reflexivity|].
  cbn [fold_left]. rewrite H by (left; reflexivity).
  apply IH. intros a' b' Hb'. apply H. right. exact Hb'.
Qed.

Lemma forced_result_or_selected bits values :
  Forall (fun b => 0 <= b < 32) bits ->
  forced_result (List.length bits) 0 bits values 0 = or_selected bits values.
Proof.
  intros H. change 0 with (Z.of_nat 0) at 1.
  rewrite forced_result_fold. unfold or_selected.
  apply fold_left_ext_in. intros acc j Hj.
  destruct (nth j values false); [|reflexivity].
  rewrite shl_uint_pow2; [reflexivity|].
  rewrite Forall_forall in H. apply H. apply nth_In.
  apply in_seq in Hj. lia.
Qed.

(** C2.  With [length > 1] and [values] not null, ForceM draws no random
    value; it returns the OR of [1 << bits[j]] over the [j] with
    [values[j]] true, asks ProbMask for the probability of exactly that
    pattern under the register mask, and passes [phase / sqrt] of that
    probability to ApplyM.  These are all the calls made, in order. *)
Theorem ForceM_bits_forced_exact
  (w : World) (s : St w) (bits : list Z) (values : list bool) :
  (1 < List.length bits)%nat ->
  Forall (fun b => 0 <= b < 32) bits ->
  let r := run w (ForceM_bits bits (Some values)) s in
  let regMask := or_all (map (Z.pow 2) bits) in
  let result := or_selected bits values in
  result_of r = result
  /\ (forall x, ~ In (Call_Rand x) (calls r))
  /\ (exists (doNormalize : bool) (phase : complex) (nrmlzr : real1),
        calls r
        = normalize_calls doNormalize
          ++ [Call_GetNonunitaryPhase phase;
              Call_ProbMask regMask result nrmlzr;
              Call_ApplyM regMask result (cdiv_real phase (rsqrt nrmlzr))]).
Proof.
  intros Hlen Hbits. cbv zeta. unfold ForceM_bits.
  destruct (Z.eqb_spec (Z.of_nat (List.length bits)) 1) as [E|_]; [lia|].
  rewrite run_bind.
  destruct (run_normalize_if_needed w s) as (dn & s1 & ->).
  cbn [bind trigger run].
  destruct (answer w complex GetNonunitaryPhaseE s1) as [phase s2].
  rewrite forced_result_or_selected, bit_powers_pow2 by assumption.
  destruct (answer w real1 _ s2) as [nrmlzr s3]. cbn [run].
  destruct (answer w unit _ s3) as [[] s4].
  cbn [result_of calls fst snd calls_of app].
  split; [reflexivity|]. split.
  - intros x Hin. apply in_app_or in Hin. destruct Hin as [Hin|Hin].
    + destruct dn; cbn [normalize_calls In] in Hin;
        intuition discriminate.
    + cbn [In] in Hin. intuition discriminate.
  - exists dn, phase, nrmlzr. reflexivity.
Qed.

End ForceMFacts.

(* ================================================================= *)
(** ** The gate layer *)

Section GateFacts.
Context {cfg : Config} {R : Real1}.

(** C6.  Each of the nine paired-qubit gates, called with the same qubit
    twice, returns at once: the program makes no call at all (so Apply2x2
    is not invoked and no mask is built), and every run leaves the state
    of the engine as it was. *)
Theorem paired_gates_same_qubit_noop
  (w : World) (s : St w) (controls : list Z) (qubit : Z) :
  (Swap qubit qubit = Ret tt
   /\ SqrtSwap qubit qubit = Ret tt
   /\ ISqrtSwap qubit qubit = Ret tt
   /\ CSwap controls qubit qubit = Ret tt
   /\ AntiCSwap controls qubit qubit = Ret tt
   /\ CSqrtSwap controls qubit qubit = Ret tt
   /\ AntiCSqrtSwap controls qubit qubit = Ret tt
   /\ CISqrtSwap controls qubit qubit = Ret tt
   /\ AntiCISqrtSwap controls qubit qubit = Ret tt)
  /\ (run w (Swap qubit qubit) s = (tt, s, [])
      /\ run w (SqrtSwap qubit qubit) s = (tt, s, [])
      /\ run w (ISqrtSwap qubit qubit) s = (tt, s, [])
      /\ run w (CSwap controls qubit qubit) s = (tt, s, [])
      /\ run w (AntiCSwap controls qubit qubit) s = (tt, s, [])
      /\ run w (CSqrtSwap controls qubit qubit) s = (tt, s, [])
      /\ run w (AntiCSqrtSwap controls qubit qubit) s = (tt, s, [])
      /\ run w (CISqrtSwap controls qubit qubit) s = (tt, s, [])
      /\ run w (AntiCISqrtSwap controls qubit qubit) s = (tt, s, [])).
Proof.
  unfold Swap, SqrtSwap, ISqrtSwap, CSwap, AntiCSwap, CSqrtSwap,
    AntiCSqrtSwap, CISqrtSwap, AntiCISqrtSwap.
  rewrite Z.eqb_refl. repeat split.
Qed.

(** C8.  With no control qubit, ApplyControlledSingleBit and
    ApplyAntiControlledSingleBit are the program
    [ApplySingleBit(mtrx, true, target)], whose only call is Apply2x2 with
    offsets 0 and [1 << target], the matrix, one bit power and norm
    calculation requested. *)
Theorem controlLen_zero_is_ApplySingleBit
  (w : World) (s : St w) (controls : list Z) (target : Z)
  (mtrx : list complex) :
  Z.of_nat (List.length controls) = 0 ->
  ApplyControlledSingleBit controls target mtrx
  = ApplySingleBit mtrx true target
  /\ ApplyAntiControlledSingleBit controls target mtrx
     = ApplySingleBit mtrx true target
  /\ calls (run w (ApplySingleBit mtrx true target) s)
     = [Call_Apply2x2 0 (toCap (shl_int 1 target)) mtrx 1
          [toCap (shl_int 1 target)] true]
  /\ calls (run w (ApplyControlledSingleBit controls target mtrx) s)
     = calls (run w (ApplySingleBit mtrx true target) s)
  /\ calls (run w (ApplyAntiControlledSingleBit controls target mtrx) s)
     = calls (run w (ApplySingleBit mtrx true target) s)
  /\ state_of (run w (ApplyControlledSingleBit controls target mtrx) s)
     = state_of (run w (ApplySingleBit mtrx true target) s)
  /\ state_of (run w (ApplyAntiControlledSingleBit controls target mtrx) s)
     = state_of (run w (ApplySingleBit mtrx true target) s).
Proof.
  intros Hlen.
  unfold ApplyControlledSingleBit, ApplyAntiControlledSingleBit.
  rewrite Hlen. cbn [Z.eqb].
  repeat split.
  unfold ApplySingleBit, trigger. cbn [run zth Z.eqb].
  destruct (answer w unit _ s) as [[] s1]. reflexivity.
Qed.

End GateFacts.

(* ================================================================= *)
(** ** Loops that fill an array with the answers to a call *)

Section ArrayFacts.
Context {A : Type}.
Implicit Types (a xs : list A) (d x : A).

Lemma zstore_length a : forall i x, List.length (zstore a i x) = List.length a.
Proof.
  induction a as [|y a IH]; intros i x; cbn [zstore]; [reflexivity|].
  destruct (i =? 0); cbn [List.length]; [reflexivity|]. rewrite IH. reflexivity.
Qed.

Lemma zth_zstore a : forall i j x d,
  zth (zstore a j x) i d
  = if (i =? j) && (0 <=? j) && (j <? Z.of_nat (List.length a)) then x
    else zth a i d.
Proof.
  induction a as [|y a IH]; intros i j x d; cbn [zstore zth List.length].
  - destruct (i =? j), (Z.leb_spec 0 j); try reflexivity.
    cbn [andb Z.of_nat]. destruct (Z.ltb_spec j 0); [lia|reflexivity].
  - destruct (Z.eqb_spec j 0) as [->|Hj]; cbn [zth].
    + destruct (Z.eqb_spec i 0) as [->|Hi]; [|reflexivity].
      cbn [andb Z.leb Z.compare].
      destruct (Z.ltb_spec 0 (Z.of_nat (S (List.length a)))); [reflexivity|lia].
    + destruct (Z.eqb_spec i 0) as [->|Hi].
      * destruct (Z.eqb_spec 0 j); [lia|reflexivity].
      * rewrite IH.
        replace (i - 1 =? j - 1) with (i =? j) by lia.
        replace (0 <=? j - 1) with (0 <=? j).
        2:{ destruct (Z.leb_spec 0 j), (Z.leb_spec 0 (j - 1)); lia. }
        replace (j - 1 <? Z.of_nat (List.length a))
          with (j <? Z.of_nat (S (List.length a))).
        2:{ destruct (Z.ltb_spec j (Z.of_nat (S (List.length a)))),
              (Z.ltb_spec (j - 1) (Z.of_nat (List.length a))); lia. }
        reflexivity.
Qed.

Lemma zstore_seq_length xs : forall a lcv,
  List.length (zstore_seq a lcv xs) = List.length a.
Proof.
  induction xs as [|x xs IH]; intros a lcv; cbn [zstore_seq]; [reflexivity|].
  rewrite IH. apply zstore_length.
Qed.

Lemma zth_zstore_seq xs : forall a lcv i d,
  0 <= lcv ->
  lcv + Z.of_nat (List.length xs) <= Z.of_nat (List.length a) ->
  zth (zstore_seq a lcv xs) i d
  = if (lcv <=? i) && (i <? lcv + Z.of_nat (List.length xs))
    then zth xs (i - lcv) d else zth a i d.
Proof.
  induction xs as [|x xs IH]; intros a lcv i d Hlcv Hlen;
    cbn [zstore_seq List.length] in *.
  - destruct (Z.leb_spec lcv i), (Z.ltb_spec i (lcv + Z.of_nat 0));
      try reflexivity; lia.
  - rewrite IH by (rewrite ?zstore_length; lia).
    rewrite zth_zstore. cbn [zth].
    repeat match goal with
           | |- context [?u <=? ?v] => destruct (Z.leb_spec u v)
           | |- context [?u <? ?v] => destruct (Z.ltb_spec u v)
           | |- context [?u =? ?v] => destruct (Z.eqb_spec u v)
           end;
      cbn [andb]; try lia; try reflexivity.
    f_equal. lia.
Qed.

End ArrayFacts.

Section FillFacts.
Context {cfg : Config} {R : Real1}.
Local Open Scope eng_scope.

Lemma run_fill (w : World) (ev : Z -> EngE real1) : forall n lcv a s,
  exists xs s',
    List.length xs = n
    /\ run w (for_lcv n lcv (fill_body ev) a) s
       = (zstore_seq a lcv xs, s', calls_seq ev lcv xs).
Proof.
  induction n as [|n IH]; intros lcv a s; cbn [for_lcv].
  - exists [], s. split; reflexivity.
  - unfold fill_body at 1, trigger. cbn [bind run].
    destruct (answer w real1 (ev lcv) s) as [x s1].
    destruct (IH (lcv + 1) (zstore a lcv x) s1) as (xs & s2 & Hlen & Hrun).
    rewrite Hrun. exists (x :: xs), s2. split.
    + cbn [List.length]. rewrite Hlen. reflexivity.
    + reflexivity.
Qed.

Lemma calls_seq_map (ev : Z -> EngE real1) (mk : Z -> real1 -> Call) d :
  (forall lcv x, calls_of (ev lcv) x = [mk lcv x]) ->
  forall xs lcv,
  calls_seq ev lcv xs
  = map (fun i => mk (lcv + Z.of_nat i) (nth i xs d))
      (seq 0 (List.length xs)).
Proof.
  intros Hmk. induction xs as [|x xs IH]; intros lcv; [reflexivity|].
  cbn [calls_seq List.length seq map nth].
  rewrite Hmk, IH, <- seq_shift, map_map, Z.add_0_r. cbn [app]. f_equal.
  apply map_ext. intros i. cbn [nth]. f_equal. lia.
Qed.

End FillFacts.

(* ================================================================= *)
(** ** ProbMaskAll *)

Section ProbMaskAllFacts.
Context {cfg : Config} {R : Real1}.

Lemma popcount_nonneg mask : 0 <= popcount mask.
Proof.
  destruct mask as [|m|m]; cbn [popcount]; try lia.
  pose proof (pos_ones_pos m). lia.
Qed.

Lemma deposit_submask mask x :
  0 <= mask -> 0 <= x < 2 ^ popcount mask ->
  Z.land (deposit mask x) mask = deposit mask x.
Proof.
  intros Hm Hx. destruct mask as [|m|m]; cbn [deposit popcount] in *.
  - change (2 ^ 0) with 1 in Hx. rewrite Z.land_0_r. lia.
  - apply pos_deposit_submask. assumption.
  - lia.
Qed.

Lemma extract_deposit mask x : extract mask (deposit mask x) = x.
Proof.
  destruct mask as [|m|m]; cbn [deposit extract]; try reflexivity.
  apply pos_extract_deposit.
Qed.

Lemma deposit_extract mask p :
  0 <= mask -> 0 <= p -> Z.land p mask = p ->
  deposit mask (extract mask p) = p
  /\ 0 <= extract mask p < 2 ^ popcount mask.
Proof.
  intros Hm Hp Hsub. destruct mask as [|m|m]; cbn [deposit extract popcount].
  - rewrite Z.land_0_r in Hsub. subst p. split; [reflexivity|].
    change (2 ^ 0) with 1. lia.
  - apply pos_deposit_extract; assumption.
  - lia.
Qed.

Lemma mask_lengthPower_pow2 mask :
  0 <= mask < 2 ^ capBits -> popcount mask <= 30 ->
  mask_lengthPower mask = 2 ^ popcount mask.
Proof.
  intros Hm Hpc. unfold mask_lengthPower.
  rewrite mask_length_popcount by assumption.
  apply shl_int_pow2. pose proof (popcount_nonneg mask). lia.
Qed.

Lemma ProbMaskAll_fill mask probsArray :
  ProbMaskAll mask probsArray
  = for_lcv (Z.to_nat (mask_lengthPower mask)) 0
      (fill_body (fun lcv => ProbMaskE mask (mask_pattern mask lcv)))
      probsArray.
Proof. reflexivity. Qed.

(** Every run of a loop that fills the first [n] entries of an array
    with the answers to [n] calls. *)
Lemma run_fill_spec (w : World) (ev : Z -> EngE real1)
  (mk : Z -> real1 -> Call) (n : nat) (a : list real1) (s : St w) :
  (forall lcv x, calls_of (ev lcv) x = [mk lcv x]) ->
  Z.of_nat n <= Z.of_nat (List.length a) ->
  let r := run w (for_lcv n 0 (fill_body ev) a) s in
  calls r
  = map (fun lcv => mk lcv (zth (result_of r) lcv ZERO_R1))
      (map Z.of_nat (seq 0 n))
  /\ List.length (result_of r) = List.length a
  /\ (forall i, Z.of_nat n <= i ->
        zth (result_of r) i ZERO_R1 = zth a i ZERO_R1).
Proof.
  intros Hmk Hlen. cbv zeta.
  destruct (run_fill w ev n 0 a s) as (xs & s' & Hxs & ->).
  cbn [calls result_of fst snd].
  split; [|split].
  - rewrite (calls_seq_map ev mk ZERO_R1 Hmk), map_map, Hxs.
    apply map_ext_in. intros i Hi. apply in_seq in Hi.
    rewrite Z.add_0_l. f_equal.
    rewrite zth_zstore_seq by lia.
    destruct (Z.leb_spec 0 (Z.of_nat i)); [|lia].
    destruct (Z.ltb_spec (Z.of_nat i) (0 + Z.of_nat (List.length xs)));
      [|lia].
    cbn [andb]. rewrite Z.sub_0_r. symmetry. apply zth_nth.
  - apply zstore_seq_length.
  - intros i Hi. rewrite zth_zstore_seq by lia.
    destruct (Z.leb_spec 0 i); [|lia].
    destruct (Z.ltb_spec i (0 + Z.of_nat (List.length xs))); [lia|].
    reflexivity.
Qed.

(** C1.  For a mask of at most 30 set bits and an array with room for
    [2 ^ popcount mask] entries, ProbMaskAll makes exactly
    [2 ^ popcount mask] calls, the call number [lcv] being
    [ProbMask(mask, pattern lcv)], whose answer is what entry [lcv] of the
    array holds afterwards; the entries from [2 ^ popcount mask] on are
    untouched.  The expansion [lcv -> pattern lcv] maps the enumeration
    values one-to-one onto the patterns that only have bits of the mask. *)
Theorem ProbMaskAll_enumerates_patterns
  (w : World) (s : St w) (mask : Z) (probsArray : list real1) :
  0 <= mask < 2 ^ capBits ->
  popcount mask <= 30 ->
  2 ^ popcount mask <= Z.of_nat (List.length probsArray) ->
  let r := run w (ProbMaskAll mask probsArray) s in
  let n := 2 ^ popcount mask in
  calls r
  = map (fun lcv =>
           Call_ProbMask mask (mask_pattern mask lcv)
             (zth (result_of r) lcv ZERO_R1))
      (map Z.of_nat (seq 0 (Z.to_nat n)))
  /\ List.length (result_of r) = List.length probsArray
  /\ (forall i, n <= i ->
        zth (result_of r) i ZERO_R1 = zth probsArray i ZERO_R1)
  /\ (forall lcv, 0 <= lcv < n ->
        0 <= mask_pattern mask lcv
        /\ Z.land (mask_pattern mask lcv) mask = mask_pattern mask lcv)
  /\ (forall lcv lcv', 0 <= lcv < n -> 0 <= lcv' < n ->
        mask_pattern mask lcv = mask_pattern mask lcv' -> lcv = lcv')
  /\ (forall p, 0 <= p -> Z.land p mask = p ->
        exists lcv, 0 <= lcv < n /\ mask_pattern mask lcv = p).
Proof.
  intros Hm Hpc Hroom. cbv zeta.
  pose proof (popcount_nonneg mask) as Hpc0.
  pose proof (pow2_pos (popcount mask) Hpc0) as Hn.
  rewrite ProbMaskAll_fill, mask_lengthPower_pow2 by assumption.
  destruct (run_fill_spec w
              (fun lcv => ProbMaskE mask (mask_pattern mask lcv))
              (fun lcv x => Call_ProbMask mask (mask_pattern mask lcv) x)
              (Z.to_nat (2 ^ popcount mask)) probsArray s)
    as (Hcalls & Hlen & Hrest); [reflexivity|lia|].
  split; [exact Hcalls|]. split; [exact Hlen|]. split.
  { intros i Hi. apply Hrest. lia. }
  split; [|split].
  - intros lcv Hlcv. rewrite mask_pattern_deposit by assumption.
    pose proof (deposit_submask mask lcv (proj1 Hm) Hlcv) as Hsub.
    split; [|exact Hsub].
    rewrite <- Hsub. apply Z.land_nonneg. right. lia.
  - intros lcv lcv' Hlcv Hlcv' E.
    rewrite !mask_pattern_deposit in E by assumption.
    rewrite <- (extract_deposit mask lcv), <- (extract_deposit mask lcv'), E.
    reflexivity.
  - intros p Hp Hsub.
    destruct (deposit_extract mask p (proj1 Hm) Hp Hsub) as [Hd Hr].
    exists (extract mask p). split; [exact Hr|].
    rewrite mask_pattern_deposit by assumption. exact Hd.
Qed.

End ProbMaskAllFacts.

(* ================================================================= *)
(** ** ForceMReg *)

Section ForceMRegFacts.
Context {cfg : Config} {R : Real1}.

Lemma ProbRegAll_fill start length probsArray :
  ProbRegAll start length probsArray
  = for_lcv (Z.to_nat (toCap (shl_uint 1 length))) 0
      (fill_body (fun lcv => ProbRegE start length lcv)) probsArray.
Proof. reflexivity. Qed.

Lemma run_ProbRegAll (w : World) (s : St w) start length probsArray :
  exists a s' probs,
    run w (ProbRegAll start length probsArray) s = (a, s', probs)
    /\ Forall (is_ProbReg_call start length) probs.
Proof.
  rewrite ProbRegAll_fill.
  destruct (run_fill w (fun lcv => ProbRegE start length lcv)
              (Z.to_nat (toCap (shl_uint 1 length))) 0 probsArray s)
    as (xs & s' & _ & ->).
  eexists _, _, _. split; [reflexivity|].
  rewrite (calls_seq_map _ (fun lcv x => Call_ProbReg start length lcv x)
             ZERO_R1) by reflexivity.
  apply Forall_forall. intros c Hc. apply in_map_iff in Hc.
  destruct Hc as (i & <- & _). eexists _, _. reflexivity.
Qed.

(** C9.  With [doForce] true and a register of 2 to 30 qubits, ForceMReg
    returns the supplied [result] and its only call of ApplyM has the mask
    [(2^length - 1) << start], the pattern [result << start] and the
    factor [phase / sqrt(ONE_R1)]: the normalizer stays [ONE_R1] whatever
    ProbReg answered.  Before it come the optional NormalizeState, one
    Rand, GetNonunitaryPhase and the ProbReg calls of ProbRegAll. *)
Theorem ForceMReg_forced_unit_normalizer
  (w : World) (s : St w) (start length result : Z) :
  1 < length <= 30 ->
  let r := run w (ForceMReg start length result true) s in
  result_of r = result
  /\ (exists (doNormalize : bool) (prob : real1) (phase : complex)
             (probs : list Call),
        calls r
        = normalize_calls doNormalize
          ++ [Call_Rand prob; Call_GetNonunitaryPhase phase]
          ++ probs
          ++ [Call_ApplyM (toCap (Z.shiftl (2 ^ length - 1) start))
                (toCap (Z.shiftl result start))
                (cdiv_real phase (rsqrt ONE_R1))]
        /\ Forall (is_ProbReg_call start length) probs).
Proof.
  intros Hlen. cbv zeta. unfold ForceMReg.
  destruct (Z.eqb_spec length 1) as [E|_]; [lia|].
  rewrite run_bind.
  destruct (run_normalize_if_needed w s) as (dn & s1 & ->).
  cbn [bind trigger run].
  destruct (answer w real1 RandE s1) as [prob s2]. cbn [bind run].
  destruct (answer w complex GetNonunitaryPhaseE s2) as [phase s3].
  rewrite run_bind.
  match goal with |- context [run w (ProbRegAll ?a ?b ?c) ?st] =>
    destruct (run_ProbRegAll w st a b c) as (arr & s4 & probs & -> & Hprobs)
  end.
  cbn [negb bind run].
  destruct (answer w unit _ s4) as [[] s5].
  cbn [result_of calls fst snd calls_of].
  split; [reflexivity|].
  exists dn, prob, phase, probs. split; [|exact Hprobs].
  rewrite shl_int_pow2 by lia.
  assert (Hp : 0 < 2 ^ length < 2 ^ capBits).
  { split; [apply pow2_pos; lia|].
    apply Z.pow_lt_mono_r; pose proof capBits_lo; lia. }
  rewrite (toCap_small (2 ^ length - 1)) by lia.
  unfold shl_cap. cbn [app]. reflexivity.
Qed.

End ForceMRegFacts.

(* ================================================================= *)
(** ** std::sort on bit powers *)

Section SortFacts.

Lemma sort_insert_perm x l : Permutation (sort_insert x l) (x :: l).
Proof.
  induction l as [|y l IH]; cbn [sort_insert]; [reflexivity|].
  destruct (x <=? y); [reflexivity|].
  rewrite IH. apply perm_swap.
Qed.

Lemma sort_perm l : Permutation (sort l) l.
Proof.
  induction l as [|x l IH]; cbn [sort]; [reflexivity|].
  rewrite sort_insert_perm, IH. reflexivity.
Qed.

Lemma sort_length l : List.length (sort l) = List.length l.
Proof. apply Permutation_length, sort_perm. Qed.

Lemma sort_insert_sorted x l :
  StronglySorted Z.le l -> StronglySorted Z.le (sort_insert x l).
Proof.
  induction 1 as [|y l Hl IH Hy]; cbn [sort_insert].
  - repeat constructor.
  - destruct (Z.leb_spec x y) as [Hxy|Hxy].
    + constructor; [constructor; assumption|].
      constructor; [assumption|].
      rewrite Forall_forall in *. intros z Hz. specialize (Hy z Hz). lia.
    + constructor; [assumption|].
      rewrite Forall_forall in *. intros z Hz.
      apply (Permutation_in _ (sort_insert_perm x l)) in Hz.
      destruct Hz as [<-|Hz]; [lia|auto].
Qed.

Lemma sort_sorted l : StronglySorted Z.le (sort l).
Proof.
  induction l as [|x l IH]; cbn [sort]; [constructor|].
  apply sort_insert_sorted, IH.
Qed.

Lemma sorted_nodup_strict l :
  StronglySorted Z.le l -> NoDup l -> StronglySorted Z.lt l.
Proof.
  induction 1 as [|x l Hl IH Hx]; intros Hnd; [constructor|].
  inversion Hnd as [|? ? Hnotin Hnd']; subst.
  constructor; [auto|].
  rewrite Forall_forall in *. intros z Hz.
  specialize (Hx z Hz). assert (x <> z) by congruence. lia.
Qed.

(** Two strictly ascending lists with the same elements are equal. *)
Lemma strict_sorted_unique l1 : forall l2,
  StronglySorted Z.lt l1 -> StronglySorted Z.lt l2 ->
  (forall x, In x l1 <-> In x l2) -> l1 = l2.
Proof.
  induction l1 as [|x l1 IH]; intros l2 H1 H2 Hin.
  - destruct l2 as [|y l2]; [reflexivity|].
    destruct (proj2 (Hin y) (or_introl eq_refl)).
  - destruct l2 as [|y l2]; [destruct (proj1 (Hin x) (or_introl eq_refl))|].
    inversion H1 as [|? ? H1' Hx]; subst.
    inversion H2 as [|? ? H2' Hy]; subst.
    rewrite Forall_forall in Hx, Hy.
    assert (x = y).
    { destruct (proj1 (Hin x) (or_introl eq_refl)) as [E|Hxl2]; [auto|].
      destruct (proj2 (Hin y) (or_introl eq_refl)) as [E|Hyl1]; [auto|].
      specialize (Hx y Hyl1). specialize (Hy x Hxl2). lia. }
    subst y. f_equal. apply IH; try assumption.
    intros z. split; intros Hz.
    + destruct (proj1 (Hin z) (or_intror Hz)) as [E|]; [|assumption].
      subst z. specialize (Hx x Hz). lia.
    + destruct (proj2 (Hin z) (or_intror Hz)) as [E|]; [|assumption].
      subst z. specialize (Hy x Hz). lia.
Qed.

End SortFacts.

(* ================================================================= *)
(** ** Set bits of a mask, and the conversion of an index to a pattern *)

Section PositionFacts.

Lemma pos_positions_in m : forall b k,
  In k (pos_positions m b)
  <-> b <= k /\ Z.testbit (Zpos m) (k - b) = true.
Proof.
  induction m as [m IH | m IH |]; intros b k; cbn [pos_positions In].
  - rewrite IH. change (Z.pos m~1) with (2 * Z.pos m + Z.b2z true).
    destruct (Z.eq_dec k b) as [->|Hne].
    + rewrite Z.sub_diag, Z.testbit_0_r. intuition lia.
    + split.
      * intros [E|[Hle Hbit]]; [lia|]. split; [lia|].
        replace (k - b) with (Z.succ (k - (b + 1))) by lia.
        rewrite Z.testbit_succ_r by lia. exact Hbit.
      * intros [Hle Hbit]. right. split; [lia|].
        replace (k - b) with (Z.succ (k - (b + 1))) in Hbit by lia.
        rewrite Z.testbit_succ_r in Hbit by lia. exact Hbit.
  - rewrite IH. change (Z.pos m~0) with (2 * Z.pos m + Z.b2z false).
    destruct (Z.eq_dec k b) as [->|Hne].
    + rewrite Z.sub_diag, Z.testbit_0_r. intuition (try lia; discriminate).
    + split.
      * intros [Hle Hbit]. split; [lia|].
        replace (k - b) with (Z.succ (k - (b + 1))) by lia.
        rewrite Z.testbit_succ_r by lia. exact Hbit.
      * intros [Hle Hbit]. split; [lia|].
        replace (k - b) with (Z.succ (k - (b + 1))) in Hbit by lia.
        rewrite Z.testbit_succ_r in Hbit by lia. exact Hbit.
  - change 1 with (2 ^ 0). rewrite Z.pow2_bits_eqb by lia.
    split.
    + intros [<-|[]]. rewrite Z.sub_diag. split; [lia|reflexivity].
    + intros [Hle Hbit]. left. apply Z.eqb_eq in Hbit. lia.
Qed.

Lemma pos_positions_sorted m : forall b,
  StronglySorted Z.lt (pos_positions m b)
  /\ Forall (fun k => b <= k) (pos_positions m b).
Proof.
  induction m as [m IH | m IH |]; intros b; cbn [pos_positions].
  - destruct (IH (b + 1)) as [Hs Hge]. split.
    + constructor; [exact Hs|].
      eapply Forall_impl; [|exact Hge]. cbv beta. intros; lia.
    + constructor; [lia|].
      eapply Forall_impl; [|exact Hge]. cbv beta. intros; lia.
  - destruct (IH (b + 1)) as [Hs Hge]. split; [exact Hs|].
    eapply Forall_impl; [|exact Hge]. cbv beta. intros; lia.
  - split; repeat constructor. lia.
Qed.

Lemma pos_positions_length m : forall b,
  Z.of_nat (List.length (pos_positions m b)) = pos_ones m.
Proof.
  induction m as [m IH | m IH |]; intros b;
    cbn [pos_positions pos_ones List.length]; rewrite ?Nat2Z.inj_succ, ?IH;
    lia.
Qed.

Lemma scatter_positions m : forall b x,
  0 <= b -> 0 <= x < 2 ^ pos_ones m ->
  scatter (pos_positions m b) x = 2 ^ b * pos_deposit m x.
Proof.
  induction m as [m IH | m IH |]; intros b x Hb Hx;
    cbn [pos_positions pos_ones pos_deposit scatter] in *.
  - pose proof (pos_ones_pos m).
    rewrite (Z.add_comm 1), pow2_succ in Hx by lia.
    rewrite IH, pow2_succ, <- b2z_odd_mod; try lia.
    + destruct (Z.odd x); cbn [Z.b2z]; lia.
    + split; [apply Z.div_pos; lia | apply Z.div_lt_upper_bound; lia].
  - rewrite IH, pow2_succ by lia. lia.
  - change (2 ^ 1) with 2 in Hx.
    assert (x = 0 \/ x = 1) as [-> | ->] by lia; cbn [Z.odd Z.div]; lia.
Qed.

Lemma lor_range a b n :
  0 <= n -> 0 <= a < 2 ^ n -> 0 <= b < 2 ^ n -> 0 <= Z.lor a b < 2 ^ n.
Proof.
  intros Hn Ha Hb.
  assert (H0 : 0 <= Z.lor a b) by (apply Z.lor_nonneg; lia).
  split; [exact H0|].
  destruct (Z.eq_dec (Z.lor a b) 0) as [->|Hne]; [lia|].
  apply Z.log2_lt_pow2; [lia|].
  rewrite Z.log2_lor by lia.
  destruct (Z.eq_dec a 0) as [->|Ha0], (Z.eq_dec b 0) as [->|Hb0].
  - rewrite Z.lor_0_l in Hne. lia.
  - assert (Z.log2 b < n) by (apply Z.log2_lt_pow2; lia).
    change (Z.log2 0) with 0. pose proof (Z.log2_nonneg b). lia.
  - assert (Z.log2 a < n) by (apply Z.log2_lt_pow2; lia).
    change (Z.log2 0) with 0. pose proof (Z.log2_nonneg a). lia.
  - assert (Z.log2 a < n) by (apply Z.log2_lt_pow2; lia).
    assert (Z.log2 b < n) by (apply Z.log2_lt_pow2; lia).
    lia.
Qed.

Lemma fold_lor_range n qs : forall acc,
  0 <= n -> 0 <= acc < 2 ^ n ->
  Forall (fun q => 0 <= q < 2 ^ n) qs ->
  0 <= fold_left Z.lor qs acc < 2 ^ n.
Proof.
  induction qs as [|q qs IH]; intros acc Hn Hacc Hqs; cbn [fold_left];
    [exact Hacc|].
  inversion Hqs; subst. apply IH; try assumption.
  apply lor_range; assumption.
Qed.

Lemma testbit_fold_lor_pow2 bits : forall acc k,
  0 <= k -> Forall (fun b => 0 <= b) bits ->
  Z.testbit (fold_left Z.lor (map (Z.pow 2) bits) acc) k
  = Z.testbit acc k || existsb (Z.eqb k) bits.
Proof.
  induction bits as [|b bits IH]; intros acc k Hk Hbits;
    cbn [map fold_left existsb].
  - rewrite orb_false_r. reflexivity.
  - inversion Hbits; subst.
    rewrite IH, Z.lor_spec, Z.pow2_bits_eqb by assumption.
    rewrite (Z.eqb_sym b k), orb_assoc. reflexivity.
Qed.

End PositionFacts.

Section ReassembleFacts.
Context {cfg : Config}.

Lemma land_pow2_testbit p x :
  0 <= p -> Z.land (2 ^ p) x = if Z.testbit x p then 2 ^ p else 0.
Proof.
  intros Hp. apply Z.bits_inj'. intros n Hn.
  rewrite Z.land_spec, Z.pow2_bits_eqb by assumption.
  destruct (Z.eqb_spec p n) as [->|Hne].
  - destruct (Z.testbit x n) eqn:E.
    + rewrite Z.pow2_bits_eqb, Z.eqb_refl by assumption. reflexivity.
    + rewrite Z.bits_0. reflexivity.
  - destruct (Z.testbit x p).
    + rewrite Z.pow2_bits_eqb by assumption.
      destruct (Z.eqb_spec p n); [contradiction|reflexivity].
    + rewrite Z.bits_0. reflexivity.
Qed.

Lemma testbit_odd_div x p : 0 <= p -> Z.testbit x p = Z.odd (x / 2 ^ p).
Proof.
  intros Hp. rewrite Z.testbit_odd, Z.shiftr_div_pow2 by assumption.
  reflexivity.
Qed.

Lemma zth_middle {A : Type} (pre post : list A) (x d : A) :
  zth (pre ++ x :: post) (Z.of_nat (List.length pre)) d = x.
Proof. rewrite zth_nth. apply nth_middle. Qed.

(** The loop of ForceM that turns the winning index into a pattern, on
    ascending powers of two. *)
Lemma reassemble_scatter ks : forall pre b x i,
  StronglySorted Z.lt ks -> Forall (fun k => b <= k) ks ->
  0 <= b -> 0 <= i < 2 ^ b -> 0 <= x ->
  (List.length pre + List.length ks <= 32)%nat ->
  reassemble (List.length ks) (Z.of_nat (List.length pre))
    (pre ++ map (Z.pow 2) ks) x i
  = i + scatter ks (x / 2 ^ Z.of_nat (List.length pre)).
Proof.
  induction ks as [|k ks IH]; intros pre b x i Hs Hge Hb Hi Hx Hlen;
    cbn [List.length reassemble scatter map] in *; [lia|].
  inversion Hs as [|? ? Hs' Hk]; subst. inversion Hge as [|? ? Hbk Hge']; subst.
  rewrite zth_middle.
  set (p := Z.of_nat (List.length pre)) in *.
  assert (Hp : 0 <= p < 32) by lia.
  rewrite shl_uint_pow2, land_pow2_testbit by lia.
  rewrite (testbit_odd_div x p) by lia.
  pose proof (pow2_pos p ltac:(lia)) as Hpp.
  pose proof (pow2_pos k ltac:(lia)) as Hpk.
  assert (Hik : 2 ^ b <= 2 ^ k) by (apply Z.pow_le_mono_r; lia).
  assert (Hdiv : x / 2 ^ (p + 1) = x / 2 ^ p / 2).
  { rewrite pow2_succ by lia. rewrite Z.div_div by lia.
    f_equal. lia. }
  replace (p + 1) with (Z.of_nat (List.length (pre ++ [2 ^ k]))) in *
    by (rewrite length_app; cbn [List.length]; lia).
  replace (pre ++ 2 ^ k :: map (Z.pow 2) ks)
    with ((pre ++ [2 ^ k]) ++ map (Z.pow 2) ks)
    by (rewrite <- app_assoc; reflexivity).
  assert (Hge'' : Forall (fun k' => k + 1 <= k') ks).
  { eapply Forall_impl; [|exact Hk]. cbv beta. intros; lia. }
  destruct (Z.odd (x / 2 ^ p)).
  - destruct (Z.eqb_spec (2 ^ p) 0) as [E|_]; [lia|].
    replace (Z.lor i (2 ^ k)) with (i + 2 ^ k)
      by (rewrite <- (Z.mul_1_r (2 ^ k)) at 2;
          rewrite lor_low_high by lia; lia).
    rewrite (IH (pre ++ [2 ^ k]) (k + 1)); try assumption; try lia.
    + rewrite Hdiv. lia.
    + rewrite pow2_succ by lia. lia.
    + rewrite length_app. cbn [List.length]. lia.
  - cbn [Z.eqb].
    rewrite (IH (pre ++ [2 ^ k]) (k + 1)); try assumption; try lia.
    + rewrite Hdiv. lia.
    + rewrite pow2_succ by lia. lia.
    + rewrite length_app. cbn [List.length]. lia.
Qed.

Lemma fold_right_add_map_shift (f : nat -> Z) n :
  fold_right Z.add 0 (map f (seq 1 n))
  = fold_right Z.add 0 (map (fun p => f (S p)) (seq 0 n)).
Proof. rewrite <- seq_shift, map_map. reflexivity. Qed.

Lemma scatter_sum_selected ks : forall x,
  0 <= x -> scatter ks x = sum_selected (map (Z.pow 2) ks) x.
Proof.
  unfold sum_selected.
  induction ks as [|k ks IH]; intros x Hx; [reflexivity|].
  cbn [scatter map List.length seq fold_right nth].
  rewrite Nat2Z.inj_0, Z.bit0_odd. f_equal.
  rewrite IH by (apply Z.div_pos; lia).
  rewrite fold_right_add_map_shift. f_equal.
  apply map_ext. intros p. cbn [nth].
  rewrite Z.div2_bits, Nat2Z.inj_succ by lia. reflexivity.
Qed.

Lemma sorted_map_pow2 ks :
  StronglySorted Z.lt ks -> Forall (fun k => 0 <= k) ks ->
  StronglySorted Z.lt (map (Z.pow 2) ks).
Proof.
  induction 1 as [|k ks Hs IH Hk]; intros Hge; cbn [map]; [constructor|].
  inversion Hge; subst. constructor; [auto|].
  rewrite Forall_forall in *. intros q Hq. apply in_map_iff in Hq.
  destruct Hq as (k' & <- & Hk'). apply Z.pow_lt_mono_r; auto; lia.
Qed.

Lemma nodup_map_pow2 bits :
  NoDup bits -> Forall (fun b => 0 <= b) bits -> NoDup (map (Z.pow 2) bits).
Proof.
  induction 1 as [|b bits Hnotin Hnd IH]; intros Hge; cbn [map];
    [constructor|].
  inversion Hge; subst. constructor; [|auto].
  intros Hin. apply in_map_iff in Hin. destruct Hin as (b' & E & Hb').
  rewrite Forall_forall in *.
  apply Z.pow_inj_r in E; [congruence|lia|auto|lia].
Qed.

(** The sorted bit powers of distinct qubits are the powers of the set
    bits of their register mask, ascending. *)
Lemma sort_bit_powers_positions bits m :
  NoDup bits -> Forall (fun b => 0 <= b < 32) bits ->
  or_all (map (Z.pow 2) bits) = Zpos m ->
  sort (map (Z.pow 2) bits) = map (Z.pow 2) (pos_positions m 0).
Proof.
  intros Hnd Hbits Hm.
  assert (Hge : Forall (fun b => 0 <= b) bits)
    by (eapply Forall_impl; [|exact Hbits]; cbv beta; intros; lia).
  apply strict_sorted_unique.
  - apply sorted_nodup_strict; [apply sort_sorted|].
    eapply Permutation_NoDup; [symmetry; apply sort_perm|].
    apply nodup_map_pow2; assumption.
  - destruct (pos_positions_sorted m 0) as [Hs Hp].
    apply sorted_map_pow2; assumption.
  - intros q. split; intros Hq.
    + apply (Permutation_in _ (sort_perm _)) in Hq.
      apply in_map_iff in Hq. destruct Hq as (k & <- & Hk).
      apply in_map. apply pos_positions_in.
      pose proof (proj1 (Forall_forall _ _) Hge k Hk) as Hk0.
      cbv beta in Hk0.
      split; [exact Hk0|]. rewrite Z.sub_0_r, <- Hm.
      unfold or_all. rewrite testbit_fold_lor_pow2, Z.bits_0 by assumption.
      cbn [orb]. apply existsb_exists. exists k. split; [exact Hk|].
      apply Z.eqb_refl.
    + apply in_map_iff in Hq. destruct Hq as (k & <- & Hk).
      apply pos_positions_in in Hk. destruct Hk as [Hk0 Hbit].
      rewrite Z.sub_0_r, <- Hm in Hbit.
      unfold or_all in Hbit.
      rewrite testbit_fold_lor_pow2, Z.bits_0 in Hbit by assumption.
      cbn [orb] in Hbit. apply existsb_exists in Hbit.
      destruct Hbit as (k' & Hk' & E). apply Z.eqb_eq in E. subst k'.
      apply (Permutation_in _ (Permutation_sym (sort_perm _))).
      apply in_map. exact Hk'.
Qed.

Lemma or_all_pow2_range bits :
  Forall (fun b => 0 <= b < 32) bits ->
  0 <= or_all (map (Z.pow 2) bits) < 2 ^ 32.
Proof.
  intros H. unfold or_all. apply fold_lor_range; [lia|lia|].
  apply Forall_forall. intros q Hq. apply in_map_iff in Hq.
  destruct Hq as (b & <- & Hb). rewrite Forall_forall in H.
  specialize (H b Hb). split; [apply Z.pow_nonneg; lia|].
  apply Z.pow_lt_mono_r; lia.
Qed.

Lemma or_all_pow2_zero bits :
  Forall (fun b => 0 <= b < 32) bits ->
  or_all (map (Z.pow 2) bits) = 0 -> bits = [].
Proof.
  intros H E. destruct bits as [|b bits]; [reflexivity|]. exfalso.
  inversion H; subst.
  assert (Hbit : Z.testbit (or_all (map (Z.pow 2) (b :: bits))) b = true).
  { unfold or_all. rewrite testbit_fold_lor_pow2; try lia.
    - cbn [existsb]. rewrite Z.eqb_refl, orb_true_r. reflexivity.
    - eapply Forall_impl; [|exact H]. cbv beta. intros; lia. }
  rewrite E, Z.bits_0 in Hbit. discriminate.
Qed.

End ReassembleFacts.

(* ================================================================= *)
(** ** The sampling path of the multi-qubit ForceM *)

Section SampledFacts.
Context {cfg : Config} {R : Real1}.

(** Every run of ForceM with a null [values] and [length != 1], call by
    call: [rp] is the run of ProbMaskAll inside it. *)
Lemma ForceM_bits_sampled_run (w : World) (s : St w) (bits : list Z) :
  List.length bits <> 1%nat ->
  let regMask := or_all (bit_powers bits) in
  let qPowers := sort (bit_powers bits) in
  let lengthPower := toCap (shl_int 1 (Z.of_nat (List.length bits))) in
  exists (doNormalize : bool) (phase : complex) (prob : real1) (s3 : St w),
    let rp := run w (ProbMaskAll regMask
                       (repeat ZERO_R1 (Z.to_nat lengthPower))) s3 in
    let smp := sample prob (result_of rp) lengthPower ONE_R1 in
    let result := reassemble (List.length bits) 0 qPowers (fst smp) 0 in
    calls (run w (ForceM_bits bits None) s)
    = normalize_calls doNormalize
      ++ [Call_GetNonunitaryPhase phase; Call_Rand prob]
      ++ calls rp
      ++ [Call_ApplyM regMask result (cdiv_real phase (rsqrt (snd smp)))]
    /\ result_of (run w (ForceM_bits bits None) s) = result.
Proof.
  intros Hlen. cbv zeta. unfold ForceM_bits.
  destruct (Z.eqb_spec (Z.of_nat (List.length bits)) 1) as [E|_]; [lia|].
  rewrite run_bind.
  destruct (run_normalize_if_needed w s) as (dn & s1 & ->).
  cbn [bind trigger run].
  destruct (answer w complex GetNonunitaryPhaseE s1) as [phase s2].
  destruct (answer w real1 RandE s2) as [prob s3].
  exists dn, phase, prob, s3.
  rewrite run_bind.
  destruct (run w (ProbMaskAll _ _) s3) as [[probArray s4] probs].
  cbn [result_of calls fst snd].
  destruct (sample prob probArray _ ONE_R1) as [index nrmlzr].
  cbn [bind run fst snd].
  destruct (answer w unit _ s4) as [[] s5].
  cbn [calls_of app fst snd]. split; reflexivity.
Qed.

(** C5.  The sorted [qPowers] array holds the bit powers of the selected
    (distinct) qubits in strictly ascending order; the loop that converts
    the winning index adds up [qPowers[p]] over the set bits [p] of the
    index, so bit [p] goes to the [p]-th smallest power; for an index
    below [2^length] the result is the pattern that ProbMaskAll passes to
    ProbMask for that index under the register mask; and what the
    unforced ForceM returns is this conversion of the index chosen by
    the sampling. *)
Theorem ForceM_bits_index_to_pattern
  (w : World) (s : St w) (bits : list Z) :
  (1 < List.length bits)%nat ->
  NoDup bits ->
  Forall (fun b => 0 <= b < 32) bits ->
  let qPowers := sort (bit_powers bits) in
  let regMask := or_all (bit_powers bits) in
  let n := List.length bits in
  StronglySorted Z.lt qPowers
  /\ Permutation qPowers (map (Z.pow 2) bits)
  /\ (forall index, 0 <= index ->
        reassemble n 0 qPowers index 0 = sum_selected qPowers index)
  /\ (forall index, 0 <= index < 2 ^ Z.of_nat n ->
        reassemble n 0 qPowers index 0 = mask_pattern regMask index)
  /\ (exists (prob : real1) (probArray : list real1),
        result_of (run w (ForceM_bits bits None) s)
        = reassemble n 0 qPowers
            (fst (sample prob probArray (toCap (shl_int 1 (Z.of_nat n)))
                    ONE_R1)) 0).
Proof.
  intros Hlen Hnd Hbits. cbv zeta.
  assert (Hge : Forall (fun b => 0 <= b) bits)
    by (eapply Forall_impl; [|exact Hbits]; cbv beta; intros; lia).
  rewrite bit_powers_pow2 by assumption.
  pose proof (or_all_pow2_range bits Hbits) as Hrange.
  destruct (or_all (map (Z.pow 2) bits)) as [|m|m] eqn:Hm; [| |lia].
  { apply or_all_pow2_zero in Hm; [|assumption]. subst bits.
    cbn [List.length] in Hlen. lia. }
  pose proof (sort_bit_powers_positions bits m Hnd Hbits Hm) as Hsort.
  destruct (pos_positions_sorted m 0) as [Hs Hp].
  assert (Hn : List.length bits = List.length (pos_positions m 0)).
  { rewrite <- (length_map (Z.pow 2) bits), <- sort_length, Hsort.
    apply length_map. }
  assert (Hn32 : (List.length (pos_positions m 0) <= 32)%nat).
  { pose proof (pos_positions_length m 0).
    pose proof (pos_ones_le_bits m).
    pose proof (pos_bits_le m 32 ltac:(lia) ltac:(lia)). lia. }
  assert (Hcap : 2 ^ 32 <= 2 ^ capBits)
    by (apply Z.pow_le_mono_r; pose proof capBits_lo; lia).
  assert (Hre : forall index, 0 <= index ->
            reassemble (List.length bits) 0 (sort (map (Z.pow 2) bits)) index 0
            = scatter (pos_positions m 0) index).
  { intros index Hi. rewrite Hsort, Hn.
    pose proof (reassemble_scatter (pos_positions m 0) [] 0 index 0) as L.
    cbn [List.length app Z.of_nat] in L. change (2 ^ 0) with 1 in L.
    rewrite Z.div_1_r, Z.add_0_l in L. apply L; try assumption; lia. }
  split; [|split; [|split; [|split]]].
  - rewrite Hsort. apply sorted_map_pow2; assumption.
  - apply sort_perm.
  - intros index Hi. rewrite Hre by assumption.
    rewrite Hsort. apply scatter_sum_selected. assumption.
  - intros index Hi. rewrite Hre by lia.
    assert (Hpc : 2 ^ Z.of_nat (List.length bits) = 2 ^ pos_ones m)
      by (rewrite Hn, pos_positions_length; reflexivity).
    rewrite mask_pattern_deposit; cbn [popcount deposit]; try lia.
    rewrite scatter_positions by lia. change (2 ^ 0) with 1. lia.
  - destruct (ForceM_bits_sampled_run w s bits ltac:(lia))
      as (dn & phase & prob & s3 & _ & Hres).
    cbv zeta in Hres. rewrite bit_powers_pow2 in Hres by assumption.
    eexists _, _. rewrite Hm in Hres. exact Hres.
Qed.

End SampledFacts.

(* ================================================================= *)
(** ** The sampling walk *)

Section WalkFacts.
Context {cfg : Config} {R : Real1}.

(** The loop runs [t] iterations when the cumulative probability is
    below the threshold before each of the first [t] entries and either
    the array ends there or the cumulative probability is not below the
    threshold any more. *)
Lemma walk_loop_steps prob lengthPower : forall t rest pre w fuel,
  w_lcv w = Z.of_nat (List.length pre) ->
  lengthPower = Z.of_nat (List.length (pre ++ rest)) ->
  lengthPower < 2 ^ capBits ->
  (t <= List.length rest)%nat -> (t <= fuel)%nat ->
  (forall j, (j < t)%nat ->
     rlt (fold_left radd (firstn j rest) (w_lowerProb w)) prob = true) ->
  ((t < List.length rest)%nat ->
     rlt (fold_left radd (firstn t rest) (w_lowerProb w)) prob = false) ->
  walk_loop fuel prob (pre ++ rest) lengthPower w
  = walk_steps (firstn t rest) w.
Proof.
  induction t as [|t IH]; intros rest pre w fuel Hlcv HL Hcap Ht Hfuel Hlt Hstop.
  - cbn [firstn walk_steps]. destruct fuel as [|fuel]; [reflexivity|].
    cbn [walk_loop]. destruct rest as [|p rest].
    + rewrite app_nil_r in HL.
      destruct (Z.ltb_spec (w_lcv w) lengthPower); [lia|].
      rewrite andb_false_r. reflexivity.
    + cbn [firstn fold_left List.length] in Hstop.
      rewrite Hstop by lia. reflexivity.
  - destruct rest as [|p rest]; [cbn [List.length] in Ht; lia|].
    destruct fuel as [|fuel]; [lia|].
    cbn [firstn walk_steps walk_loop].
    pose proof (Hlt 0%nat ltac:(lia)) as H0. cbn [firstn fold_left] in H0.
    rewrite H0. rewrite length_app in HL. cbn [List.length] in HL, Ht.
    destruct (Z.ltb_spec (w_lcv w) lengthPower); [|lia].
    cbn [andb]. rewrite Hlcv at 1. rewrite zth_middle.
    replace (pre ++ p :: rest) with ((pre ++ [p]) ++ rest)
      by (rewrite <- app_assoc; reflexivity).
    assert (Hlcv' : w_lcv (walk_step p w)
                    = Z.of_nat (List.length (pre ++ [p]))).
    { rewrite length_app. cbn [List.length].
      unfold walk_step. destruct (rle (w_largestProb w) p); cbn [w_lcv];
        rewrite toCap_small; lia. }
    assert (Hlow : w_lowerProb (walk_step p w) = radd (w_lowerProb w) p).
    { unfold walk_step. destruct (rle (w_largestProb w) p); reflexivity. }
    apply IH; try assumption; try lia.
    + rewrite !length_app. cbn [List.length]. lia.
    + intros j Hj. rewrite Hlow. apply (Hlt (S j)). lia.
    + intros Hlt'. rewrite Hlow. apply Hstop. cbn [List.length]. lia.
Qed.

(** The walk has ended within [lengthPower - lcv] iterations: more fuel
    changes nothing. *)
Lemma walk_loop_enough_fuel prob probArray lengthPower : forall n fuel w,
  0 <= w_lcv w -> lengthPower < 2 ^ capBits ->
  (Z.to_nat (lengthPower - w_lcv w) <= n)%nat -> (n <= fuel)%nat ->
  walk_loop fuel prob probArray lengthPower w
  = walk_loop n prob probArray lengthPower w.
Proof.
  induction n as [|n IH]; intros fuel w H0 Hcap Hn Hfuel.
  - destruct fuel as [|fuel]; [reflexivity|]. cbn [walk_loop].
    destruct (Z.ltb_spec (w_lcv w) lengthPower); [lia|].
    rewrite andb_false_r. reflexivity.
  - destruct fuel as [|fuel]; [lia|]. cbn [walk_loop].
    destruct (rlt (w_lowerProb w) prob); [|reflexivity].
    destruct (Z.ltb_spec (w_lcv w) lengthPower); [|reflexivity].
    cbn [andb].
    assert (Hlcv : w_lcv (walk_step (zth probArray (w_lcv w) ZERO_R1) w)
                   = w_lcv w + 1).
    { unfold walk_step. destruct (rle _ _); cbn [w_lcv];
        apply toCap_small; lia. }
    apply IH; rewrite ?Hlcv; lia.
Qed.

Lemma walk_steps_lcv : forall ps w,
  0 <= w_lcv w -> w_lcv w + Z.of_nat (List.length ps) < 2 ^ capBits ->
  w_lcv (walk_steps ps w) = w_lcv w + Z.of_nat (List.length ps).
Proof.
  induction ps as [|p ps IH]; intros w H0 Hcap; cbn [walk_steps List.length] in *;
    [lia|].
  assert (Hlcv : w_lcv (walk_step p w) = w_lcv w + 1).
  { unfold walk_step. destruct (rle (w_largestProb w) p); cbn [w_lcv];
      apply toCap_small; lia. }
  rewrite IH; lia.
Qed.

Lemma walk_steps_remembers {L : Real1Laws R} : forall ps pre w r,
  w_lcv w = Z.of_nat (List.length pre) ->
  Z.of_nat (List.length (pre ++ ps)) < 2 ^ capBits ->
  remembers (pre ++ ps) pre w r ->
  exists r', remembers (pre ++ ps) (pre ++ ps) (walk_steps ps w) r'.
Proof.
  induction ps as [|p ps IH]; intros pre w r Hlcv Hcap Hrem;
    cbn [walk_steps].
  - rewrite app_nil_r in *. exists r. exact Hrem.
  - replace (pre ++ p :: ps) with ((pre ++ [p]) ++ ps) in *
      by (rewrite <- app_assoc; reflexivity).
    assert (Hp : nth (List.length pre) ((pre ++ [p]) ++ ps) ZERO_R1 = p).
    { rewrite <- app_assoc. apply nth_middle. }
    assert (Hlcv' : w_lcv (walk_step p w)
                    = Z.of_nat (List.length (pre ++ [p]))).
    { rewrite !length_app in *. cbn [List.length] in *.
      unfold walk_step. destruct (rle (w_largestProb w) p); cbn [w_lcv];
        rewrite toCap_small; lia. }
    destruct Hrem as (Hr & Hres & Hn & Hl & Hmax & Hlast).
    unfold walk_step in *.
    destruct (rle (w_largestProb w) p) eqn:Hle.
    + apply (IH (pre ++ [p]) _ (List.length pre)); try assumption.
      unfold remembers. cbn [w_result w_nrmlzr w_largestProb].
      rewrite Hp, length_app. cbn [List.length].
      refine (conj _ (conj _ (conj _ (conj _ (conj _ _)))));
        try reflexivity; try lia.
      intros j Hj. destruct (Nat.eq_dec j (List.length pre)) as [->|Hne].
      * rewrite Hp. apply rle_refl.
      * apply rle_trans with (nth r ((pre ++ [p]) ++ ps) ZERO_R1).
        -- apply Hmax. lia.
        -- rewrite <- Hl. exact Hle.
    + apply (IH (pre ++ [p]) _ r); try assumption.
      unfold remembers. cbn [w_result w_nrmlzr w_largestProb].
      rewrite length_app. cbn [List.length].
      refine (conj _ (conj _ (conj _ (conj _ (conj _ _)))));
        try assumption; try lia.
      * intros j Hj. destruct (Nat.eq_dec j (List.length pre)) as [->|Hne].
        -- rewrite Hp. apply rle_total. rewrite <- Hl. exact Hle.
        -- apply Hmax. lia.
      * intros j Hj. destruct (Nat.eq_dec j (List.length pre)) as [->|Hne].
        -- rewrite Hp, <- Hl. exact Hle.
        -- apply Hlast. lia.
Qed.

Lemma walk_steps_from_start {L : Real1Laws R} (probArray : list real1)
  (nrmlzr0 : real1) (result0 : Z) :
  0 < Z.of_nat (List.length probArray) < 2 ^ capBits ->
  Forall (fun p => rle ZERO_R1 p = true) probArray ->
  exists r,
    remembers probArray probArray
      (walk_steps probArray (mkWalk 0 ZERO_R1 ZERO_R1 nrmlzr0 result0)) r.
Proof.
  intros HL Hnonneg.
  destruct probArray as [|p0 ps]; [cbn [List.length] in HL; lia|].
  inversion Hnonneg as [|? ? Hp0 _]; subst.
  cbn [walk_steps]. unfold walk_step at 1.
  cbn [w_largestProb w_lcv w_lowerProb]. rewrite Hp0.
  apply (walk_steps_remembers ps [p0] _ 0%nat).
  - cbn [w_lcv List.length]. apply toCap_small. lia.
  - exact (proj2 HL).
  - unfold remembers.
    cbn [List.length w_result w_nrmlzr w_largestProb app nth].
    refine (conj _ (conj _ (conj _ (conj _ (conj _ _)))));
      try reflexivity; try lia.
    intros j Hj. replace j with 0%nat by lia. apply rle_refl.
Qed.

(** What the walk selects.  (1) When it stops before the last entry, at
    entry [k] (the cumulative probability is below the threshold before
    each of the entries [0..k] and not below it after entry [k]), the
    index [k] is selected with [probArray[k]] as normalizer.  (2) When the
    cumulative probability stays below the threshold to the end and no
    probability is negative, the selected index is that of the largest
    probability, the last one among equals, and the normalizer is that
    largest probability. *)
Lemma sample_walk {L : Real1Laws R}
  (prob : real1) (probArray : list real1) (nrmlzr0 : real1) :
  let lengthPower := Z.of_nat (List.length probArray) in
  0 < lengthPower < 2 ^ capBits ->
  (forall k,
      (k + 1 < List.length probArray)%nat ->
      (forall j, (j <= k)%nat -> rlt (cumul probArray j) prob = true) ->
      rlt (cumul probArray (S k)) prob = false ->
      sample prob probArray lengthPower nrmlzr0
      = (Z.of_nat k, nth k probArray ZERO_R1))
  /\ ((forall j, (j <= List.length probArray)%nat ->
         rlt (cumul probArray j) prob = true) ->
      Forall (fun p => rle ZERO_R1 p = true) probArray ->
      exists r,
        (r < List.length probArray)%nat
        /\ sample prob probArray lengthPower nrmlzr0
           = (Z.of_nat r, nth r probArray ZERO_R1)
        /\ (forall j, (j < List.length probArray)%nat ->
              rle (nth j probArray ZERO_R1) (nth r probArray ZERO_R1) = true)
        /\ (forall j, (r < j < List.length probArray)%nat ->
              rle (nth r probArray ZERO_R1) (nth j probArray ZERO_R1)
              = false)).
Proof.
  cbv zeta. intros HL.
  set (w0 := mkWalk 0 ZERO_R1 ZERO_R1 nrmlzr0
               (toCap (Z.of_nat (List.length probArray) - 1))).
  split.
  - intros k Hk Hbelow Hstop. unfold sample. fold w0.
    rewrite (walk_loop_steps prob _ (S k) probArray [] w0); try reflexivity;
      try lia.
    + assert (Hlcv : w_lcv (walk_steps (firstn (S k) probArray) w0)
                     = Z.of_nat (S k)).
      { rewrite walk_steps_lcv; rewrite ?length_firstn; cbn [w_lcv w0]; lia. }
      rewrite Hlcv.
      destruct (Z.ltb_spec (Z.of_nat (S k))
                  (Z.of_nat (List.length probArray))); [|lia].
      replace (Z.of_nat (S k) - 1) with (Z.of_nat k) by lia.
      rewrite toCap_small by lia. rewrite zth_nth. reflexivity.
    + intros j Hj. apply Hbelow. lia.
    + intros _. exact Hstop.
  - intros Hbelow Hnonneg. unfold sample. fold w0.
    rewrite (walk_loop_steps prob _ (List.length probArray) probArray [] w0);
      try reflexivity; try lia.
    + rewrite firstn_all.
      assert (Hlcv : w_lcv (walk_steps probArray w0)
                     = Z.of_nat (List.length probArray)).
      { rewrite walk_steps_lcv; cbn [w_lcv w0]; lia. }
      rewrite Hlcv, Z.ltb_irrefl.
      destruct (walk_steps_from_start probArray nrmlzr0
                  (toCap (Z.of_nat (List.length probArray) - 1)) HL Hnonneg)
        as (r & Hr & Hres & Hn & Hl & Hmax & Hlast).
      fold w0 in Hres, Hn. exists r. rewrite Hres, Hn.
      repeat split; assumption.
    + intros j Hj. apply Hbelow. lia.
Qed.

Lemma run_ProbMaskAll_length (w : World) (s : St w) mask probsArray :
  List.length (result_of (run w (ProbMaskAll mask probsArray) s))
  = List.length probsArray.
Proof.
  rewrite ProbMaskAll_fill.
  destruct (run_fill w (fun lcv => ProbMaskE mask (mask_pattern mask lcv))
              (Z.to_nat (mask_lengthPower mask)) 0 probsArray s)
    as (xs & s' & _ & ->).
  cbn [result_of fst]. apply zstore_seq_length.
Qed.

(** C4, as the code has it.  In every run of the unforced ForceM on 2 to
    30 qubits the index and the normalizer come from the walk over the
    array that ProbMaskAll filled, and ApplyM is given the pattern of that
    index and [phase / sqrt] of that normalizer.  The walk goes on while
    the cumulative probability is below the threshold drawn.  (1) When it
    stops before the last entry, at entry [k], the index [k] is selected
    with [probArray[k]] as normalizer.  (2) When the cumulative
    probability stays below the threshold to the end and no probability
    is negative, the selected index is that of the largest probability,
    the last one among equals, and the normalizer is that largest
    probability: it is nonzero only if some probability is. *)
Theorem ForceM_bits_sampled_selection {L : Real1Laws R}
  (w : World) (s : St w) (bits : list Z) :
  (1 < List.length bits <= 30)%nat ->
  let regMask := or_all (bit_powers bits) in
  let qPowers := sort (bit_powers bits) in
  let lengthPower := 2 ^ Z.of_nat (List.length bits) in
  exists (doNormalize : bool) (phase : complex) (prob : real1) (s3 : St w),
    let rp := run w (ProbMaskAll regMask
                       (repeat ZERO_R1 (Z.to_nat lengthPower))) s3 in
    let probArray := result_of rp in
    let smp := sample prob probArray lengthPower ONE_R1 in
    calls (run w (ForceM_bits bits None) s)
    = normalize_calls doNormalize
      ++ [Call_GetNonunitaryPhase phase; Call_Rand prob]
      ++ calls rp
      ++ [Call_ApplyM regMask
            (reassemble (List.length bits) 0 qPowers (fst smp) 0)
            (cdiv_real phase (rsqrt (snd smp)))]
    /\ Z.of_nat (List.length probArray) = lengthPower
    /\ (forall k,
          (k + 1 < List.length probArray)%nat ->
          (forall j, (j <= k)%nat -> rlt (cumul probArray j) prob = true) ->
          rlt (cumul probArray (S k)) prob = false ->
          smp = (Z.of_nat k, nth k probArray ZERO_R1))
    /\ ((forall j, (j <= List.length probArray)%nat ->
           rlt (cumul probArray j) prob = true) ->
        Forall (fun p => rle ZERO_R1 p = true) probArray ->
        exists r,
          (r < List.length probArray)%nat
          /\ smp = (Z.of_nat r, nth r probArray ZERO_R1)
          /\ (forall j, (j < List.length probArray)%nat ->
                rle (nth j probArray ZERO_R1) (nth r probArray ZERO_R1)
                = true)
          /\ (forall j, (r < j < List.length probArray)%nat ->
                rle (nth r probArray ZERO_R1) (nth j probArray ZERO_R1)
                = false)).
Proof.
  intros Hlen. cbv zeta.
  destruct (ForceM_bits_sampled_run w s bits ltac:(lia))
    as (dn & phase & prob & s3 & Hcalls & _).
  cbv zeta in Hcalls.
  rewrite shl_int_pow2 in Hcalls by lia.
  exists dn, phase, prob, s3.
  split; [exact Hcalls|].
  set (n := Z.of_nat (List.length bits)) in *.
  assert (Hn : 0 < 2 ^ n < 2 ^ capBits).
  { split; [apply pow2_pos; lia|].
    apply Z.pow_lt_mono_r; pose proof capBits_lo; lia. }
  assert (Hlength :
    Z.of_nat (List.length
                (result_of (run w (ProbMaskAll (or_all (bit_powers bits))
                                     (repeat ZERO_R1 (Z.to_nat (2 ^ n)))) s3)))
    = 2 ^ n).
  { rewrite run_ProbMaskAll_length, repeat_length. lia. }
  split; [exact Hlength|].
  pose proof (sample_walk prob
                (result_of (run w (ProbMaskAll (or_all (bit_powers bits))
                                     (repeat ZERO_R1 (Z.to_nat (2 ^ n)))) s3))
                ONE_R1) as Hwalk.
  cbv zeta in Hwalk. rewrite Hlength in Hwalk.
  exact (Hwalk Hn).
Qed.

End WalkFacts.


(* ================================================================= *)
(** ** A pass of transpositions is an involution *)

Section SwapPass.
Context {R : Real1}.
Variables i0 i1 : Z -> Z.
Hypothesis i0_inj : forall l l', i0 l = i0 l' -> l = l'.
Hypothesis i1_inj : forall l l', i1 l = i1 l' -> l = l'.
Hypothesis i0_i1 : forall l l', i0 l <> i1 l'.

Lemma exchange_pass_untouched : forall n lcv a j,
  (forall l, lcv <= l < lcv + Z.of_nat n -> j <> i0 l /\ j <> i1 l) ->
  exchange_pass i0 i1 n lcv a j = a j.
Proof.
  induction n as [|n IH]; intros lcv a j Hj; cbn [exchange_pass];
    [reflexivity|].
  rewrite IH by (intros l Hl; apply Hj; lia).
  unfold exchange. destruct (Hj lcv ltac:(lia)) as [H0 H1].
  destruct (Z.eqb_spec j (i1 lcv)); [contradiction|].
  destruct (Z.eqb_spec j (i0 lcv)); [contradiction|]. reflexivity.
Qed.

Lemma exchange_pass_touched : forall n lcv a l,
  lcv <= l < lcv + Z.of_nat n ->
  exchange_pass i0 i1 n lcv a (i0 l) = a (i1 l)
  /\ exchange_pass i0 i1 n lcv a (i1 l) = a (i0 l).
Proof.
  induction n as [|n IH]; intros lcv a l Hl; cbn [exchange_pass]; [lia|].
  destruct (Z.eq_dec l lcv) as [->|Hne].
  - rewrite !exchange_pass_untouched.
    + unfold exchange. rewrite !Z.eqb_refl.
      destruct (Z.eqb_spec (i0 lcv) (i1 lcv)) as [E|_];
        [destruct (i0_i1 _ _ E)|]. split; reflexivity.
    + intros l' Hl'. split; [apply not_eq_sym, i0_i1|].
      intros E. apply i1_inj in E. lia.
    + intros l' Hl'. split; [|apply i0_i1].
      intros E. apply i0_inj in E. lia.
  - destruct (IH (lcv + 1) (exchange i0 i1 lcv a) l ltac:(lia)) as [-> ->].
    unfold exchange.
    destruct (Z.eqb_spec (i1 l) (i1 lcv)) as [E|_];
      [apply i1_inj in E; lia|].
    destruct (Z.eqb_spec (i1 l) (i0 lcv)) as [E|_];
      [symmetry in E; destruct (i0_i1 _ _ E)|].
    destruct (Z.eqb_spec (i0 l) (i1 lcv)) as [E|_];
      [destruct (i0_i1 _ _ E)|].
    destruct (Z.eqb_spec (i0 l) (i0 lcv)) as [E|_];
      [apply i0_inj in E; lia|].
    split; reflexivity.
Qed.

Lemma touched_dec : forall n lcv j,
  (exists l, lcv <= l < lcv + Z.of_nat n /\ (j = i0 l \/ j = i1 l))
  \/ (forall l, lcv <= l < lcv + Z.of_nat n -> j <> i0 l /\ j <> i1 l).
Proof.
  induction n as [|n IH]; intros lcv j.
  - right. intros l Hl. lia.
  - destruct (Z.eq_dec j (i0 lcv)) as [E0|N0];
      [left; exists lcv; split; [lia|auto]|].
    destruct (Z.eq_dec j (i1 lcv)) as [E1|N1];
      [left; exists lcv; split; [lia|auto]|].
    destruct (IH (lcv + 1) j) as [(l & Hl & Hj)|Hnone].
    + left. exists l. split; [lia|exact Hj].
    + right. intros l Hl. destruct (Z.eq_dec l lcv) as [->|Hne]; [auto|].
      apply Hnone. lia.
Qed.

Lemma exchange_pass_involutive n lcv a j :
  exchange_pass i0 i1 n lcv (exchange_pass i0 i1 n lcv a) j = a j.
Proof.
  destruct (touched_dec n lcv j) as [(l & Hl & [-> | ->])|Hnone].
  - rewrite (proj1 (exchange_pass_touched n lcv _ l Hl)).
    apply exchange_pass_touched. exact Hl.
  - rewrite (proj2 (exchange_pass_touched n lcv _ l Hl)).
    apply exchange_pass_touched. exact Hl.
  - rewrite !exchange_pass_untouched by assumption. reflexivity.
Qed.

End SwapPass.

(* ================================================================= *)
(** ** Swap *)

Section SwapFacts.
Context {cfg : Config} {R : Real1}.

Lemma testbit_gap k x n :
  0 <= k -> 0 <= n ->
  Z.testbit (gap (2 ^ k) x) n
  = if n <? k then Z.testbit x n
    else if n =? k then false else Z.testbit x (n - 1).
Proof.
  intros Hk Hn. unfold gap.
  replace (2 ^ k - 1) with (Z.ones k) by (rewrite Z.ones_equiv; lia).
  rewrite Z.lor_spec, Z.shiftl_spec', Z.lxor_spec, !Z.land_spec,
    !Z.testbit_ones_nonneg' by lia.
  destruct (Z.ltb_spec n k), (Z.eqb_spec n k), (Z.ltb_spec n 0),
    (Z.ltb_spec (n - 1) 0), (Z.ltb_spec (n - 1) k); try lia; cbn [negb andb];
    rewrite ?(Z.testbit_neg_r x (n - 1)) by lia;
    destruct (Z.testbit x n), (Z.testbit x (n - 1)); reflexivity.
Qed.

Lemma gap_inj k x x' : 0 <= k -> gap (2 ^ k) x = gap (2 ^ k) x' -> x = x'.
Proof.
  intros Hk E. apply Z.bits_inj'. intros n Hn.
  destruct (Z.ltb_spec n k) as [Hlt|Hge].
  - pose proof (testbit_gap k x n Hk Hn) as H1.
    pose proof (testbit_gap k x' n Hk Hn) as H2.
    destruct (Z.ltb_spec n k); [|lia]. congruence.
  - pose proof (testbit_gap k x (n + 1) Hk ltac:(lia)) as H1.
    pose proof (testbit_gap k x' (n + 1) Hk ltac:(lia)) as H2.
    destruct (Z.ltb_spec (n + 1) k); [lia|].
    destruct (Z.eqb_spec (n + 1) k); [lia|].
    replace (n + 1 - 1) with n in * by lia. congruence.
Qed.

Lemma base2_gap lo hi l : base2 lo hi l = gap (2 ^ hi) (gap (2 ^ lo) l).
Proof. reflexivity. Qed.

Lemma base2_inj lo hi l l' :
  0 <= lo -> 0 <= hi -> base2 lo hi l = base2 lo hi l' -> l = l'.
Proof.
  intros Hlo Hhi E. rewrite !base2_gap in E.
  apply gap_inj in E; [|assumption]. apply gap_inj in E; assumption.
Qed.

Lemma base2_lo lo hi l :
  0 <= lo < hi -> Z.testbit (base2 lo hi l) lo = false.
Proof.
  intros H. rewrite base2_gap, testbit_gap by lia.
  destruct (Z.ltb_spec lo hi); [|lia].
  rewrite testbit_gap by lia.
  destruct (Z.ltb_spec lo lo); [lia|]. rewrite Z.eqb_refl. reflexivity.
Qed.

Lemma base2_hi lo hi l :
  0 <= lo < hi -> Z.testbit (base2 lo hi l) hi = false.
Proof.
  intros H. rewrite base2_gap, testbit_gap by lia.
  destruct (Z.ltb_spec hi hi); [lia|]. rewrite Z.eqb_refl. reflexivity.
Qed.

Lemma lor_pow2_inj b b' k :
  0 <= k -> Z.testbit b k = false -> Z.testbit b' k = false ->
  Z.lor b (2 ^ k) = Z.lor b' (2 ^ k) -> b = b'.
Proof.
  intros Hk Hb Hb' E. apply Z.bits_inj'. intros n Hn.
  destruct (Z.eq_dec n k) as [->|Hne]; [congruence|].
  assert (H : Z.testbit (Z.lor b (2 ^ k)) n = Z.testbit (Z.lor b' (2 ^ k)) n)
    by (rewrite E; reflexivity).
  rewrite !Z.lor_spec, Z.pow2_bits_eqb in H by assumption.
  destruct (Z.eqb_spec k n); [lia|]. rewrite !orb_false_r in H. exact H.
Qed.

Lemma index_inj lo hi k l l' :
  0 <= lo < hi -> k = lo \/ k = hi ->
  Z.lor (base2 lo hi l) (2 ^ k) = Z.lor (base2 lo hi l') (2 ^ k) -> l = l'.
Proof.
  intros H Hk E. apply (base2_inj lo hi); try lia.
  apply (lor_pow2_inj _ _ k); try lia; try assumption;
    destruct Hk as [-> | ->]; auto using base2_lo, base2_hi.
Qed.

Lemma index_disjoint lo hi l l' :
  0 <= lo < hi ->
  Z.lor (base2 lo hi l) (2 ^ lo) <> Z.lor (base2 lo hi l') (2 ^ hi).
Proof.
  intros H E.
  assert (Hbit : Z.testbit (Z.lor (base2 lo hi l) (2 ^ lo)) lo
                 = Z.testbit (Z.lor (base2 lo hi l') (2 ^ hi)) lo)
    by (rewrite E; reflexivity).
  rewrite !Z.lor_spec, !Z.pow2_bits_eqb, !base2_lo, Z.eqb_refl in Hbit by lia.
  destruct (Z.eqb_spec hi lo); [lia|]. discriminate.
Qed.

(** Under the identities of real arithmetic, the Pauli-X matrix
    exchanges the two amplitudes. *)
Lemma mtrx_apply_pauliX {L : Real1Laws R} (a0 a1 : complex) :
  mtrx_apply pauliX a0 a1 = (a1, a0).
Proof.
  destruct a0 as [r0 j0], a1 as [r1 j1].
  unfold mtrx_apply, pauliX, cadd, cmul. cbn [nth re im].
  rewrite !rmul_zero_l, !rmul_one_l, !rsub_zero_r, !radd_zero_l,
    !radd_zero_r.
  reflexivity.
Qed.

Lemma apply2x2_at_pauliX {L : Real1Laws R} (o1 o2 base : Z)
  (a a' : Amplitudes) :
  (forall j, a j = a' j) ->
  forall j,
  apply2x2_at pauliX o1 o2 base a j
  = exchange (fun _ => Z.lor base o1) (fun _ => Z.lor base o2) 0 a' j.
Proof.
  intros Ha j. unfold apply2x2_at, write2, write, exchange.
  rewrite mtrx_apply_pauliX. cbn [fst snd].
  rewrite !Ha. reflexivity.
Qed.

Lemma pauliX_pass_exchange {L : Real1Laws R} (lo hi : Z) :
  forall n lcv (a a' : Amplitudes),
  (forall j, a j = a' j) ->
  forall j,
  apply2x2_pass n lcv
    (fun l a => apply2x2_at pauliX (2 ^ lo) (2 ^ hi)
                  (open_gaps [2 ^ lo; 2 ^ hi] l) a) a j
  = exchange_pass (fun l => Z.lor (base2 lo hi l) (2 ^ lo))
      (fun l => Z.lor (base2 lo hi l) (2 ^ hi)) n lcv a' j.
Proof.
  induction n as [|n IH]; intros lcv a a' Ha j;
    cbn [apply2x2_pass exchange_pass]; [apply Ha|].
  apply IH. intros j'.
  rewrite (apply2x2_at_pauliX _ _ _ a a' Ha). reflexivity.
Qed.

Lemma sort_pair x y :
  sort [x; y] = if x <=? y then [x; y] else [y; x].
Proof. reflexivity. Qed.

Lemma Swap_program (q1 q2 : Z) :
  q1 <> q2 -> 0 <= q1 <= 30 -> 0 <= q2 <= 30 ->
  Swap q1 q2
  = trigger (Apply2x2E (2 ^ Z.min q1 q2) (2 ^ Z.max q1 q2) pauliX 2
               [2 ^ Z.min q1 q2; 2 ^ Z.max q1 q2] false).
Proof.
  intros Hne H1 H2. unfold Swap, pair_gate.
  destruct (Z.eqb_spec q1 q2); [contradiction|].
  rewrite !shl_int_pow2, sort_pair by lia.
  destruct (Z.leb_spec (2 ^ q1) (2 ^ q2)) as [Hle|Hgt].
  - apply Z.pow_le_mono_r_iff in Hle; try lia.
    rewrite Z.min_l, Z.max_r by lia. reflexivity.
  - apply Z.pow_lt_mono_r_iff in Hgt; try lia.
    rewrite Z.min_r, Z.max_l by lia. reflexivity.
Qed.

(** C7.  In a world whose Apply2x2 is the one the specification
    describes, two Swaps of distinct qubits leave every amplitude as it
    was.  Each Swap is one call of Apply2x2 on the two sorted bit powers
    with the Pauli-X matrix, and applying that matrix twice to a pair of
    amplitudes gives the pair back. *)
Theorem Swap_twice_restores {L : Real1Laws R}
  (qubitCount : Z)
  (other : forall X : Type, EngE X -> Amplitudes -> X * Amplitudes)
  (q1 q2 : Z) (a : Amplitudes) :
  q1 <> q2 -> 0 <= q1 <= 30 -> 0 <= q2 <= 30 ->
  let r := run (gate_world qubitCount other)
             (bind (Swap q1 q2) (fun _ => Swap q1 q2)) a in
  let call := Call_Apply2x2 (2 ^ Z.min q1 q2) (2 ^ Z.max q1 q2) pauliX 2
                [2 ^ Z.min q1 q2; 2 ^ Z.max q1 q2] false in
  (forall j, (state_of r : Amplitudes) j = a j)
  /\ calls r = [call; call]
  /\ (forall a0 a1,
        mtrx_apply pauliX (fst (mtrx_apply pauliX a0 a1))
          (snd (mtrx_apply pauliX a0 a1)) = (a0, a1)).
Proof.
  intros Hne H1 H2. cbv zeta.
  rewrite Swap_program by assumption.
  cbn [bind trigger run gate_world answer gate_answer St state_of calls
       calls_of fst snd app].
  split; [|split; [reflexivity|]].
  - intros j. unfold Apply2x2_model.
    set (lo := Z.min q1 q2). set (hi := Z.max q1 q2).
    assert (Hlohi : 0 <= lo < hi) by lia.
    set (n := Z.to_nat (Z.shiftr (2 ^ qubitCount) 2)).
    rewrite (pauliX_pass_exchange lo hi n 0 _
               (exchange_pass (fun l => Z.lor (base2 lo hi l) (2 ^ lo))
                  (fun l => Z.lor (base2 lo hi l) (2 ^ hi)) n 0 a)).
    + apply exchange_pass_involutive.
      * intros l l'. apply index_inj; [lia|auto].
      * intros l l'. apply index_inj; [lia|auto].
      * intros l l'. apply index_disjoint. lia.
    + intros j'. apply pauliX_pass_exchange. reflexivity.
  - intros a0 a1. rewrite !mtrx_apply_pauliX. reflexivity.
Qed.

End SwapFacts.

(* ================================================================= *)
(** ** ProbRegAll *)

Section ProbRegAllFacts.
Context {cfg : Config} {R : Real1}.

(** Every run of ProbRegAll on a register of fewer than 32 qubits and
    an array with room. *)
Lemma run_ProbRegAll_spec
  (w : World) (s : St w) (start length : Z) (probsArray : list real1) :
  0 <= length < 32 ->
  2 ^ length <= Z.of_nat (List.length probsArray) ->
  let r := run w (ProbRegAll start length probsArray) s in
  calls r
  = map (fun lcv =>
           Call_ProbReg start length lcv (zth (result_of r) lcv ZERO_R1))
      (map Z.of_nat (seq 0 (Z.to_nat (2 ^ length))))
  /\ List.length (result_of r) = List.length probsArray
  /\ (forall i, 2 ^ length <= i ->
        zth (result_of r) i ZERO_R1 = zth probsArray i ZERO_R1).
Proof.
  intros Hlen Hroom. cbv zeta.
  rewrite ProbRegAll_fill, shl_uint_pow2 by assumption.
  pose proof (pow2_pos length (proj1 Hlen)) as Hn.
  destruct (run_fill_spec w (fun lcv => ProbRegE start length lcv)
              (fun lcv x => Call_ProbReg start length lcv x)
              (Z.to_nat (2 ^ length)) probsArray s)
    as (Hcalls & Hlength & Hrest); [reflexivity|lia|].
  split; [exact Hcalls|]. split; [exact Hlength|].
  intros i Hi. apply Hrest. lia.
Qed.

(** X1.  For a register of fewer than 32 qubits and an array with room
    for [2 ^ length] entries, ProbRegAll makes exactly [2 ^ length]
    calls, the call number [lcv] being [ProbReg(start, length, lcv)],
    whose answer is what entry [lcv] of the array holds afterwards; the
    length of the array is kept and the entries from [2 ^ length] on are
    untouched. *)
Theorem ProbRegAll_fills_in_order
  (w : World) (s : St w) (start length : Z) (probsArray : list real1) :
  0 <= length < 32 ->
  2 ^ length <= Z.of_nat (List.length probsArray) ->
  let r := run w (ProbRegAll start length probsArray) s in
  calls r
  = map (fun lcv =>
           Call_ProbReg start length lcv (zth (result_of r) lcv ZERO_R1))
      (map Z.of_nat (seq 0 (Z.to_nat (2 ^ length))))
  /\ List.length (result_of r) = List.length probsArray
  /\ (forall i, 2 ^ length <= i ->
        zth (result_of r) i ZERO_R1 = zth probsArray i ZERO_R1).
Proof. apply run_ProbRegAll_spec. Qed.

End ProbRegAllFacts.

(* ================================================================= *)
(** ** The range of the sampling walk *)

Section WalkRangeFacts.
Context {cfg : Config} {R : Real1}.

Lemma walk_step_lcv p w :
  0 <= w_lcv w -> w_lcv w + 1 < 2 ^ capBits ->
  w_lcv (walk_step p w) = w_lcv w + 1.
Proof.
  intros H0 H1. unfold walk_step.
  destruct (rle (w_largestProb w) p); cbn [w_lcv]; apply toCap_small; lia.
Qed.

Lemma walk_step_inv probArray lengthPower nrmlzr0 w :
  lengthPower < 2 ^ capBits ->
  0 <= w_lcv w < lengthPower ->
  walk_inv probArray lengthPower nrmlzr0 w ->
  walk_inv probArray lengthPower nrmlzr0
    (walk_step (zth probArray (w_lcv w) ZERO_R1) w).
Proof.
  intros Hcap Hlcv (Hle & Hcases).
  pose proof (walk_step_lcv (zth probArray (w_lcv w) ZERO_R1) w
                ltac:(lia) ltac:(lia)) as Hnext.
  unfold walk_inv. rewrite Hnext. split; [lia|].
  unfold walk_step.
  destruct (rle (w_largestProb w) (zth probArray (w_lcv w) ZERO_R1)) eqn:Hle';
    cbn [w_result w_nrmlzr w_largestProb].
  - left. split; [lia|reflexivity].
  - destruct Hcases as [(Hres & Hn) | (Hres & Hn & Hl & Hnone)].
    + left. split; [lia|exact Hn].
    + right. repeat split; try assumption.
      intros j Hj. destruct (Z.eq_dec j (w_lcv w)) as [->|Hne].
      * rewrite Hl in Hle'. exact Hle'.
      * apply Hnone. lia.
Qed.

Lemma walk_loop_inv prob probArray lengthPower nrmlzr0 : forall fuel w k,
  lengthPower < 2 ^ capBits ->
  0 <= k <= w_lcv w ->
  walk_inv probArray lengthPower nrmlzr0 w ->
  let w' := walk_loop fuel prob probArray lengthPower w in
  k <= w_lcv w' /\ walk_inv probArray lengthPower nrmlzr0 w'.
Proof.
  induction fuel as [|fuel IH]; intros w k Hcap Hk Hinv; cbn [walk_loop].
  - split; [lia|exact Hinv].
  - destruct (rlt (w_lowerProb w) prob); cbn [andb];
      [|split; [lia|exact Hinv]].
    destruct (Z.ltb_spec (w_lcv w) lengthPower) as [Hlt|Hge];
      [|split; [lia|exact Hinv]].
    apply IH; [assumption| |apply walk_step_inv; [assumption|lia|assumption]].
    rewrite walk_step_lcv; lia.
Qed.

(** With a threshold above zero the walk selects an index below
    [lengthPower], and the normalizer is the entry of that index unless
    no entry passed the test [ZERO_R1 <= probArray[lcv]]. *)
Lemma sample_range
  (prob : real1) (probArray : list real1) (lengthPower : Z)
  (nrmlzr0 : real1) :
  0 < lengthPower < 2 ^ capBits ->
  rlt ZERO_R1 prob = true ->
  let smp := sample prob probArray lengthPower nrmlzr0 in
  0 <= fst smp < lengthPower
  /\ (snd smp = zth probArray (fst smp) ZERO_R1
      \/ (fst smp = lengthPower - 1
          /\ snd smp = nrmlzr0
          /\ forall j, 0 <= j < lengthPower ->
               rle ZERO_R1 (zth probArray j ZERO_R1) = false)).
Proof.
  intros HL Hprob. cbv zeta. unfold sample.
  rewrite (toCap_small (lengthPower - 1)) by lia.
  set (w0 := mkWalk 0 ZERO_R1 ZERO_R1 nrmlzr0 (lengthPower - 1)).
  destruct (Z.to_nat lengthPower) as [|fuel] eqn:Hfuel; [lia|].
  cbn [walk_loop]. cbn [w_lowerProb w_lcv w0]. rewrite Hprob.
  destruct (Z.ltb_spec 0 lengthPower) as [_|]; [|lia]. cbn [andb].
  assert (Hinv0 : walk_inv probArray lengthPower nrmlzr0 w0).
  { split; [cbn [w_lcv w0]; lia|]. right.
    cbn [w0 w_result w_nrmlzr w_largestProb w_lcv].
    repeat split. intros j Hj. lia. }
  pose proof (walk_step_inv probArray lengthPower nrmlzr0 w0
                (proj2 HL) ltac:(cbn [w_lcv w0]; lia) Hinv0) as Hinv1.
  cbn [w_lcv w0] in Hinv1.
  destruct (walk_loop_inv prob probArray lengthPower nrmlzr0 fuel
              (walk_step (zth probArray 0 ZERO_R1) w0) 1 (proj2 HL))
    as (Hk & Hle & Hcases); [|exact Hinv1|].
  { rewrite walk_step_lcv; cbn [w_lcv w0]; lia. }
  destruct (Z.ltb_spec
              (w_lcv (walk_loop fuel prob probArray lengthPower
                        (walk_step (zth probArray 0 ZERO_R1) w0)))
              lengthPower) as [Hlt|Hge]; cbn [fst snd].
  - rewrite toCap_small by lia. split; [lia|]. left. reflexivity.
  - destruct Hcases as [(Hres & Hn) | (Hres & Hn & _ & Hnone)].
    + split; [lia|]. left. exact Hn.
    + split; [lia|]. right. repeat split; try assumption.
      intros j Hj. apply Hnone. lia.
Qed.

(** X5.  When the threshold drawn is not above zero the loop of the walk
    is not entered: [lcv] is still 0, the test [lcv < lengthPower]
    holds, and [lcv--] wraps around.  The index selected is the largest
    [bitCapInt], which is not below [lengthPower]. *)
Theorem sample_threshold_not_positive
  (prob : real1) (probArray : list real1) (lengthPower : Z)
  (nrmlzr0 : real1) :
  0 < lengthPower < 2 ^ capBits ->
  rlt ZERO_R1 prob = false ->
  fst (sample prob probArray lengthPower nrmlzr0) = 2 ^ capBits - 1
  /\ lengthPower <= fst (sample prob probArray lengthPower nrmlzr0).
Proof.
  intros HL Hprob.
  assert (E : fst (sample prob probArray lengthPower nrmlzr0)
              = 2 ^ capBits - 1).
  { unfold sample.
    destruct (Z.to_nat lengthPower) as [|fuel] eqn:Hfuel; [lia|].
    cbn [walk_loop w_lowerProb w_lcv]. rewrite Hprob. cbn [andb w_lcv].
    destruct (Z.ltb_spec 0 lengthPower) as [_|]; [|lia]. cbn [fst].
    unfold toCap. change (0 - 1) with (-1).
    rewrite <- (Z.mod_unique_pos (-1) (2 ^ capBits) (-1) (2 ^ capBits - 1));
      lia. }
  rewrite E. split; [reflexivity|lia].
Qed.

End WalkRangeFacts.

(* ================================================================= *)
(** ** ForceMReg: one qubit, and the sampling path *)

Section ForceMRegPathFacts.
Context {cfg : Config} {R : Real1}.

Lemma land_one_odd z : negb (Z.land z 1 =? 0) = Z.odd z.
Proof.
  change 1 with (2 ^ 1 - 1). rewrite land_pred_pow2 by lia.
  change (2 ^ 1) with 2. rewrite Zmod_odd.
  destruct (Z.odd z); reflexivity.
Qed.

(** X2.  On a register of one qubit ForceMReg is the one-qubit ForceM on
    [start] with the lowest bit of [result]: the same calls, the same
    final state, and the value returned is 1 for the outcome true and 0
    for false.  So with [doForce] it returns [result & 1], not
    [result]. *)
Theorem ForceMReg_one_qubit
  (w : World) (s : St w) (start result : Z) (doForce : bool) :
  let r := run w (ForceMReg start 1 result doForce) s in
  let r1 := run w (ForceM start (Z.odd result) doForce) s in
  calls r = calls r1
  /\ state_of r = state_of r1
  /\ result_of r = (if result_of r1 then 1 else 0)
  /\ (doForce = true -> result_of r = result mod 2).
Proof.
  cbv zeta. unfold ForceMReg. cbn [Z.eqb Pos.eqb].
  rewrite land_one_odd, run_bind.
  destruct (ForceM_run w s start (Z.odd result) doForce)
    as (dn & oneChance & prob & phase & _ & Hres).
  cbv zeta in Hres.
  destruct (run w (ForceM start (Z.odd result) doForce) s)
    as [[b s1] tr] eqn:Hrun.
  cbn [run calls state_of result_of fst snd] in *.
  rewrite app_nil_r. repeat split.
  intros ->. subst b. rewrite Zmod_odd. reflexivity.
Qed.

(** Every run of ForceMReg on a register of more than one qubit, call
    by call: [rp] is the run of ProbRegAll inside it. *)
Lemma ForceMReg_run (w : World) (s : St w) (start length result : Z)
  (doForce : bool) :
  length <> 1 ->
  let lengthPower := toCap (shl_int 1 length) in
  exists (doNormalize : bool) (prob : real1) (phase : complex) (s3 : St w),
    let rp := run w (ProbRegAll start length
                       (repeat ZERO_R1 (Z.to_nat lengthPower))) s3 in
    let smp := if doForce then (result, ONE_R1)
               else sample prob (result_of rp) lengthPower ONE_R1 in
    calls (run w (ForceMReg start length result doForce) s)
    = normalize_calls doNormalize
      ++ [Call_Rand prob; Call_GetNonunitaryPhase phase]
      ++ calls rp
      ++ [Call_ApplyM (shl_cap (toCap (lengthPower - 1)) start)
            (shl_cap (fst smp) start) (cdiv_real phase (rsqrt (snd smp)))]
    /\ result_of (run w (ForceMReg start length result doForce) s) = fst smp.
Proof.
  intros Hlen. cbv zeta. unfold ForceMReg.
  destruct (Z.eqb_spec length 1) as [E|_]; [contradiction|].
  rewrite run_bind.
  destruct (run_normalize_if_needed w s) as (dn & s1 & ->).
  cbn [bind trigger run].
  destruct (answer w real1 RandE s1) as [prob s2]. cbn [bind run].
  destruct (answer w complex GetNonunitaryPhaseE s2) as [phase s3].
  exists dn, prob, phase, s3.
  rewrite run_bind.
  destruct (run w (ProbRegAll _ _ _) s3) as [[probArray s4] probs].
  cbn [result_of calls fst snd].
  destruct doForce; cbn [negb].
  - cbn [bind run fst snd]. destruct (answer w unit _ s4) as [[] s5].
    cbn [calls_of app fst snd]. split; reflexivity.
  - destruct (sample prob probArray _ ONE_R1) as [index nrmlzr].
    cbn [bind run fst snd]. destruct (answer w unit _ s4) as [[] s5].
    cbn [calls_of app fst snd]. split; reflexivity.
Qed.

(** The sampling run of ForceMReg on 2 to 30 qubits, its ProbReg calls
    written out. *)
Lemma ForceMReg_sampled_run
  (w : World) (s : St w) (start length result : Z) :
  1 < length <= 30 ->
  let r := run w (ForceMReg start length result false) s in
  exists (doNormalize : bool) (prob : real1) (phase : complex)
         (probArray : list real1) (nrmlzr : real1),
    calls r
    = normalize_calls doNormalize
      ++ [Call_Rand prob; Call_GetNonunitaryPhase phase]
      ++ map (fun lcv =>
                Call_ProbReg start length lcv (zth probArray lcv ZERO_R1))
           (map Z.of_nat (seq 0 (Z.to_nat (2 ^ length))))
      ++ [Call_ApplyM (toCap (Z.shiftl (2 ^ length - 1) start))
            (toCap (Z.shiftl (result_of r) start))
            (cdiv_real phase (rsqrt nrmlzr))]
    /\ Z.of_nat (List.length probArray) = 2 ^ length
    /\ sample prob probArray (2 ^ length) ONE_R1 = (result_of r, nrmlzr).
Proof.
  intros Hlen. cbv zeta.
  destruct (ForceMReg_run w s start length result false ltac:(lia))
    as (dn & prob & phase & s3 & Hcalls & Hres).
  cbv zeta in Hcalls, Hres.
  rewrite shl_int_pow2 in Hcalls, Hres by lia.
  assert (Hn : 0 < 2 ^ length < 2 ^ capBits).
  { split; [apply pow2_pos; lia|].
    apply Z.pow_lt_mono_r; pose proof capBits_lo; lia. }
  rewrite (toCap_small (2 ^ length - 1)) in Hcalls by lia.
  destruct (run_ProbRegAll_spec w s3 start length
              (repeat ZERO_R1 (Z.to_nat (2 ^ length))))
    as (Hprobs & Hlength & _); [lia|rewrite repeat_length; lia|].
  rewrite repeat_length in Hlength.
  set (rp := run w (ProbRegAll start length
                      (repeat ZERO_R1 (Z.to_nat (2 ^ length)))) s3) in *.
  exists dn, prob, phase, (result_of rp),
    (snd (sample prob (result_of rp) (2 ^ length) ONE_R1)).
  rewrite Hres. split; [|split].
  - rewrite Hcalls, Hprobs. reflexivity.
  - lia.
  - destruct (sample prob (result_of rp) (2 ^ length) ONE_R1). reflexivity.
Qed.

(** X3.  With [doForce] false and a register of 2 to 30 qubits, ForceMReg
    makes, in order: the optional NormalizeState, one Rand,
    GetNonunitaryPhase, the [2 ^ length] ProbReg calls of ProbRegAll, and
    one ApplyM with the mask [(2^length - 1) << start], the pattern
    [index << start] and [phase / sqrt(nrmlzr)]; it returns the index
    itself, not the shifted pattern.  When the threshold drawn is above
    zero, the index is below [2 ^ length] and the normalizer is the
    answer of ProbReg for that very index, unless no answer passed the
    test [ZERO_R1 <= probArray[lcv]], in which case the index is the last
    one and the normalizer is still [ONE_R1].  The supplied [result] is
    not used. *)
Theorem ForceMReg_sampled_index_and_normalizer
  (w : World) (s : St w) (start length result : Z) :
  1 < length <= 30 ->
  let r := run w (ForceMReg start length result false) s in
  exists (doNormalize : bool) (prob : real1) (phase : complex)
         (probArray : list real1) (nrmlzr : real1),
    calls r
    = normalize_calls doNormalize
      ++ [Call_Rand prob; Call_GetNonunitaryPhase phase]
      ++ map (fun lcv =>
                Call_ProbReg start length lcv (zth probArray lcv ZERO_R1))
           (map Z.of_nat (seq 0 (Z.to_nat (2 ^ length))))
      ++ [Call_ApplyM (toCap (Z.shiftl (2 ^ length - 1) start))
            (toCap (Z.shiftl (result_of r) start))
            (cdiv_real phase (rsqrt nrmlzr))]
    /\ (rlt ZERO_R1 prob = true ->
          0 <= result_of r < 2 ^ length
          /\ (nrmlzr = zth probArray (result_of r) ZERO_R1
              \/ (result_of r = 2 ^ length - 1
                  /\ nrmlzr = ONE_R1
                  /\ forall j, 0 <= j < 2 ^ length ->
                       rle ZERO_R1 (zth probArray j ZERO_R1) = false)))
    /\ (forall result',
          ForceMReg start length result' false
          = ForceMReg start length result false).
Proof.
  intros Hlen. cbv zeta.
  destruct (ForceMReg_sampled_run w s start length result Hlen)
    as (dn & prob & phase & probArray & nrmlzr & Hcalls & _ & Hsmp).
  exists dn, prob, phase, probArray, nrmlzr.
  split; [exact Hcalls|]. split.
  - intros Hprob.
    assert (Hn : 0 < 2 ^ length < 2 ^ capBits).
    { split; [apply pow2_pos; lia|].
      apply Z.pow_lt_mono_r; pose proof capBits_lo; lia. }
    pose proof (sample_range prob probArray (2 ^ length) ONE_R1 Hn Hprob)
      as Hr.
    cbv zeta in Hr. rewrite Hsmp in Hr. exact Hr.
  - intros result'. unfold ForceMReg.
    destruct (length =? 1); reflexivity.
Qed.

(** X4.  Which index the sampling of ForceMReg returns, on 2 to 30
    qubits and in exact real arithmetic.  The walk goes over the answers
    of ProbReg while the cumulative probability is below the threshold
    drawn.  (1) When it stops before the last entry, at entry [k], the
    value returned is [k] and the normalizer is the answer for [k].
    (2) When the cumulative probability stays below the threshold to the
    end and no answer is negative, the value returned is the index of the
    largest answer, the last one among equals, and the normalizer is that
    largest answer. *)
Theorem ForceMReg_sampled_selection {L : Real1Laws R}
  (w : World) (s : St w) (start length result : Z) :
  1 < length <= 30 ->
  let r := run w (ForceMReg start length result false) s in
  exists (doNormalize : bool) (prob : real1) (phase : complex)
         (probArray : list real1) (nrmlzr : real1),
    calls r
    = normalize_calls doNormalize
      ++ [Call_Rand prob; Call_GetNonunitaryPhase phase]
      ++ map (fun lcv =>
                Call_ProbReg start length lcv (zth probArray lcv ZERO_R1))
           (map Z.of_nat (seq 0 (Z.to_nat (2 ^ length))))
      ++ [Call_ApplyM (toCap (Z.shiftl (2 ^ length - 1) start))
            (toCap (Z.shiftl (result_of r) start))
            (cdiv_real phase (rsqrt nrmlzr))]
    /\ Z.of_nat (List.length probArray) = 2 ^ length
    /\ (forall k,
          (k + 1 < List.length probArray)%nat ->
          (forall j, (j <= k)%nat -> rlt (cumul probArray j) prob = true) ->
          rlt (cumul probArray (S k)) prob = false ->
          result_of r = Z.of_nat k /\ nrmlzr = nth k probArray ZERO_R1)
    /\ ((forall j, (j <= List.length probArray)%nat ->
           rlt (cumul probArray j) prob = true) ->
        Forall (fun p => rle ZERO_R1 p = true) probArray ->
        exists i,
          (i < List.length probArray)%nat
          /\ result_of r = Z.of_nat i
          /\ nrmlzr = nth i probArray ZERO_R1
          /\ (forall j, (j < List.length probArray)%nat ->
                rle (nth j probArray ZERO_R1) (nth i probArray ZERO_R1)
                = true)
          /\ (forall j, (i < j < List.length probArray)%nat ->
                rle (nth i probArray ZERO_R1) (nth j probArray ZERO_R1)
                = false)).
Proof.
  intros Hlen. cbv zeta.
  destruct (ForceMReg_sampled_run w s start length result Hlen)
    as (dn & prob & phase & probArray & nrmlzr & Hcalls & HL & Hsmp).
  exists dn, prob, phase, probArray, nrmlzr.
  split; [exact Hcalls|]. split; [exact HL|].
  assert (Hn : 0 < 2 ^ length < 2 ^ capBits).
  { split; [apply pow2_pos; lia|].
    apply Z.pow_lt_mono_r; pose proof capBits_lo; lia. }
  pose proof (sample_walk prob probArray ONE_R1) as Hwalk.
  cbv zeta in Hwalk. rewrite HL, Hsmp in Hwalk.
  destruct (Hwalk Hn) as [Hstop Hfall]. split.
  - intros k Hk Hbelow Hnot.
    specialize (Hstop k Hk Hbelow Hnot). inversion Hstop.
    split; reflexivity.
  - intros Hbelow Hnonneg.
    destruct (Hfall Hbelow Hnonneg) as (i & Hi & Hsel & Hmax & Hlast).
    inversion Hsel. subst. exists i. repeat split; assumption.
Qed.

End ForceMRegPathFacts.

(* ================================================================= *)
(** ** The multi-qubit ForceM: special cases, pattern and normalizer *)

Section ForceMBitsPathFacts.
Context {cfg : Config} {R : Real1}.

(** X6.  On one qubit the multi-qubit ForceM only delegates.  With a
    null [values] its one call is [M(bits[0])]; with [values] it runs the
    one-qubit ForceM on [bits[0]] with [values[0]] and the default
    [doForce]: the same calls and the same final state.  Either way it
    returns [1 << bits[0]] for the outcome true and 0 for false. *)
Theorem ForceM_bits_one_qubit
  (w : World) (s : St w) (bit : Z) (value : bool) (values : list bool) :
  0 <= bit < 32 ->
  let rn := run w (ForceM_bits [bit] None) s in
  let rf := run w (ForceM_bits [bit] (Some (value :: values))) s in
  let r1 := run w (ForceM bit value doForceDefault) s in
  (exists ret : bool,
      calls rn = [Call_M bit ret]
      /\ result_of rn = if ret then 2 ^ bit else 0)
  /\ calls rf = calls r1
  /\ state_of rf = state_of r1
  /\ result_of rf = (if result_of r1 then 2 ^ bit else 0).
Proof.
  intros Hbit. cbv zeta. unfold ForceM_bits.
  cbn [List.length Z.of_nat Pos.of_succ_nat Z.eqb Pos.eqb zth].
  rewrite shl_uint_pow2 by assumption. split.
  - cbn [bind trigger run].
    destruct (answer w bool (ME bit) s) as [ret s1].
    exists ret. split; reflexivity.
  - rewrite run_bind.
    destruct (run w (ForceM bit value doForceDefault) s) as [[b s1] tr].
    cbn [run calls state_of result_of fst snd].
    rewrite app_nil_r. repeat split.
Qed.

Lemma mask_pattern_zero lcv : mask_pattern 0 lcv = lcv.
Proof.
  unfold mask_pattern. pose proof capBits_lo.
  rewrite mask_skipPowers_skips
    by (split; [lia|apply pow2_pos; lia]).
  reflexivity.
Qed.

Lemma lengthPower_zero : toCap (shl_int 1 0) = 1.
Proof. apply (shl_int_pow2 0). lia. Qed.

(** X7.  On no qubit at all ([length] 0) the multi-qubit ForceM takes
    the general path with the register mask 0 and returns 0.  With
    [values] it asks [ProbMask(0, 0)] and calls ApplyM with mask 0,
    pattern 0 and [phase / sqrt] of the answer; with a null [values] it
    draws one random value, asks [ProbMask(0, 0)] once and calls ApplyM
    with mask 0 and pattern 0. *)
Theorem ForceM_bits_no_qubit
  (w : World) (s : St w) (values : list bool) :
  let rf := run w (ForceM_bits [] (Some values)) s in
  let rn := run w (ForceM_bits [] None) s in
  result_of rf = 0
  /\ result_of rn = 0
  /\ (exists (doNormalize : bool) (phase : complex) (x : real1),
        calls rf
        = normalize_calls doNormalize
          ++ [Call_GetNonunitaryPhase phase; Call_ProbMask 0 0 x;
              Call_ApplyM 0 0 (cdiv_real phase (rsqrt x))])
  /\ (exists (doNormalize : bool) (phase : complex) (prob x : real1)
             (nrm : complex),
        calls rn
        = normalize_calls doNormalize
          ++ [Call_GetNonunitaryPhase phase; Call_Rand prob;
              Call_ProbMask 0 0 x; Call_ApplyM 0 0 nrm]).
Proof.
  cbv zeta.
  assert (Hf : exists (dn : bool) (phase : complex) (x : real1),
             run w (ForceM_bits [] (Some values)) s
             = (0, state_of (run w (ForceM_bits [] (Some values)) s),
                normalize_calls dn
                ++ [Call_GetNonunitaryPhase phase; Call_ProbMask 0 0 x;
                    Call_ApplyM 0 0 (cdiv_real phase (rsqrt x))])).
  { unfold ForceM_bits. cbn [List.length Z.of_nat Z.eqb].
    rewrite run_bind.
    destruct (run_normalize_if_needed w s) as (dn & s1 & ->).
    cbn [bind trigger run bit_powers map or_all fold_left forced_result].
    destruct (answer w complex GetNonunitaryPhaseE s1) as [phase s2].
    destruct (answer w real1 _ s2) as [x s3]. cbn [run].
    destruct (answer w unit _ s3) as [[] s4].
    exists dn, phase, x. reflexivity. }
  assert (Hn : exists (dn : bool) (phase : complex) (prob x : real1)
                      (nrm : complex),
             run w (ForceM_bits [] None) s
             = (0, state_of (run w (ForceM_bits [] None) s),
                normalize_calls dn
                ++ [Call_GetNonunitaryPhase phase; Call_Rand prob;
                    Call_ProbMask 0 0 x; Call_ApplyM 0 0 nrm])).
  { destruct (ForceM_bits_sampled_run w s [] ltac:(cbn; lia))
      as (dn & phase & prob & s3 & Hcalls & Hres).
    cbv zeta in Hcalls, Hres.
    cbn [List.length Z.of_nat bit_powers map or_all fold_left sort
         reassemble] in Hcalls, Hres.
    rewrite lengthPower_zero in Hcalls.
    rewrite ProbMaskAll_fill in Hcalls.
    unfold mask_lengthPower in Hcalls.
    rewrite mask_length_popcount in Hcalls
      by (pose proof capBits_lo; split; [lia|apply pow2_pos; lia]).
    cbn [popcount] in Hcalls. rewrite lengthPower_zero in Hcalls.
    change (Z.to_nat 1) with 1%nat in Hcalls.
    cbn [repeat for_lcv] in Hcalls.
    unfold fill_body at 1, trigger in Hcalls. cbn [bind run] in Hcalls.
    rewrite mask_pattern_zero in Hcalls.
    destruct (answer w real1 (ProbMaskE 0 0) s3) as [x s4].
    cbn [run calls result_of fst snd calls_of app] in Hcalls.
    eexists dn, phase, prob, x, _.
    destruct (run w (ForceM_bits [] None) s) as [[res st] tr].
    cbn [calls result_of state_of fst snd] in *.
    rewrite Hres, Hcalls. reflexivity. }
  destruct Hf as (dn & phase & x & Hf).
  destruct Hn as (dn' & phase' & prob' & x' & nrm' & Hn).
  rewrite Hf, Hn. cbn [result_of calls fst snd].
  split; [reflexivity|]. split; [reflexivity|]. split.
  - exists dn, phase, x. reflexivity.
  - exists dn', phase', prob', x', nrm'. reflexivity.
Qed.

Lemma Forall_bits_nonneg bits :
  Forall (fun b => 0 <= b < 32) bits -> Forall (fun b => 0 <= b) bits.
Proof. intros H. eapply Forall_impl; [|exact H]. cbv beta. intros; lia. Qed.

(** The register mask of distinct qubits has as many set bits as there
    are qubits. *)
Lemma popcount_or_all_pow2 bits :
  NoDup bits -> Forall (fun b => 0 <= b < 32) bits ->
  popcount (or_all (map (Z.pow 2) bits)) = Z.of_nat (List.length bits).
Proof.
  intros Hnd Hbits.
  pose proof (or_all_pow2_range bits Hbits) as Hrange.
  destruct (or_all (map (Z.pow 2) bits)) as [|m|m] eqn:Hm; [| |lia].
  - apply or_all_pow2_zero in Hm; [|assumption]. subst bits. reflexivity.
  - cbn [popcount].
    rewrite <- (pos_positions_length m 0).
    rewrite <- (length_map (Z.pow 2) (pos_positions m 0)).
    rewrite <- (sort_bit_powers_positions bits m Hnd Hbits Hm).
    rewrite sort_length, length_map. reflexivity.
Qed.

(** The conversion of an index on the sorted powers of distinct qubits
    gives the pattern ProbMaskAll builds for that index. *)
Lemma reassemble_mask_pattern bits index :
  NoDup bits -> Forall (fun b => 0 <= b < 32) bits ->
  0 <= index < 2 ^ Z.of_nat (List.length bits) ->
  reassemble (List.length bits) 0 (sort (map (Z.pow 2) bits)) index 0
  = mask_pattern (or_all (map (Z.pow 2) bits)) index.
Proof.
  intros Hnd Hbits Hi.
  pose proof (popcount_or_all_pow2 bits Hnd Hbits) as Hpc.
  pose proof (or_all_pow2_range bits Hbits) as Hrange.
  assert (Hcap : 2 ^ 32 <= 2 ^ capBits)
    by (apply Z.pow_le_mono_r; pose proof capBits_lo; lia).
  rewrite mask_pattern_deposit by (rewrite ?Hpc; lia).
  destruct (or_all (map (Z.pow 2) bits)) as [|m|m] eqn:Hm; [| |lia].
  - apply or_all_pow2_zero in Hm; [|assumption]. subst bits.
    cbn [List.length Z.of_nat] in Hi. change (2 ^ 0) with 1 in Hi.
    cbn [List.length reassemble deposit]. lia.
  - cbn [popcount deposit] in *.
    destruct (pos_positions_sorted m 0) as [Hs Hp].
    assert (Hn : List.length bits = List.length (pos_positions m 0)).
    { pose proof (pos_positions_length m 0). lia. }
    assert (Hn32 : (List.length (pos_positions m 0) <= 32)%nat).
    { pose proof (pos_positions_length m 0).
      pose proof (pos_ones_le_bits m).
      pose proof (pos_bits_le m 32 ltac:(lia) ltac:(lia)). lia. }
    rewrite (sort_bit_powers_positions bits m Hnd Hbits Hm), Hn.
    pose proof (reassemble_scatter (pos_positions m 0) [] 0 index 0) as L.
    cbn [List.length app Z.of_nat] in L. change (2 ^ 0) with 1 in L.
    rewrite Z.div_1_r, Z.add_0_l in L.
    rewrite L by (try assumption; lia).
    rewrite scatter_positions by (rewrite ?Hpc; lia).
    change (2 ^ 0) with 1. lia.
Qed.

Lemma mask_pattern_submask mask lcv :
  0 <= mask < 2 ^ capBits -> 0 <= lcv < 2 ^ popcount mask ->
  Z.land (mask_pattern mask lcv) mask = mask_pattern mask lcv.
Proof.
  intros Hm Hl. rewrite mask_pattern_deposit by assumption.
  apply deposit_submask; [lia|assumption].
Qed.

(** Every run of ProbMaskAll on a mask of at most 30 set bits and an
    array with room: the calls in order. *)
Lemma run_ProbMaskAll_calls (w : World) (s : St w) mask probsArray :
  0 <= mask < 2 ^ capBits ->
  popcount mask <= 30 ->
  2 ^ popcount mask <= Z.of_nat (List.length probsArray) ->
  let r := run w (ProbMaskAll mask probsArray) s in
  calls r
  = map (fun lcv =>
           Call_ProbMask mask (mask_pattern mask lcv)
             (zth (result_of r) lcv ZERO_R1))
      (map Z.of_nat (seq 0 (Z.to_nat (2 ^ popcount mask)))).
Proof.
  intros Hm Hpc Hroom. cbv zeta.
  pose proof (popcount_nonneg mask) as Hpc0.
  pose proof (pow2_pos (popcount mask) Hpc0) as Hn.
  rewrite ProbMaskAll_fill, mask_lengthPower_pow2 by assumption.
  destruct (run_fill_spec w
              (fun lcv => ProbMaskE mask (mask_pattern mask lcv))
              (fun lcv x => Call_ProbMask mask (mask_pattern mask lcv) x)
              (Z.to_nat (2 ^ popcount mask)) probsArray s)
    as (Hcalls & _); [reflexivity|lia|].
  exact Hcalls.
Qed.

(** X8.  With a null [values] and 2 to 30 distinct qubits below 32, ForceM
    makes, in order: the optional NormalizeState, GetNonunitaryPhase, one
    Rand, the [2 ^ length] ProbMask calls of ProbMaskAll under the
    register mask, and one ApplyM with the register mask, the pattern
    returned and [phase / sqrt(nrmlzr)].  When the threshold drawn is
    above zero, the pattern returned is the one ProbMaskAll asked about
    at the selected index, it only has bits of the register mask, and
    the normalizer is the answer of ProbMask for that very pattern,
    unless no answer passed the test [ZERO_R1 <= probArray[lcv]], in
    which case the index is the last one and the normalizer is still
    [ONE_R1]. *)
Theorem ForceM_bits_sampled_pattern_and_normalizer
  (w : World) (s : St w) (bits : list Z) :
  (1 < List.length bits <= 30)%nat ->
  NoDup bits ->
  Forall (fun b => 0 <= b < 32) bits ->
  let r := run w (ForceM_bits bits None) s in
  let regMask := or_all (map (Z.pow 2) bits) in
  let n := 2 ^ Z.of_nat (List.length bits) in
  exists (doNormalize : bool) (phase : complex) (prob : real1)
         (probArray : list real1) (index : Z) (nrmlzr : real1),
    calls r
    = normalize_calls doNormalize
      ++ [Call_GetNonunitaryPhase phase; Call_Rand prob]
      ++ map (fun lcv =>
                Call_ProbMask regMask (mask_pattern regMask lcv)
                  (zth probArray lcv ZERO_R1))
           (map Z.of_nat (seq 0 (Z.to_nat n)))
      ++ [Call_ApplyM regMask (result_of r)
            (cdiv_real phase (rsqrt nrmlzr))]
    /\ (index, nrmlzr) = sample prob probArray n ONE_R1
    /\ (rlt ZERO_R1 prob = true ->
          0 <= index < n
          /\ result_of r = mask_pattern regMask index
          /\ Z.land (result_of r) regMask = result_of r
          /\ (nrmlzr = zth probArray index ZERO_R1
              \/ (index = n - 1
                  /\ nrmlzr = ONE_R1
                  /\ forall j, 0 <= j < n ->
                       rle ZERO_R1 (zth probArray j ZERO_R1) = false))).
Proof.
  intros Hlen Hnd Hbits. cbv zeta.
  destruct (ForceM_bits_sampled_run w s bits ltac:(lia))
    as (dn & phase & prob & s3 & Hcalls & Hres).
  cbv zeta in Hcalls, Hres.
  rewrite shl_int_pow2 in Hcalls, Hres by lia.
  rewrite bit_powers_pow2 in Hcalls, Hres by assumption.
  pose proof (popcount_or_all_pow2 bits Hnd Hbits) as Hpc.
  pose proof (or_all_pow2_range bits Hbits) as Hrange.
  assert (Hcap : 2 ^ 32 <= 2 ^ capBits)
    by (apply Z.pow_le_mono_r; pose proof capBits_lo; lia).
  set (n := 2 ^ Z.of_nat (List.length bits)) in *.
  assert (Hn : 0 < n < 2 ^ capBits).
  { unfold n. split; [apply pow2_pos; lia|].
    apply Z.pow_lt_mono_r; pose proof capBits_lo; lia. }
  set (regMask := or_all (map (Z.pow 2) bits)) in *.
  pose proof (run_ProbMaskAll_calls w s3 regMask
                (repeat ZERO_R1 (Z.to_nat n))) as Hprobs.
  cbv zeta in Hprobs. rewrite Hpc in Hprobs. fold n in Hprobs.
  rewrite Hprobs in Hcalls
    by (rewrite ?repeat_length; lia).
  set (rp := run w (ProbMaskAll regMask (repeat ZERO_R1 (Z.to_nat n))) s3)
    in *.
  destruct (sample prob (result_of rp) n ONE_R1) as [index nrmlzr] eqn:Hsmp.
  cbn [fst snd] in Hcalls, Hres.
  exists dn, phase, prob, (result_of rp), index, nrmlzr.
  split; [|split; [symmetry; exact Hsmp|]].
  - rewrite Hcalls, Hres. reflexivity.
  - intros Hprob.
    pose proof (sample_range prob (result_of rp) n ONE_R1 Hn Hprob) as Hr.
    cbv zeta in Hr. rewrite Hsmp in Hr. cbn [fst snd] in Hr.
    destruct Hr as (Hidx & Hnrm).
    assert (Hpat : result_of (run w (ForceM_bits bits None) s)
                   = mask_pattern regMask index).
    { rewrite Hres. apply reassemble_mask_pattern; assumption. }
    split; [exact Hidx|]. split; [exact Hpat|]. split; [|exact Hnrm].
    rewrite Hpat. apply mask_pattern_submask; [lia|].
    rewrite Hpc. exact Hidx.
Qed.

Lemma testbit_fold_lor_selected (f : nat -> Z) (l : list nat) : forall acc k,
  Z.testbit (fold_left (fun acc j => Z.lor acc (f j)) l acc) k
  = Z.testbit acc k || existsb (fun j => Z.testbit (f j) k) l.
Proof.
  induction l as [|j l IH]; intros acc k; cbn [fold_left existsb].
  - rewrite orb_false_r. reflexivity.
  - rewrite IH, Z.lor_spec, orb_assoc. reflexivity.
Qed.

(** X9.  The pattern that ForceM returns for given [values] on more than
    one qubit, all below 32: bit [k] is set exactly when some position
    [j] of the array lists the qubit [k] with [values[j]] true.  So the
    pattern only has bits of the register mask, it is below [2 ^ 32], and
    a qubit listed twice is set as soon as one of its values is true. *)
Theorem ForceM_bits_forced_pattern_bits
  (w : World) (s : St w) (bits : list Z) (values : list bool) :
  (1 < List.length bits)%nat ->
  Forall (fun b => 0 <= b < 32) bits ->
  let result := result_of (run w (ForceM_bits bits (Some values)) s) in
  let regMask := or_all (map (Z.pow 2) bits) in
  (forall k, 0 <= k ->
     Z.testbit result k = true
     <-> exists j, (j < List.length bits)%nat
                   /\ nth j bits 0 = k /\ nth j values false = true)
  /\ Z.land result regMask = result
  /\ 0 <= result < 2 ^ 32.
Proof.
  intros Hlen Hbits. cbv zeta.
  pose proof (Forall_bits_nonneg bits Hbits) as Hge.
  assert (Hres : result_of (run w (ForceM_bits bits (Some values)) s)
                 = or_selected bits values).
  { unfold ForceM_bits.
    destruct (Z.eqb_spec (Z.of_nat (List.length bits)) 1) as [E|_]; [lia|].
    rewrite run_bind.
    destruct (run_normalize_if_needed w s) as (dn & s1 & ->).
    cbn [bind trigger run].
    destruct (answer w complex GetNonunitaryPhaseE s1) as [phase s2].
    rewrite forced_result_or_selected by assumption.
    destruct (answer w real1 _ s2) as [nrmlzr s3]. cbn [run].
    destruct (answer w unit _ s3) as [[] s4]. reflexivity. }
  rewrite Hres.
  assert (Hbit : forall k, 0 <= k ->
            Z.testbit (or_selected bits values) k = true
            <-> exists j, (j < List.length bits)%nat
                          /\ nth j bits 0 = k /\ nth j values false = true).
  { intros k Hk. unfold or_selected.
    rewrite testbit_fold_lor_selected, Z.bits_0. cbn [orb].
    rewrite existsb_exists. split.
    - intros (j & Hj & Hjk). apply in_seq in Hj.
      exists j. split; [lia|].
      destruct (nth j values false); [|rewrite Z.bits_0 in Hjk; discriminate].
      assert (0 <= nth j bits 0).
      { rewrite Forall_forall in Hge. apply Hge, nth_In. lia. }
      rewrite Z.pow2_bits_eqb in Hjk by assumption.
      apply Z.eqb_eq in Hjk. split; [exact Hjk|reflexivity].
    - intros (j & Hj & Hjk & Hv). exists j. split; [apply in_seq; lia|].
      rewrite Hv, Hjk, Z.pow2_bits_eqb by assumption. apply Z.eqb_refl. }
  split; [exact Hbit|].
  assert (Hsub : Z.land (or_selected bits values)
                   (or_all (map (Z.pow 2) bits)) = or_selected bits values).
  { apply Z.bits_inj'. intros k Hk. rewrite Z.land_spec.
    destruct (Z.testbit (or_selected bits values) k) eqn:E; [|reflexivity].
    apply Hbit in E; [|assumption]. destruct E as (j & Hj & Hjk & _).
    unfold or_all.
    rewrite testbit_fold_lor_pow2, Z.bits_0 by assumption. cbn [orb andb].
    apply existsb_exists. exists k. split; [|apply Z.eqb_refl].
    rewrite <- Hjk. apply nth_In. exact Hj. }
  split; [exact Hsub|].
  pose proof (or_all_pow2_range bits Hbits) as Hrange.
  assert (H0 : 0 <= or_selected bits values).
  { rewrite <- Hsub. apply Z.land_nonneg. right. lia. }
  split; [exact H0|].
  destruct (Z.eq_dec (or_selected bits values) 0) as [->|Hne]; [lia|].
  assert (Hm0 : or_all (map (Z.pow 2) bits) <> 0).
  { intros E0. rewrite E0, Z.land_0_r in Hsub. congruence. }
  pose proof (Z.log2_land (or_selected bits values)
                (or_all (map (Z.pow 2) bits)) H0 (proj1 Hrange)) as Hlog.
  rewrite Hsub in Hlog.
  assert (Z.log2 (or_all (map (Z.pow 2) bits)) < 32)
    by (apply Z.log2_lt_pow2; lia).
  apply Z.log2_lt_pow2; lia.
Qed.

End ForceMBitsPathFacts.

(* ================================================================= *)
(** ** The order of the qubits and of the controls *)

Section OrderFacts.
Context {cfg : Config} {R : Real1}.

(** Two ascending lists with the same elements, each as often, are
    equal. *)
Lemma sorted_perm_unique l1 : forall l2,
  StronglySorted Z.le l1 -> StronglySorted Z.le l2 ->
  Permutation l1 l2 -> l1 = l2.
Proof.
  induction l1 as [|x l1 IH]; intros l2 H1 H2 Hp.
  - apply Permutation_nil in Hp. subst. reflexivity.
  - destruct l2 as [|y l2];
      [apply Permutation_sym, Permutation_nil in Hp; discriminate|].
    inversion H1 as [|? ? H1' Hx]; subst.
    inversion H2 as [|? ? H2' Hy]; subst.
    rewrite Forall_forall in Hx, Hy.
    assert (x = y).
    { assert (Hxin : In x (y :: l2))
        by (apply (Permutation_in _ Hp); left; reflexivity).
      assert (Hyin : In y (x :: l1))
        by (apply (Permutation_in _ (Permutation_sym Hp)); left;
            reflexivity).
      destruct Hxin as [E|Hxin]; [auto|].
      destruct Hyin as [E|Hyin]; [auto|].
      specialize (Hx y Hyin). specialize (Hy x Hxin). lia. }
    subst y. f_equal. apply IH; try assumption.
    apply Permutation_cons_inv in Hp. exact Hp.
Qed.

Lemma sort_permutation l l' : Permutation l l' -> sort l = sort l'.
Proof.
  intros Hp. apply sorted_perm_unique; try apply sort_sorted.
  rewrite !sort_perm. exact Hp.
Qed.

Lemma or_all_permutation l l' : Permutation l l' -> or_all l = or_all l'.
Proof.
  unfold or_all. intros Hp. generalize 0.
  induction Hp as [|x l l' Hp IH|x y l|l l' l'' Hp1 IH1 Hp2 IH2];
    intros acc; cbn [fold_left].
  - reflexivity.
  - apply IH.
  - f_equal. rewrite <- !Z.lor_assoc. f_equal. apply Z.lor_comm.
  - rewrite IH1. apply IH2.
Qed.

(** X10.  With a null [values] the multi-qubit ForceM does not depend on
    the order in which the qubits are listed: [bits] is used through the
    OR of the bit powers, their sorted array and [length] only, so two
    arrays that are permutations of each other give the same program. *)
Theorem ForceM_bits_order_irrelevant (bits bits' : list Z) :
  Permutation bits bits' ->
  ForceM_bits bits None = ForceM_bits bits' None.
Proof.
  intros Hp. unfold ForceM_bits.
  rewrite <- (Permutation_length Hp).
  destruct (Z.eqb_spec (Z.of_nat (List.length bits)) 1) as [E|_].
  - destruct bits as [|b [|b' bits]]; cbn [List.length] in E; try lia.
    apply Permutation_length_1_inv in Hp. subst bits'. reflexivity.
  - assert (Hpow : Permutation (bit_powers bits) (bit_powers bits'))
      by (apply Permutation_map; exact Hp).
    rewrite (or_all_permutation _ _ Hpow), (sort_permutation _ _ Hpow).
    reflexivity.
Qed.

(** X16.  None of the controlled gates depends on the order in which the
    controls are listed: the controls are used through the OR of their
    bit powers, the sorted array of all bit powers and [controlLen] only,
    so two control arrays that are permutations of each other give the
    same program. *)
Theorem controls_order_irrelevant
  (controls controls' : list Z) (target qubit1 qubit2 : Z)
  (mtrx : list complex) (doCalcNorm : bool) :
  Permutation controls controls' ->
  ApplyControlled2x2 controls target mtrx doCalcNorm
  = ApplyControlled2x2 controls' target mtrx doCalcNorm
  /\ ApplyAntiControlled2x2 controls target mtrx doCalcNorm
     = ApplyAntiControlled2x2 controls' target mtrx doCalcNorm
  /\ ApplyControlledSingleBit controls target mtrx
     = ApplyControlledSingleBit controls' target mtrx
  /\ ApplyAntiControlledSingleBit controls target mtrx
     = ApplyAntiControlledSingleBit controls' target mtrx
  /\ CSwap controls qubit1 qubit2 = CSwap controls' qubit1 qubit2
  /\ AntiCSwap controls qubit1 qubit2 = AntiCSwap controls' qubit1 qubit2
  /\ CSqrtSwap controls qubit1 qubit2 = CSqrtSwap controls' qubit1 qubit2
  /\ AntiCSqrtSwap controls qubit1 qubit2
     = AntiCSqrtSwap controls' qubit1 qubit2
  /\ CISqrtSwap controls qubit1 qubit2 = CISqrtSwap controls' qubit1 qubit2
  /\ AntiCISqrtSwap controls qubit1 qubit2
     = AntiCISqrtSwap controls' qubit1 qubit2.
Proof.
  intros Hp.
  pose proof (Permutation_length Hp) as Hlen.
  assert (Hint : Permutation (map (fun c => toCap (shl_int 1 c)) controls)
                   (map (fun c => toCap (shl_int 1 c)) controls'))
    by (apply Permutation_map; exact Hp).
  assert (Huint : Permutation (map (fun c => toCap (shl_uint 1 c)) controls)
                    (map (fun c => toCap (shl_uint 1 c)) controls'))
    by (apply Permutation_map; exact Hp).
  assert (Hz : forall (l : list Z) (t : Z),
            zth (map (fun c => toCap (shl_int 1 c)) l ++ [t])
              (Z.of_nat (List.length l)) 0 = t).
  { intros l t.
    rewrite <- (length_map (fun c => toCap (shl_int 1 c)) l).
    apply zth_middle. }
  assert (Hc : forall d, ApplyControlled2x2 controls target mtrx d
                         = ApplyControlled2x2 controls' target mtrx d).
  { intros d. unfold ApplyControlled2x2. rewrite !Hz, <- Hlen.
    rewrite (or_all_permutation _ _ Hint).
    rewrite (sort_permutation _ _ (Permutation_app_tail _ Hint)).
    reflexivity. }
  assert (Ha : forall d, ApplyAntiControlled2x2 controls target mtrx d
                         = ApplyAntiControlled2x2 controls' target mtrx d).
  { intros d. unfold ApplyAntiControlled2x2. rewrite !Hz, <- Hlen.
    rewrite (sort_permutation _ _ (Permutation_app_tail _ Hint)).
    reflexivity. }
  assert (Hcp : forall m, controlled_pair m controls qubit1 qubit2
                          = controlled_pair m controls' qubit1 qubit2).
  { intros m. unfold controlled_pair. rewrite <- Hlen.
    rewrite (or_all_permutation _ _ Huint).
    rewrite (sort_permutation _ _ (Permutation_app_tail _ Huint)).
    reflexivity. }
  assert (Hap : forall m, anticontrolled_pair m controls qubit1 qubit2
                          = anticontrolled_pair m controls' qubit1 qubit2).
  { intros m. unfold anticontrolled_pair. rewrite <- Hlen.
    rewrite (sort_permutation _ _ (Permutation_app_tail _ Huint)).
    reflexivity. }
  unfold ApplyControlledSingleBit, ApplyAntiControlledSingleBit,
    CSwap, AntiCSwap, CSqrtSwap, AntiCSqrtSwap, CISqrtSwap, AntiCISqrtSwap.
  rewrite <- Hlen, !Hc, !Ha, !Hcp, !Hap. repeat split.
Qed.

End OrderFacts.

(* ================================================================= *)
(** ** The order of the patterns, and the mask of a register *)

Section PatternOrderFacts.
Context {cfg : Config}.

Lemma pos_deposit_mono m : forall x y,
  0 <= x < y -> y < 2 ^ pos_ones m ->
  pos_deposit m x < pos_deposit m y.
Proof.
  induction m as [m IH | m IH |]; intros x y Hxy Hy;
    cbn [pos_deposit pos_ones] in *.
  - pose proof (pos_ones_pos m).
    rewrite (Z.add_comm 1), pow2_succ in Hy by lia.
    pose proof (Z.div_mod x 2 ltac:(lia)).
    pose proof (Z.div_mod y 2 ltac:(lia)).
    pose proof (Z.mod_pos_bound x 2 ltac:(lia)).
    pose proof (Z.mod_pos_bound y 2 ltac:(lia)).
    destruct (Z.eq_dec (x / 2) (y / 2)) as [E|Hne].
    + rewrite E. lia.
    + assert (pos_deposit m (x / 2) < pos_deposit m (y / 2)); [|lia].
      apply IH; lia.
  - assert (pos_deposit m x < pos_deposit m y); [|lia].
    apply IH; assumption.
  - lia.
Qed.

Lemma pos_deposit_full m : pos_deposit m (2 ^ pos_ones m - 1) = Zpos m.
Proof.
  induction m as [m IH | m IH |]; cbn [pos_deposit pos_ones].
  - pose proof (pos_ones_pos m).
    rewrite (Z.add_comm 1), pow2_succ by lia.
    pose proof (pow2_pos (pos_ones m) ltac:(lia)).
    replace (2 * 2 ^ pos_ones m - 1) with (1 + (2 ^ pos_ones m - 1) * 2)
      by lia.
    rewrite Z.mod_add, Z.div_add by lia.
    change (1 mod 2) with 1. change (1 / 2) with 0.
    rewrite Z.add_0_l, IH. lia.
  - rewrite IH. reflexivity.
  - reflexivity.
Qed.

(** X11.  ProbMaskAll goes through the patterns of the mask in ascending
    order: the pattern of index 0 is 0, the pattern of the last index,
    [2 ^ popcount mask - 1], is the mask itself, and a larger index has a
    larger pattern. *)
Theorem ProbMaskAll_patterns_ascending (mask : Z) :
  0 <= mask < 2 ^ capBits ->
  let n := 2 ^ popcount mask in
  mask_pattern mask 0 = 0
  /\ mask_pattern mask (n - 1) = mask
  /\ (forall lcv lcv', 0 <= lcv < lcv' -> lcv' < n ->
        mask_pattern mask lcv < mask_pattern mask lcv').
Proof.
  intros Hm. cbv zeta.
  assert (Hpc0 : 0 <= popcount mask).
  { destruct mask as [|m|m]; cbn [popcount]; try lia.
    pose proof (pos_ones_pos m). lia. }
  pose proof (pow2_pos (popcount mask) Hpc0) as Hn.
  split; [|split].
  - rewrite mask_pattern_deposit by lia.
    destruct mask as [|m|m]; cbn [deposit]; try reflexivity.
    apply pos_deposit_zero.
  - rewrite mask_pattern_deposit by lia.
    destruct mask as [|m|m]; cbn [deposit popcount]; try lia.
    apply pos_deposit_full.
  - intros lcv lcv' Hl Hl'.
    rewrite !mask_pattern_deposit by lia.
    destruct mask as [|m|m]; cbn [deposit popcount] in *; try lia.
    apply pos_deposit_mono; assumption.
Qed.

(** A mask of [len] ones: it has [len] set bits and the deposit on it
    is the identity. *)
Lemma pos_block m : forall len,
  0 < len -> Zpos m = 2 ^ len - 1 ->
  pos_ones m = len /\ forall x, pos_deposit m x = x.
Proof.
  induction m as [m IH | m IH |]; intros len Hlen E;
    cbn [pos_ones pos_deposit].
  - replace len with ((len - 1) + 1) in E by lia.
    rewrite pow2_succ in E by lia.
    change (Z.pos m~1) with (2 * Z.pos m + 1) in E.
    assert (E' : Z.pos m = 2 ^ (len - 1) - 1) by lia.
    assert (0 < len - 1).
    { destruct (Z.eq_dec len 1) as [->|]; [|lia].
      change (2 ^ (1 - 1)) with 1 in E'. lia. }
    destruct (IH (len - 1) ltac:(lia) E') as [Ho Hd].
    split; [lia|]. intros x. rewrite Hd.
    pose proof (Z.div_mod x 2 ltac:(lia)). lia.
  - replace len with ((len - 1) + 1) in E by lia.
    rewrite pow2_succ in E by lia.
    change (Z.pos m~0) with (2 * Z.pos m) in E. lia.
  - split; [|reflexivity].
    destruct (Z.eq_dec len 1) as [->|Hne]; [reflexivity|].
    replace len with ((len - 1) + 1) in E by lia.
    rewrite pow2_succ in E by lia.
    assert (2 ^ (len - 1) = 1) by lia.
    assert (2 ^ 1 <= 2 ^ (len - 1)) by (apply Z.pow_le_mono_r; lia).
    change (2 ^ 1) with 2 in *. lia.
Qed.

Lemma deposit_shifted mask : 0 < mask -> forall start, 0 <= start ->
  popcount (mask * 2 ^ start) = popcount mask
  /\ forall x, deposit (mask * 2 ^ start) x = deposit mask x * 2 ^ start.
Proof.
  intros Hmask. apply natlike_ind.
  - change (2 ^ 0) with 1. rewrite Z.mul_1_r. split; [reflexivity|].
    intros x. lia.
  - intros start Hs [IHp IHd]. unfold Z.succ. rewrite pow2_succ by lia.
    pose proof (pow2_pos start Hs).
    destruct (mask * 2 ^ start) as [|m|m] eqn:Em; try lia.
    replace (mask * (2 * 2 ^ start)) with (2 * (mask * 2 ^ start)) by lia.
    rewrite Em. change (2 * Z.pos m) with (Z.pos m~0).
    cbn [popcount deposit pos_ones pos_deposit] in *.
    split; [exact IHp|]. intros x. rewrite IHd. lia.
Qed.

(** The mask [(2^length - 1) << start]: its range, its set bits and the
    deposit on it. *)
Lemma register_mask_deposit start length :
  0 <= start -> 0 < length -> start + length <= capBits ->
  let regMask := Z.shiftl (2 ^ length - 1) start in
  0 <= regMask < 2 ^ capBits
  /\ popcount regMask = length
  /\ forall x, deposit regMask x = Z.shiftl x start.
Proof.
  intros Hs Hl Hcap. cbv zeta.
  rewrite Z.shiftl_mul_pow2 by assumption.
  pose proof (pow2_pos start Hs) as Hps.
  assert (Hpl : 2 ^ 1 <= 2 ^ length) by (apply Z.pow_le_mono_r; lia).
  change (2 ^ 1) with 2 in Hpl.
  destruct (2 ^ length - 1) as [|m|m] eqn:Em; try lia.
  destruct (pos_block m length Hl (eq_sym Em)) as [Ho Hd].
  destruct (deposit_shifted (Z.pos m) ltac:(lia) start Hs) as [Hp Hdep].
  cbn [popcount deposit] in Hp, Hdep.
  split; [|split].
  - split; [lia|].
    apply Z.lt_le_trans with (2 ^ length * 2 ^ start); [nia|].
    rewrite <- Z.pow_add_r by lia. apply Z.pow_le_mono_r; lia.
  - lia.
  - intros x. rewrite Hdep, Hd, Z.shiftl_mul_pow2 by assumption.
    reflexivity.
Qed.

Lemma or_all_register start length :
  0 <= start -> 0 <= length ->
  or_all (map (Z.pow 2) (register_qubits start length))
  = Z.shiftl (2 ^ length - 1) start.
Proof.
  intros Hs Hl. unfold register_qubits.
  apply Z.bits_inj'. intros k Hk.
  unfold or_all. rewrite testbit_fold_lor_pow2, Z.bits_0; [|assumption|].
  2:{ apply Forall_forall. intros q Hq. apply in_map_iff in Hq.
      destruct Hq as (i & <- & _). lia. }
  cbn [orb]. rewrite Z.shiftl_spec by assumption.
  replace (2 ^ length - 1) with (Z.ones length)
    by (rewrite Z.ones_equiv; lia).
  destruct (Z.lt_ge_cases k start) as [Hlt|Hge].
  - rewrite Z.testbit_neg_r by lia.
    apply not_true_is_false. intros E. apply existsb_exists in E.
    destruct E as (q & Hq & Ekq). apply Z.eqb_eq in Ekq. subst q.
    apply in_map_iff in Hq. destruct Hq as (i & Hi & _). lia.
  - destruct (Z.lt_ge_cases (k - start) length) as [Hin|Hout].
    + rewrite Z.ones_spec_low by lia.
      apply existsb_exists. exists k. split; [|apply Z.eqb_refl].
      apply in_map_iff. exists (Z.to_nat (k - start)). split; [lia|].
      apply in_seq. lia.
    + rewrite Z.ones_spec_high by lia.
      apply not_true_is_false. intros E. apply existsb_exists in E.
      destruct E as (q & Hq & Ekq). apply Z.eqb_eq in Ekq. subst q.
      apply in_map_iff in Hq. destruct Hq as (i & Hi & Hseq).
      apply in_seq in Hseq. lia.
Qed.

(** X12.  The mask of a register, [(2^length - 1) << start], has
    [length] set bits, and the pattern ProbMaskAll asks about at index
    [lcv] is [lcv << start]: the pattern ForceMReg passes to ApplyM for
    the index [lcv].  For a register within the first 32 qubits this is
    the mask that the multi-qubit ForceM builds from the qubits
    [start, ..., start + length - 1]. *)
Theorem mask_pattern_register (start length lcv : Z) :
  0 <= start -> 0 < length -> start + length <= capBits ->
  0 <= lcv < 2 ^ length ->
  let regMask := Z.shiftl (2 ^ length - 1) start in
  0 <= regMask < 2 ^ capBits
  /\ popcount regMask = length
  /\ mask_pattern regMask lcv = Z.shiftl lcv start
  /\ (start + length <= 32 ->
        or_all (bit_powers (register_qubits start length)) = regMask).
Proof.
  intros Hs Hl Hcap Hlcv. cbv zeta.
  destruct (register_mask_deposit start length Hs Hl Hcap)
    as (Hrange & Hpc & Hdep).
  split; [exact Hrange|]. split; [exact Hpc|]. split.
  - rewrite mask_pattern_deposit by (rewrite ?Hpc; assumption).
    apply Hdep.
  - intros H32. rewrite bit_powers_pow2.
    + apply or_all_register; lia.
    + apply Forall_forall. intros q Hq. unfold register_qubits in Hq.
      apply in_map_iff in Hq. destruct Hq as (i & <- & Hseq).
      apply in_seq in Hseq. lia.
Qed.

End PatternOrderFacts.

(* ================================================================= *)
(** ** The counting loops of ProbMaskAll *)

Section LoopFacts.
Context {cfg : Config}.

Lemma pos_skips_sorted m : forall pw,
  0 < pw ->
  StronglySorted Z.lt (pos_skips m pw)
  /\ Forall (fun p => pw <= p) (pos_skips m pw).
Proof.
  induction m as [m IH | m IH |]; intros pw Hpw; cbn [pos_skips].
  - destruct (IH (2 * pw) ltac:(lia)) as [Hs Hge]. split; [exact Hs|].
    eapply Forall_impl; [|exact Hge]. cbv beta. intros; lia.
  - destruct (IH (2 * pw) ltac:(lia)) as [Hs Hge]. split.
    + constructor; [exact Hs|].
      eapply Forall_impl; [|exact Hge]. cbv beta. intros; lia.
    + constructor; [lia|].
      eapply Forall_impl; [|exact Hge]. cbv beta. intros; lia.
  - split; constructor.
Qed.

Lemma pos_skips_in m : forall b p,
  0 <= b ->
  In p (pos_skips m (2 ^ b))
  <-> exists i, 0 <= i /\ p = 2 ^ (b + i)
                /\ Z.testbit (Zpos m) i = false /\ 2 ^ i < Zpos m.
Proof.
  induction m as [m IH | m IH |]; intros b p Hb; cbn [pos_skips].
  - rewrite <- pow2_succ, IH by lia.
    change (Z.pos m~1) with (2 * Z.pos m + Z.b2z true). split.
    + intros (i & Hi & Hp & Hbit & Hlt).
      exists (Z.succ i). rewrite Z.testbit_succ_r by lia.
      rewrite Z.pow_succ_r by lia. cbn [Z.b2z].
      split; [lia|]. split; [rewrite Hp; f_equal; lia|].
      split; [exact Hbit|lia].
    + intros (i & Hi & Hp & Hbit & Hlt).
      destruct (Z.eq_dec i 0) as [->|Hne];
        [rewrite Z.testbit_0_r in Hbit; discriminate|].
      exists (Z.pred i).
      replace i with (Z.succ (Z.pred i)) in Hbit, Hlt by lia.
      rewrite Z.testbit_succ_r in Hbit by lia.
      rewrite Z.pow_succ_r in Hlt by lia. cbn [Z.b2z] in Hlt.
      split; [lia|]. split; [rewrite Hp; f_equal; lia|].
      split; [exact Hbit|].
      assert (Hne' : 2 ^ Z.pred i <> Z.pos m).
      { intros E. rewrite <- E, Z.pow2_bits_eqb, Z.eqb_refl in Hbit by lia.
        discriminate. }
      lia.
  - rewrite <- pow2_succ by lia. cbn [In]. rewrite IH by lia.
    change (Z.pos m~0) with (2 * Z.pos m + Z.b2z false). split.
    + intros [<- | (i & Hi & Hp & Hbit & Hlt)].
      * exists 0. rewrite Z.testbit_0_r, Z.add_0_r.
        change (2 ^ 0) with 1. cbn [Z.b2z]. repeat split; lia.
      * exists (Z.succ i). rewrite Z.testbit_succ_r by lia.
        rewrite Z.pow_succ_r by lia. cbn [Z.b2z].
        split; [lia|]. split; [rewrite Hp; f_equal; lia|].
        split; [exact Hbit|lia].
    + intros (i & Hi & Hp & Hbit & Hlt).
      destruct (Z.eq_dec i 0) as [->|Hne].
      * left. rewrite Hp, Z.add_0_r. reflexivity.
      * right. exists (Z.pred i).
        replace i with (Z.succ (Z.pred i)) in Hbit, Hlt by lia.
        rewrite Z.testbit_succ_r in Hbit by lia.
        rewrite Z.pow_succ_r in Hlt by lia. cbn [Z.b2z] in Hlt.
        split; [lia|]. split; [rewrite Hp; f_equal; lia|].
        split; [exact Hbit|lia].
  - cbn [In]. split; [contradiction|].
    intros (i & Hi & _ & Hbit & Hlt). exfalso.
    destruct (Z.eq_dec i 0) as [->|Hne]; [discriminate|].
    assert (2 ^ 1 <= 2 ^ i) by (apply Z.pow_le_mono_r; lia).
    change (2 ^ 1) with 2 in *. lia.
Qed.

(** X20.  The two counting loops of ProbMaskAll, for a mask that fits
    [bitCapInt]: both have ended within [capBits] iterations.  The first
    leaves in [length] the number of set bits of the mask.  The second
    leaves in [skipPowersVec], in ascending order and each once, exactly
    the powers [2 ^ k] of the clear bits [k] of the mask that lie below
    the mask. *)
Theorem ProbMaskAll_loops (mask : Z) (fuel : nat) :
  0 <= mask < 2 ^ capBits ->
  (bitFuel <= fuel)%nat ->
  let skipPowersVec := skip_loop fuel mask (not_cap mask) [] in
  (exists ks,
      StronglySorted Z.lt ks
      /\ (forall k, In k ks <-> 0 <= k /\ Z.testbit mask k = true)
      /\ count_bits fuel mask 0 = Z.of_nat (List.length ks))
  /\ StronglySorted Z.lt skipPowersVec
  /\ (forall p, In p skipPowersVec
        <-> exists k, 0 <= k /\ p = 2 ^ k
                      /\ Z.testbit mask k = false /\ 2 ^ k < mask).
Proof.
  intros Hm Hfuel. cbv zeta.
  rewrite count_bits_popcount, skip_loop_skips by assumption.
  destruct mask as [|m|m]; [| |lia]; cbn [popcount skips].
  - split; [|split].
    + exists []. split; [constructor|]. split; [|reflexivity].
      intros k. rewrite Z.bits_0. cbn [In]. intuition discriminate.
    + constructor.
    + intros p. cbn [In]. split; [contradiction|].
      intros (k & Hk & _ & _ & Hlt).
      pose proof (pow2_pos k Hk). lia.
  - split; [|split].
    + exists (pos_positions m 0).
      destruct (pos_positions_sorted m 0) as [Hs _].
      split; [exact Hs|]. split.
      * intros k. rewrite pos_positions_in, Z.sub_0_r. reflexivity.
      * symmetry. apply pos_positions_length.
    + apply (pos_skips_sorted m 1). lia.
    + intros p. change 1 with (2 ^ 0). rewrite pos_skips_in by lia.
      split; intros (i & Hi & Hp & Hrest); exists i;
        (split; [exact Hi|]); (split; [|exact Hrest]);
        rewrite Hp; f_equal; lia.
Qed.

End LoopFacts.

(* ================================================================= *)
(** ** The calls of the controlled gates and of the pair gates *)

Section ControlledGateFacts.
Context {cfg : Config} {R : Real1}.
Local Open Scope eng_scope.

Lemma int_powers_pow2 controls :
  Forall (fun c => 0 <= c <= 30) controls ->
  map (fun c => toCap (shl_int 1 c)) controls = map (Z.pow 2) controls.
Proof.
  intros H. apply map_ext_in. intros c Hc. apply shl_int_pow2.
  rewrite Forall_forall in H. auto.
Qed.

Lemma uint_powers_pow2 controls :
  Forall (fun c => 0 <= c < 32) controls ->
  map (fun c => toCap (shl_uint 1 c)) controls = map (Z.pow 2) controls.
Proof. apply bit_powers_pow2. Qed.

(** The bits of a mask built by OR-ing the powers of a list of qubits. *)
Lemma testbit_or_all_pow2 qubits k :
  0 <= k -> Forall (fun c => 0 <= c) qubits ->
  Z.testbit (or_all (map (Z.pow 2) qubits)) k = true <-> In k qubits.
Proof.
  intros Hk Hge. unfold or_all.
  rewrite testbit_fold_lor_pow2, Z.bits_0 by assumption. cbn [orb].
  rewrite existsb_exists. split.
  - intros (c & Hc & E). apply Z.eqb_eq in E. subst c. exact Hc.
  - intros Hin. exists k. split; [exact Hin|apply Z.eqb_refl].
Qed.

(** OR-ing the power of a qubit into such a mask adds the power when the
    qubit is not in the list and changes nothing when it is. *)
Lemma lor_or_all_pow2 qubits q :
  0 <= q -> Forall (fun c => 0 <= c) qubits ->
  (~ In q qubits ->
     Z.lor (or_all (map (Z.pow 2) qubits)) (2 ^ q)
     = or_all (map (Z.pow 2) qubits) + 2 ^ q)
  /\ (In q qubits ->
        Z.lor (or_all (map (Z.pow 2) qubits)) (2 ^ q)
        = or_all (map (Z.pow 2) qubits)).
Proof.
  intros Hq Hge. split; intros Hin.
  - apply Z.or_to_plus. rewrite Z.land_comm, land_pow2_testbit by assumption.
    destruct (Z.testbit (or_all (map (Z.pow 2) qubits)) q) eqn:E;
      [|reflexivity].
    apply testbit_or_all_pow2 in E; [contradiction|assumption|assumption].
  - apply Z.bits_inj'. intros k Hk.
    rewrite Z.lor_spec, Z.pow2_bits_eqb by assumption.
    destruct (Z.eqb_spec q k) as [->|_]; [|apply orb_false_r].
    rewrite orb_true_r. symmetry.
    apply testbit_or_all_pow2; assumption.
Qed.

Lemma Forall_le30_nonneg controls :
  Forall (fun c => 0 <= c <= 30) controls -> Forall (fun c => 0 <= c) controls.
Proof. intros H. eapply Forall_impl; [|exact H]. cbv beta. intros; lia. Qed.

Lemma Forall_lt32_nonneg controls :
  Forall (fun c => 0 <= c < 32) controls -> Forall (fun c => 0 <= c) controls.
Proof. intros H. eapply Forall_impl; [|exact H]. cbv beta. intros; lia. Qed.

(** X13.  With the controls and the target at most 30, ApplyControlled2x2
    makes one call of Apply2x2: the first offset is the OR of the control
    powers, the second is that OR with the target power, the bit count is
    [controlLen + 1] and the powers are those of the controls and of the
    target in ascending order.  ApplyAntiControlled2x2 makes the same
    call with the offsets 0 and the target power.  Bit [k] of the control
    mask is set exactly when [k] is a control; when the target is not a
    control the second offset is the first plus the target power, and
    when it is one the two offsets coincide. *)
Theorem controlled_2x2_offsets
  (w : World) (s : St w) (controls : list Z) (target : Z)
  (mtrx : list complex) (doCalcNorm : bool) :
  Forall (fun c => 0 <= c <= 30) controls ->
  0 <= target <= 30 ->
  let controlMask := or_all (map (Z.pow 2) controls) in
  let fullMask := Z.lor controlMask (2 ^ target) in
  let qPowersSorted := sort (map (Z.pow 2) (controls ++ [target])) in
  let bitCount := Z.of_nat (List.length controls) + 1 in
  calls (run w (ApplyControlled2x2 controls target mtrx doCalcNorm) s)
  = [Call_Apply2x2 controlMask fullMask mtrx bitCount qPowersSorted
       doCalcNorm]
  /\ calls (run w (ApplyAntiControlled2x2 controls target mtrx doCalcNorm) s)
     = [Call_Apply2x2 0 (2 ^ target) mtrx bitCount qPowersSorted doCalcNorm]
  /\ StronglySorted Z.le qPowersSorted
  /\ Permutation qPowersSorted (map (Z.pow 2) (controls ++ [target]))
  /\ (forall k, 0 <= k ->
        Z.testbit controlMask k = true <-> In k controls)
  /\ (~ In target controls -> fullMask = controlMask + 2 ^ target)
  /\ (In target controls -> fullMask = controlMask).
Proof.
  intros Hc Ht. cbv zeta.
  pose proof (Forall_le30_nonneg controls Hc) as Hge.
  assert (Hz : zth (map (Z.pow 2) controls ++ [2 ^ target])
                 (Z.of_nat (List.length controls)) 0 = 2 ^ target).
  { rewrite <- (length_map (Z.pow 2) controls). apply zth_middle. }
  split; [|split].
  - unfold ApplyControlled2x2, trigger.
    rewrite int_powers_pow2, shl_int_pow2, Hz by assumption.
    cbn [run]. destruct (answer w unit _ s) as [[] s1].
    cbn [calls snd calls_of app]. rewrite map_app. reflexivity.
  - unfold ApplyAntiControlled2x2, trigger.
    rewrite int_powers_pow2, shl_int_pow2, Hz by assumption.
    cbn [run]. destruct (answer w unit _ s) as [[] s1].
    cbn [calls snd calls_of app]. rewrite map_app. reflexivity.
  - split; [apply sort_sorted|]. split; [apply sort_perm|].
    split; [intros k Hk; apply testbit_or_all_pow2; assumption|].
    apply lor_or_all_pow2; [lia|assumption].
Qed.


Lemma run_trigger_unit (w : World) (s : St w) (e : EngE unit) :
  calls (run w (trigger e) s) = calls_of e tt.
Proof.
  unfold trigger. cbn [run]. destruct (answer w unit e s) as [[] s1].
  cbn [calls snd]. apply app_nil_r.
Qed.

Lemma controlled_pair_calls (w : World) (s : St w) mtrx controls q1 q2 :
  Forall (fun c => 0 <= c < 32) controls ->
  0 <= q1 < 32 -> 0 <= q2 < 32 ->
  calls (run w (controlled_pair mtrx controls q1 q2) s)
  = [Call_Apply2x2
       (Z.lor (or_all (map (Z.pow 2) controls)) (2 ^ q1))
       (Z.lor (or_all (map (Z.pow 2) controls)) (2 ^ q2)) mtrx
       (2 + Z.of_nat (List.length controls))
       (sort (map (Z.pow 2) (controls ++ [q1; q2]))) false]
  /\ calls (run w (anticontrolled_pair mtrx controls q1 q2) s)
     = [Call_Apply2x2 (2 ^ q1) (2 ^ q2) mtrx
          (2 + Z.of_nat (List.length controls))
          (sort (map (Z.pow 2) (controls ++ [q1; q2]))) false].
Proof.
  intros Hc H1 H2.
  unfold controlled_pair, anticontrolled_pair.
  rewrite !run_trigger_unit.
  rewrite uint_powers_pow2, !shl_uint_pow2 by assumption.
  rewrite map_app. split; reflexivity.
Qed.

(** X15.  With distinct qubits and everything below 32, each of the six
    controlled swaps makes one call of Apply2x2 without norm calculation:
    the bit count is [2 + controlLen] and the powers are those of the
    controls and of the two qubits in ascending order.  CSwap, CSqrtSwap
    and CISqrtSwap pass the offsets [skipMask | 1 << qubit1] and
    [skipMask | 1 << qubit2], in this order, with the matrices [pauliX],
    [sqrtX] and [iSqrtX]; the three anti-controlled gates pass
    [1 << qubit1] and [1 << qubit2].  When neither qubit is a control the
    two offsets are the control mask plus the qubit power, and they
    differ. *)
Theorem controlled_swaps_offsets
  (w : World) (s : St w) (controls : list Z) (q1 q2 : Z) :
  q1 <> q2 ->
  Forall (fun c => 0 <= c < 32) controls ->
  0 <= q1 < 32 -> 0 <= q2 < 32 ->
  let skipMask := or_all (map (Z.pow 2) controls) in
  let qPowersSorted := sort (map (Z.pow 2) (controls ++ [q1; q2])) in
  let bitCount := 2 + Z.of_nat (List.length controls) in
  let controlled mtrx :=
    [Call_Apply2x2 (Z.lor skipMask (2 ^ q1)) (Z.lor skipMask (2 ^ q2)) mtrx
       bitCount qPowersSorted false] in
  let anticontrolled mtrx :=
    [Call_Apply2x2 (2 ^ q1) (2 ^ q2) mtrx bitCount qPowersSorted false] in
  (calls (run w (CSwap controls q1 q2) s) = controlled pauliX
   /\ calls (run w (CSqrtSwap controls q1 q2) s) = controlled sqrtX
   /\ calls (run w (CISqrtSwap controls q1 q2) s) = controlled iSqrtX
   /\ calls (run w (AntiCSwap controls q1 q2) s) = anticontrolled pauliX
   /\ calls (run w (AntiCSqrtSwap controls q1 q2) s) = anticontrolled sqrtX
   /\ calls (run w (AntiCISqrtSwap controls q1 q2) s)
      = anticontrolled iSqrtX)
  /\ StronglySorted Z.le qPowersSorted
  /\ Permutation qPowersSorted (map (Z.pow 2) (controls ++ [q1; q2]))
  /\ (~ In q1 controls -> ~ In q2 controls ->
        Z.lor skipMask (2 ^ q1) = skipMask + 2 ^ q1
        /\ Z.lor skipMask (2 ^ q2) = skipMask + 2 ^ q2
        /\ Z.lor skipMask (2 ^ q1) <> Z.lor skipMask (2 ^ q2)).
Proof.
  intros Hne Hc H1 H2. cbv zeta.
  pose proof (Forall_lt32_nonneg controls Hc) as Hge.
  unfold CSwap, CSqrtSwap, CISqrtSwap, AntiCSwap, AntiCSqrtSwap,
    AntiCISqrtSwap.
  destruct (Z.eqb_spec q1 q2) as [E|_]; [contradiction|].
  split; [|split; [apply sort_sorted|split; [apply sort_perm|]]].
  - repeat split;
      first [ apply (proj1 (controlled_pair_calls w s _ controls q1 q2
                              Hc H1 H2))
            | apply (proj2 (controlled_pair_calls w s _ controls q1 q2
                              Hc H1 H2)) ].
  - intros Hn1 Hn2.
    destruct (lor_or_all_pow2 controls q1 ltac:(lia) Hge) as [P1 _].
    destruct (lor_or_all_pow2 controls q2 ltac:(lia) Hge) as [P2 _].
    rewrite (P1 Hn1), (P2 Hn2). repeat split.
    intros E. assert (E' : 2 ^ q1 = 2 ^ q2) by lia.
    apply Z.pow_inj_r in E'; lia.
Qed.

(** X17.  Swap, SqrtSwap and ISqrtSwap are symmetric in their two
    qubits: the two bit powers are sorted before the one call of
    Apply2x2, whose offsets are the sorted powers, so exchanging the
    arguments gives the same program. *)
Theorem pair_gates_symmetric (q1 q2 : Z) :
  Swap q1 q2 = Swap q2 q1
  /\ SqrtSwap q1 q2 = SqrtSwap q2 q1
  /\ ISqrtSwap q1 q2 = ISqrtSwap q2 q1.
Proof.
  assert (H : forall mtrx,
            pair_gate mtrx q1 q2 = pair_gate mtrx q2 q1).
  { intros mtrx. unfold pair_gate. rewrite !sort_pair.
    set (a := toCap (shl_int 1 q1)). set (b := toCap (shl_int 1 q2)).
    destruct (Z.leb_spec a b), (Z.leb_spec b a); try reflexivity; try lia.
    replace b with a by lia. reflexivity. }
  unfold Swap, SqrtSwap, ISqrtSwap. rewrite (Z.eqb_sym q2 q1).
  destruct (q1 =? q2); [repeat split|].
  rewrite !H. repeat split.
Qed.

(** X18.  With distinct qubits at most 30, Swap, SqrtSwap and ISqrtSwap
    make one call of Apply2x2 without norm calculation whose offsets are
    the power of the lower qubit and the power of the higher qubit, with
    the matrices [pauliX], [sqrtX] and [iSqrtX].  CSwap without controls
    passes the same sorted powers but the offsets in the order of its
    arguments; it is the same program as AntiCSwap without controls, and
    for [qubit1 < qubit2] the same program as Swap. *)
Theorem pair_gates_offsets
  (w : World) (s : St w) (q1 q2 : Z) :
  q1 <> q2 -> 0 <= q1 <= 30 -> 0 <= q2 <= 30 ->
  let lo := 2 ^ Z.min q1 q2 in
  let hi := 2 ^ Z.max q1 q2 in
  calls (run w (Swap q1 q2) s)
  = [Call_Apply2x2 lo hi pauliX 2 [lo; hi] false]
  /\ calls (run w (SqrtSwap q1 q2) s)
     = [Call_Apply2x2 lo hi sqrtX 2 [lo; hi] false]
  /\ calls (run w (ISqrtSwap q1 q2) s)
     = [Call_Apply2x2 lo hi iSqrtX 2 [lo; hi] false]
  /\ calls (run w (CSwap [] q1 q2) s)
     = [Call_Apply2x2 (2 ^ q1) (2 ^ q2) pauliX 2 [lo; hi] false]
  /\ CSwap [] q1 q2 = AntiCSwap [] q1 q2
  /\ (q1 < q2 -> CSwap [] q1 q2 = Swap q1 q2).
Proof.
  intros Hne H1 H2. cbv zeta.
  assert (Hsort : sort [2 ^ q1; 2 ^ q2]
                  = [2 ^ Z.min q1 q2; 2 ^ Z.max q1 q2]).
  { rewrite sort_pair.
    destruct (Z.leb_spec (2 ^ q1) (2 ^ q2)) as [Hle|Hgt].
    - apply Z.pow_le_mono_r_iff in Hle; try lia.
      rewrite Z.min_l, Z.max_r by lia. reflexivity.
    - apply Z.pow_lt_mono_r_iff in Hgt; try lia.
      rewrite Z.min_r, Z.max_l by lia. reflexivity. }
  assert (Hpair : forall mtrx,
            pair_gate mtrx q1 q2
            = trigger (Apply2x2E (2 ^ Z.min q1 q2) (2 ^ Z.max q1 q2) mtrx 2
                         [2 ^ Z.min q1 q2; 2 ^ Z.max q1 q2] false)).
  { intros mtrx. unfold pair_gate.
    rewrite !shl_int_pow2, Hsort by lia. reflexivity. }
  assert (Hc : CSwap [] q1 q2
               = trigger (Apply2x2E (2 ^ q1) (2 ^ q2) pauliX 2
                            [2 ^ Z.min q1 q2; 2 ^ Z.max q1 q2] false)).
  { unfold CSwap, controlled_pair.
    destruct (Z.eqb_spec q1 q2) as [E|_]; [contradiction|].
    cbn [map app or_all fold_left List.length Z.of_nat Z.add Pos.add].
    rewrite !shl_uint_pow2, Hsort by lia. reflexivity. }
  unfold Swap, SqrtSwap, ISqrtSwap.
  destruct (Z.eqb_spec q1 q2) as [E|_]; [contradiction|].
  rewrite !Hpair, Hc, !run_trigger_unit.
  repeat split.
  - rewrite <- Hc. unfold CSwap, AntiCSwap.
    destruct (q1 =? q2); reflexivity.
  - intros Hlt. rewrite Z.min_l, Z.max_r by lia. reflexivity.
Qed.

End ControlledGateFacts.

(* ================================================================= *)
(** ** The gate matrices *)

Lemma real1_Qc_ring : Real1Ring real1_Qc.
Proof.
  split.
  - exact Qcrt.
  - apply Qc_is_canon. reflexivity.
  - apply Qc_is_canon. reflexivity.
  - apply Qc_is_canon. reflexivity.
Qed.

Section MatrixFacts.
Context {R : Real1} {RR : Real1Ring R}.

Add Ring real1_ring : r1_ring.

Lemma four_half_squares :
  radd (radd (rmul half half) (rmul half half))
       (radd (rmul half half) (rmul half half)) = ONE_R1.
Proof.
  assert (H : rmul (radd ONE_R1 ONE_R1) half = ONE_R1)
    by (rewrite <- r1_two; exact r1_half).
  transitivity (rmul (rmul (radd ONE_R1 ONE_R1) half)
                     (rmul (radd ONE_R1 ONE_R1) half)); [ring|].
  rewrite H. ring.
Qed.

(** X19.  In exact real arithmetic the constant matrices of the pair
    gates are what their names say: [sqrtX] times [sqrtX] and [iSqrtX]
    times [iSqrtX] are [pauliX], the matrix of Swap; [sqrtX] and
    [iSqrtX] are inverse to each other; and [pauliX] is its own
    inverse. *)
Theorem gate_matrices_products :
  mtrx_mul sqrtX sqrtX = pauliX
  /\ mtrx_mul iSqrtX iSqrtX = pauliX
  /\ mtrx_mul sqrtX iSqrtX = mtrx_identity
  /\ mtrx_mul iSqrtX sqrtX = mtrx_identity
  /\ mtrx_mul pauliX pauliX = mtrx_identity.
Proof.
  pose proof four_half_squares as H4.
  unfold sqrtX, iSqrtX, pauliX, mtrx_identity, mtrx_mul, cadd, cmul,
    neg_half.
  rewrite r1_neg_half. fold half. cbn [re im].
  set (h := half) in *.
  repeat split; repeat f_equal; try ring;
    try (rewrite <- H4; ring).
Qed.

End MatrixFacts.

(* ================================================================= *)
(** ** The theorems at concrete inputs *)

Section Instances.

#[local] Existing Instance cfg64.
#[local] Existing Instance real1_Qc.
#[local] Existing Instance real1_Qc_laws.

Lemma ProbMaskAll_enumerates_patterns_witness :
  (0 <= 5 < 2 ^ @capBits cfg64)
  /\ popcount 5 <= 30
  /\ 2 ^ popcount 5 <= Z.of_nat (List.length (repeat 0%Qc 4))
  /\ (forall p, 0 <= p -> Z.land p 5 = p ->
        exists lcv, 0 <= lcv < 2 ^ popcount 5
                    /\ @mask_pattern cfg64 5 lcv = p).
Proof.
  assert (H1 : 0 <= 5 < 2 ^ @capBits cfg64) by (cbn; lia).
  assert (H2 : popcount 5 <= 30) by (cbn; lia).
  assert (H3 : 2 ^ popcount 5 <= Z.of_nat (List.length (repeat 0%Qc 4)))
    by (cbn; lia).
  repeat split; try assumption; try (cbn; lia).
  apply (@ProbMaskAll_enumerates_patterns cfg64 real1_Qc zero_world tt 5
           (repeat 0%Qc 4) H1 H2 H3).
Defined.

Lemma ForceM_bits_forced_exact_witness :
  (1 < List.length [2; 0])%nat
  /\ Forall (fun b => 0 <= b < 32) [2; 0]
  /\ result_of (run zero_world
                  (@ForceM_bits cfg64 real1_Qc [2; 0] (Some [true; false]))
                  tt)
     = or_selected [2; 0] [true; false].
Proof.
  assert (H1 : (1 < List.length [2; 0])%nat) by (cbn; lia).
  assert (H2 : Forall (fun b => 0 <= b < 32) [2; 0])
    by (repeat constructor; lia).
  split; [exact H1|]. split; [exact H2|].
  exact (proj1 (@ForceM_bits_forced_exact cfg64 real1_Qc zero_world tt
                  [2; 0] [true; false] H1 H2)).
Defined.

Lemma ForceM_bits_sampled_selection_witness :
  (1 < List.length [0; 1] <= 30)%nat
  /\ exists (prob : Qc) (probArray : list Qc),
       Z.of_nat (List.length probArray) = 2 ^ Z.of_nat (List.length [0; 1])
       /\ ((forall j, (j <= List.length probArray)%nat ->
              rlt (cumul probArray j) prob = true) ->
           Forall (fun p => rle ZERO_R1 p = true) probArray ->
           exists r,
             (r < List.length probArray)%nat
             /\ sample prob probArray (2 ^ Z.of_nat (List.length [0; 1]))
                  ONE_R1
                = (Z.of_nat r, nth r probArray ZERO_R1)).
Proof.
  assert (H : (1 < List.length [0; 1] <= 30)%nat) by (cbn; lia).
  split; [exact H|].
  destruct (@ForceM_bits_sampled_selection cfg64 real1_Qc real1_Qc_laws
              zero_world tt [0; 1] H)
    as (dn & phase & prob & s3 & _ & Hlength & _ & Hfallback).
  eexists prob, _. split; [exact Hlength|].
  intros Hbelow Hnonneg.
  destruct (Hfallback Hbelow Hnonneg) as (r & Hr & Hsmp & _).
  exists r. split; [exact Hr|exact Hsmp].
Defined.

Lemma ForceM_bits_index_to_pattern_witness :
  (1 < List.length [2; 0])%nat
  /\ NoDup [2; 0]
  /\ Forall (fun b => 0 <= b < 32) [2; 0]
  /\ (forall index, 0 <= index < 2 ^ Z.of_nat (List.length [2; 0]) ->
        @reassemble cfg64 (List.length [2; 0]) 0
          (sort (@bit_powers cfg64 [2; 0])) index 0
        = @mask_pattern cfg64 (or_all (@bit_powers cfg64 [2; 0])) index).
Proof.
  assert (H1 : (1 < List.length [2; 0])%nat) by (cbn; lia).
  assert (H2 : NoDup [2; 0]).
  { repeat constructor; cbn; intuition lia. }
  assert (H3 : Forall (fun b => 0 <= b < 32) [2; 0])
    by (repeat constructor; lia).
  split; [exact H1|]. split; [exact H2|]. split; [exact H3|].
  exact (proj1 (proj2 (proj2 (proj2
           (@ForceM_bits_index_to_pattern cfg64 real1_Qc zero_world tt
              [2; 0] H1 H2 H3))))).
Defined.

Lemma Swap_twice_restores_witness :
  1 <> 2 /\ 0 <= 1 <= 30 /\ 0 <= 2 <= 30
  /\ forall j,
       (state_of
          (run (@gate_world real1_Qc 3 zero_other)
             (bind (@Swap cfg64 real1_Qc 1 2)
                (fun _ => @Swap cfg64 real1_Qc 1 2))
             (basis_state 3)) : @Amplitudes real1_Qc) j
       = basis_state 3 j.
Proof.
  assert (H0 : 1 <> 2) by lia.
  assert (H1 : 0 <= 1 <= 30) by lia.
  assert (H2 : 0 <= 2 <= 30) by lia.
  split; [exact H0|]. split; [exact H1|]. split; [exact H2|].
  exact (proj1 (@Swap_twice_restores cfg64 real1_Qc real1_Qc_laws 3
                  zero_other 1 2 (basis_state 3) H0 H1 H2)).
Defined.

Lemma controlLen_zero_is_ApplySingleBit_witness :
  Z.of_nat (List.length (@nil Z)) = 0
  /\ @ApplyControlledSingleBit cfg64 real1_Qc [] 1 pauliX
     = @ApplySingleBit cfg64 real1_Qc pauliX true 1.
Proof.
  assert (H : Z.of_nat (List.length (@nil Z)) = 0) by reflexivity.
  split; [exact H|].
  exact (proj1 (@controlLen_zero_is_ApplySingleBit cfg64 real1_Qc
                  zero_world tt [] 1 pauliX H)).
Defined.

Lemma ForceMReg_forced_unit_normalizer_witness :
  1 < 2 <= 30
  /\ result_of (run zero_world (@ForceMReg cfg64 real1_Qc 1 2 2 true) tt) = 2.
Proof.
  assert (H : 1 < 2 <= 30) by lia.
  split; [exact H|].
  exact (proj1 (@ForceMReg_forced_unit_normalizer cfg64 real1_Qc zero_world
                  tt 1 2 2 H)).
Defined.

Lemma ForceM_unforced_zero_chance_witness :
  exists (doNormalize : bool) (oneChance prob : Qc) (phase : complex),
    calls (run zero_world (ForceM 0 true false) tt)
    = normalize_calls doNormalize
      ++ [Call_Prob 0 oneChance; Call_Rand prob;
          Call_GetNonunitaryPhase phase;
          Call_ApplyMBit (toCap (shl_int 1 0))
            (rlt prob oneChance && rlt ZERO_R1 oneChance)
            (cdiv_real phase
               (rsqrt (if rlt prob oneChance && rlt ZERO_R1 oneChance
                       then oneChance else rsub ONE_R1 oneChance)))]
    /\ result_of (run zero_world (ForceM 0 true false) tt)
       = rlt prob oneChance && rlt ZERO_R1 oneChance.
Proof.
  destruct (@ForceM_unforced_zero_chance cfg64 real1_Qc real1_Qc_laws
              zero_world tt 0 true)
    as (dn & oneChance & prob & phase & Hcalls & Hres & _).
  exists dn, oneChance, prob, phase. split; [exact Hcalls|exact Hres].
Defined.

(** C4 as stated fails: with every joint probability zero and the
    threshold 1/2 the cumulative probability never exceeds the threshold,
    the walk falls back to the last pattern, and the normalizer is
    [ZERO_R1]: ApplyM is given [phase / sqrt(0)]. *)
Lemma sample_all_zero_normalizer :
  @sample cfg64 real1_Qc (qc 1 2) [0%Qc; 0%Qc; 0%Qc; 0%Qc] 4 1%Qc
  = (3, 0%Qc)
  /\ ~ (snd (@sample cfg64 real1_Qc (qc 1 2) [0%Qc; 0%Qc; 0%Qc; 0%Qc] 4 1%Qc)
        <> @ZERO_R1 real1_Qc)
  /\ calls (run zero_world (@ForceM_bits cfg64 real1_Qc [0; 1] None) tt)
     = [ Call_NormalizeState;
         Call_GetNonunitaryPhase (s_Phase zero_script);
         Call_Rand (qc 1 2);
         Call_ProbMask 3 0 0%Qc; Call_ProbMask 3 1 0%Qc;
         Call_ProbMask 3 2 0%Qc; Call_ProbMask 3 3 0%Qc;
         Call_ApplyM 3 3
           (cdiv_real (s_Phase zero_script) (rsqrt (@ZERO_R1 real1_Qc))) ].
Proof.
  split; [reflexivity|]. split.
  - intros H. apply H. reflexivity.
  - reflexivity.
Qed.

(** The two cases that the statement of [sample_walk] leaves
    out.  When the cumulative probability reaches the threshold only with
    the last entry, the walk ends with [lcv = lengthPower], the test
    [lcv < lengthPower] fails and the largest probability is selected, not
    the last pattern. *)
Example sample_stops_at_last_entry :
  @sample cfg64 real1_Qc (qc 7 10) [qc 6 10; 0%Qc; 0%Qc; qc 4 10] 4 1%Qc
  = (0, qc 6 10).
Proof. reflexivity. Qed.

(** With a threshold of zero the loop does not run and [lcv--] wraps
    around: the index is the largest [bitCapInt] and the read of the
    array is out of bounds. *)
Example sample_threshold_zero :
  fst (@sample cfg64 real1_Qc 0%Qc [qc 6 10; 0%Qc; 0%Qc; qc 4 10] 4 1%Qc)
  = 2 ^ 64 - 1.
Proof. reflexivity. Qed.

(** The patterns of the mask 0b101101, in the order of ProbMaskAll. *)
Example mask_pattern_45 :
  map (@mask_pattern cfg64 45) [0; 1; 2; 3; 4; 5; 6; 7]
  = [0; 1; 4; 5; 8; 9; 12; 13].
Proof. reflexivity. Qed.

(** One Swap of the qubits 1 and 2 of three moves the amplitude of the
    permutation 0b010 to the permutation 0b100. *)
Example Swap_moves_amplitude :
  let a := state_of (run (@gate_world real1_Qc 3 zero_other)
                       (@Swap cfg64 real1_Qc 1 2) (basis_state 2))
           : @Amplitudes real1_Qc in
  this (re (a 4)) = 1%Q /\ this (re (a 2)) = 0%Q.
Proof. split; reflexivity. Qed.

Lemma ProbRegAll_fills_in_order_witness :
  0 <= 2 < 32
  /\ 2 ^ 2 <= Z.of_nat (List.length (repeat 0%Qc 4))
  /\ List.length
       (result_of (run zero_world
                     (@ProbRegAll cfg64 real1_Qc 1 2 (repeat 0%Qc 4)) tt))
     = List.length (repeat 0%Qc 4).
Proof.
  assert (H1 : 0 <= 2 < 32) by lia.
  assert (H2 : 2 ^ 2 <= Z.of_nat (List.length (repeat 0%Qc 4)))
    by (cbn; lia).
  split; [exact H1|]. split; [exact H2|].
  exact (proj1 (proj2 (@ProbRegAll_fills_in_order cfg64 real1_Qc zero_world
                         tt 1 2 (repeat 0%Qc 4) H1 H2))).
Defined.

Lemma ForceMReg_sampled_index_and_normalizer_witness :
  1 < 2 <= 30
  /\ forall result',
       @ForceMReg cfg64 real1_Qc 1 2 result' false
       = @ForceMReg cfg64 real1_Qc 1 2 0 false.
Proof.
  assert (H : 1 < 2 <= 30) by lia.
  split; [exact H|].
  destruct (@ForceMReg_sampled_index_and_normalizer cfg64 real1_Qc
              zero_world tt 1 2 0 H)
    as (dn & prob & phase & probArray & nrmlzr & _ & _ & Hignored).
  exact Hignored.
Defined.

Lemma ForceMReg_sampled_selection_witness :
  1 < 2 <= 30
  /\ exists probArray : list Qc, Z.of_nat (List.length probArray) = 2 ^ 2.
Proof.
  assert (H : 1 < 2 <= 30) by lia.
  split; [exact H|].
  destruct (@ForceMReg_sampled_selection cfg64 real1_Qc real1_Qc_laws
              zero_world tt 1 2 0 H)
    as (dn & prob & phase & probArray & nrmlzr & _ & Hlength & _).
  exists probArray. exact Hlength.
Defined.

Lemma sample_threshold_not_positive_witness :
  0 < 4 < 2 ^ @capBits cfg64
  /\ @rlt real1_Qc ZERO_R1 0%Qc = false
  /\ fst (@sample cfg64 real1_Qc 0%Qc [qc 6 10; 0%Qc; 0%Qc; qc 4 10] 4 1%Qc)
     = 2 ^ @capBits cfg64 - 1.
Proof.
  assert (H1 : 0 < 4 < 2 ^ @capBits cfg64) by (cbn; lia).
  assert (H2 : @rlt real1_Qc ZERO_R1 0%Qc = false) by reflexivity.
  split; [exact H1|]. split; [exact H2|].
  exact (proj1 (@sample_threshold_not_positive cfg64 real1_Qc 0%Qc
                  [qc 6 10; 0%Qc; 0%Qc; qc 4 10] 4 1%Qc H1 H2)).
Defined.

Lemma ForceM_bits_one_qubit_witness :
  0 <= 3 < 32
  /\ exists ret : bool,
       calls (run zero_world (@ForceM_bits cfg64 real1_Qc [3] None) tt)
       = [Call_M 3 ret]
       /\ result_of (run zero_world (@ForceM_bits cfg64 real1_Qc [3] None) tt)
          = if ret then 2 ^ 3 else 0.
Proof.
  assert (H : 0 <= 3 < 32) by lia.
  split; [exact H|].
  exact (proj1 (@ForceM_bits_one_qubit cfg64 real1_Qc zero_world tt 3 true
                  [] H)).
Defined.

Lemma ForceM_bits_sampled_pattern_and_normalizer_witness :
  (1 < List.length [2; 0] <= 30)%nat
  /\ NoDup [2; 0]
  /\ Forall (fun b => 0 <= b < 32) [2; 0]
  /\ exists (prob : Qc) (probArray : list Qc) (index : Z) (nrmlzr : Qc),
       (index, nrmlzr)
       = @sample cfg64 real1_Qc prob probArray
           (2 ^ Z.of_nat (List.length [2; 0])) 1%Qc.
Proof.
  assert (H1 : (1 < List.length [2; 0] <= 30)%nat) by (cbn; lia).
  assert (H2 : NoDup [2; 0]).
  { repeat constructor; cbn; intuition lia. }
  assert (H3 : Forall (fun b => 0 <= b < 32) [2; 0])
    by (repeat constructor; lia).
  split; [exact H1|]. split; [exact H2|]. split; [exact H3|].
  destruct (@ForceM_bits_sampled_pattern_and_normalizer cfg64 real1_Qc
              zero_world tt [2; 0] H1 H2 H3)
    as (dn & phase & prob & probArray & index & nrmlzr & _ & Hsmp & _).
  exists prob, probArray, index, nrmlzr. exact Hsmp.
Defined.

Lemma ForceM_bits_forced_pattern_bits_witness :
  (1 < List.length [2; 0])%nat
  /\ Forall (fun b => 0 <= b < 32) [2; 0]
  /\ 0 <= result_of (run zero_world
                       (@ForceM_bits cfg64 real1_Qc [2; 0]
                          (Some [true; false])) tt) < 2 ^ 32.
Proof.
  assert (H1 : (1 < List.length [2; 0])%nat) by (cbn; lia).
  assert (H2 : Forall (fun b => 0 <= b < 32) [2; 0])
    by (repeat constructor; lia).
  split; [exact H1|]. split; [exact H2|].
  exact (proj2 (proj2 (@ForceM_bits_forced_pattern_bits cfg64 real1_Qc
                         zero_world tt [2; 0] [true; false] H1 H2))).
Defined.

Lemma ForceM_bits_order_irrelevant_witness :
  Permutation [2; 0] [0; 2]
  /\ @ForceM_bits cfg64 real1_Qc [2; 0] None
     = @ForceM_bits cfg64 real1_Qc [0; 2] None.
Proof.
  assert (H : Permutation [2; 0] [0; 2]) by apply perm_swap.
  split; [exact H|].
  exact (@ForceM_bits_order_irrelevant cfg64 real1_Qc [2; 0] [0; 2] H).
Defined.

Lemma ProbMaskAll_patterns_ascending_witness :
  0 <= 5 < 2 ^ @capBits cfg64
  /\ @mask_pattern cfg64 5 (2 ^ popcount 5 - 1) = 5.
Proof.
  assert (H : 0 <= 5 < 2 ^ @capBits cfg64) by (cbn; lia).
  split; [exact H|].
  exact (proj1 (proj2 (@ProbMaskAll_patterns_ascending cfg64 5 H))).
Defined.

Lemma mask_pattern_register_witness :
  0 <= 1 /\ 0 < 2 /\ 1 + 2 <= @capBits cfg64 /\ 0 <= 3 < 2 ^ 2
  /\ @mask_pattern cfg64 (Z.shiftl (2 ^ 2 - 1) 1) 3 = Z.shiftl 3 1.
Proof.
  assert (H1 : 0 <= 1) by lia.
  assert (H2 : 0 < 2) by lia.
  assert (H3 : 1 + 2 <= @capBits cfg64) by (cbn; lia).
  assert (H4 : 0 <= 3 < 2 ^ 2) by lia.
  repeat (split; [assumption|]).
  exact (proj1 (proj2 (proj2 (@mask_pattern_register cfg64 1 2 3
                                H1 H2 H3 H4)))).
Defined.

Lemma controlled_2x2_offsets_witness :
  Forall (fun c => 0 <= c <= 30) [0; 2]
  /\ 0 <= 1 <= 30
  /\ calls (run zero_world
              (@ApplyControlled2x2 cfg64 real1_Qc [0; 2] 1 pauliX false) tt)
     = [Call_Apply2x2 (or_all (map (Z.pow 2) [0; 2]))
          (Z.lor (or_all (map (Z.pow 2) [0; 2])) (2 ^ 1)) pauliX
          (Z.of_nat (List.length [0; 2]) + 1)
          (sort (map (Z.pow 2) ([0; 2] ++ [1]))) false].
Proof.
  assert (H1 : Forall (fun c => 0 <= c <= 30) [0; 2])
    by (repeat constructor; lia).
  assert (H2 : 0 <= 1 <= 30) by lia.
  split; [exact H1|]. split; [exact H2|].
  exact (proj1 (@controlled_2x2_offsets cfg64 real1_Qc zero_world tt
                  [0; 2] 1 pauliX false H1 H2)).
Defined.


Lemma controlled_swaps_offsets_witness :
  1 <> 2
  /\ Forall (fun c => 0 <= c < 32) [0]
  /\ 0 <= 1 < 32 /\ 0 <= 2 < 32
  /\ StronglySorted Z.le (sort (map (Z.pow 2) ([0] ++ [1; 2]))).
Proof.
  assert (H0 : 1 <> 2) by lia.
  assert (Hc : Forall (fun c => 0 <= c < 32) [0])
    by (repeat constructor; lia).
  assert (H1 : 0 <= 1 < 32) by lia.
  assert (H2 : 0 <= 2 < 32) by lia.
  repeat (split; [assumption|]).
  exact (proj1 (proj2 (@controlled_swaps_offsets cfg64 real1_Qc zero_world
                         tt [0] 1 2 H0 Hc H1 H2))).
Defined.

Lemma controls_order_irrelevant_witness :
  Permutation [0; 1] [1; 0]
  /\ @CSwap cfg64 real1_Qc [0; 1] 2 3 = @CSwap cfg64 real1_Qc [1; 0] 2 3.
Proof.
  assert (H : Permutation [0; 1] [1; 0]) by apply perm_swap.
  split; [exact H|].
  exact (proj1 (proj2 (proj2 (proj2 (proj2
           (@controls_order_irrelevant cfg64 real1_Qc [0; 1] [1; 0] 4 2 3
              pauliX false H)))))).
Defined.

Lemma pair_gates_offsets_witness :
  2 <> 1 /\ 0 <= 2 <= 30 /\ 0 <= 1 <= 30
  /\ calls (run zero_world (@Swap cfg64 real1_Qc 2 1) tt)
     = [Call_Apply2x2 (2 ^ Z.min 2 1) (2 ^ Z.max 2 1) pauliX 2
          [2 ^ Z.min 2 1; 2 ^ Z.max 2 1] false].
Proof.
  assert (H0 : 2 <> 1) by lia.
  assert (H1 : 0 <= 2 <= 30) by lia.
  assert (H2 : 0 <= 1 <= 30) by lia.
  repeat (split; [assumption|]).
  exact (proj1 (@pair_gates_offsets cfg64 real1_Qc zero_world tt 2 1
                  H0 H1 H2)).
Defined.

Lemma gate_matrices_products_witness :
  @mtrx_mul real1_Qc sqrtX iSqrtX = mtrx_identity.
Proof.
  exact (proj1 (proj2 (proj2
           (@gate_matrices_products real1_Qc real1_Qc_ring)))).
Defined.

Lemma ProbMaskAll_loops_witness :
  0 <= 5 < 2 ^ @capBits cfg64
  /\ (@bitFuel cfg64 <= @bitFuel cfg64)%nat
  /\ StronglySorted Z.lt
       (@skip_loop cfg64 (@bitFuel cfg64) 5 (@not_cap cfg64 5) []).
Proof.
  assert (H1 : 0 <= 5 < 2 ^ @capBits cfg64) by (cbn; lia).
  assert (H2 : (@bitFuel cfg64 <= @bitFuel cfg64)%nat) by lia.
  split; [exact H1|]. split; [exact H2|].
  exact (proj1 (proj2 (@ProbMaskAll_loops cfg64 5 (@bitFuel cfg64) H1 H2))).
Defined.

End Instances.
